(** * Lumberjack math traces: expression engine and trace computer

    A shallow embedding of [MathExpressionParser] (math_expression_parser.cpp)
    and [MathTraceComputer] (math_trace_computer.cpp), followed by the
    properties of the two components.

    Conventions of the embedding.
    - [double] is the kernel's binary64 [float]; [==], [<], [<=] are
      [PrimFloat.eqb], [PrimFloat.ltb], [PrimFloat.leb]; [fabs] and [sqrt]
      are [PrimFloat.abs] and [PrimFloat.sqrt] (both exact in IEEE 754).
      The transcendental functions of <cmath> are taken as a parameter
      ([Libm]).
    - [QString] is [string], a [QChar] is one Latin-1 code unit ([ascii]).
    - [int] is [Z]; the one product that can leave the 32-bit range is
      wrapped explicitly ([int_mul]).
    - An out-parameter [double& result] with a [bool] return is an
      [option float]; a thrown [QString] is the [Throw] case of [result].
    - [QMap<QString, double>] is [gmap string float];
      [QMap<QString, DataSeriesPointer>] is the list of its entries in key
      order, the order in which the code iterates over it. *)

From Stdlib Require Import ZArith Lia List Bool Sorted Permutation.
From Stdlib Require Import Strings.String Strings.Ascii DecimalString.
From Stdlib Require Import Floats.
From stdpp Require Import gmap strings.

Local Open Scope Z_scope.

(* ===================================================================== *)
(** * Part I. Definitions                                                 *)
(* ===================================================================== *)

(** ** Qt text primitives *)

Definition QChar := ascii.

Definition unicode (c : QChar) : N := N_of_ascii c.

Definition inRange (lo hi u : N) : bool := (N.leb lo u && N.leb u hi)%bool.

(** [QChar::isSpace]: U+0020, U+0009..U+000D, and in Latin-1 U+0085, U+00A0. *)
Definition isSpace (c : QChar) : bool :=
  let u := unicode c in
  (N.eqb u 32 || inRange 9 13 u || N.eqb u 133 || N.eqb u 160)%bool.

(** [QChar::isDigit]: category Nd; in Latin-1 only '0'..'9'. *)
Definition isDigit (c : QChar) : bool := inRange 48 57 (unicode c).

(** [QChar::isLetter]: categories L*; in Latin-1 the ASCII letters, U+00AA,
    U+00B5, U+00BA and U+00C0..U+00FF without the two signs U+00D7, U+00F7. *)
Definition isLetter (c : QChar) : bool :=
  let u := unicode c in
  (inRange 65 90 u || inRange 97 122 u
   || N.eqb u 170 || N.eqb u 181 || N.eqb u 186
   || inRange 192 214 u || inRange 216 246 u || inRange 248 255 u)%bool.

(** [QChar::isLetterOrNumber]: letters and categories N*; Latin-1 adds the
    superscripts U+00B2, U+00B3, U+00B9 and the fractions U+00BC..U+00BE. *)
Definition isLetterOrNumber (c : QChar) : bool :=
  let u := unicode c in
  (isLetter c || isDigit c
   || N.eqb u 178 || N.eqb u 179 || N.eqb u 185 || inRange 188 190 u)%bool.

Fixpoint takeWhile {A} (p : A -> bool) (l : list A) : list A :=
  match l with
  | [] => []
  | x :: l' => if p x then x :: takeWhile p l' else []
  end.

Fixpoint dropWhile {A} (p : A -> bool) (l : list A) : list A :=
  match l with
  | [] => []
  | x :: l' => if p x then dropWhile p l' else l
  end.

(** [QString::trimmed]: whitespace removed from both ends. *)
Definition trimmed (s : list QChar) : list QChar :=
  rev (dropWhile isSpace (rev (dropWhile isSpace s))).

(** [QString::arg(int)]: the decimal text of an integer. *)
Definition arg_int (z : Z) : string := NilZero.string_of_int (Z.to_int z).

Definition digitValue (c : QChar) : Z := Z.of_N (unicode c) - 48.

Definition digitsValue (cs : list QChar) : Z :=
  fold_left (fun acc c => 10 * acc + digitValue c) cs 0.

(** The binary64 nearest to [m / 10^k] (round to nearest, ties to even). *)
Definition decimalToDouble (m : Z) (k : nat) : float :=
  match m with
  | Zpos p =>
      SF2Prim (SFdiv prec emax (S754_finite false p 0)
                 (S754_finite false (Pos.pow 10 (Pos.of_nat k)) 0))
  | _ => 0%float
  end.

(** [QString::toDouble] on the lexemes the tokenizer hands to it, which are
    made of ASCII digits and '.' only: the correctly rounded value of
    [digits], [digits.], [.digits] or [digits.digits], and 0.0 when the
    conversion fails (a lone '.', more than one '.'). *)
Definition toDouble (s : string) : float :=
  let cs := list_ascii_of_string s in
  let ip := takeWhile isDigit cs in
  match dropWhile isDigit cs with
  | [] =>
      match ip with
      | [] => 0%float
      | _ => SF2Prim (binary_normalize prec emax (digitsValue ip) 0 false)
      end
  | c :: fp =>
      if (Ascii.eqb c "." && forallb isDigit fp
          && negb (Nat.eqb (length ip + length fp) 0))%bool
      then match fp with
           | [] => SF2Prim (binary_normalize prec emax (digitsValue ip) 0 false)
           | _ => decimalToDouble (digitsValue (ip ++ fp)) (length fp)
           end
      else 0%float
  end.

(** ** MathExpressionParser: data (math_expression_parser.hpp) *)

Inductive NodeType := NODE_NUMBER | NODE_VARIABLE | NODE_OPERATOR | NODE_FUNCTION.

Inductive OperatorType :=
  OP_ADD | OP_SUBTRACT | OP_MULTIPLY | OP_DIVIDE | OP_POWER | OP_NEGATE.

Inductive FunctionType :=
  FUNC_ABS | FUNC_SQRT | FUNC_LOG | FUNC_EXP | FUNC_SIN | FUNC_COS | FUNC_TAN.

(** [struct ExpressionNode] with its three [QSharedPointer] children; a
    [NodePtr] may be null. *)
Inductive ExpressionNode : Type :=
  mkNode (type : NodeType) (numberValue : float) (variableName : string)
         (operatorType : OperatorType) (functionType : FunctionType)
         (left right argument : NodePtr)
with NodePtr : Type :=
  | nullptr
  | ptr (node : ExpressionNode).

Definition type (n : ExpressionNode) : NodeType :=
  let 'mkNode t _ _ _ _ _ _ _ := n in t.
Definition numberValue (n : ExpressionNode) : float :=
  let 'mkNode _ v _ _ _ _ _ _ := n in v.
Definition variableName (n : ExpressionNode) : string :=
  let 'mkNode _ _ x _ _ _ _ _ := n in x.
Definition operatorType (n : ExpressionNode) : OperatorType :=
  let 'mkNode _ _ _ o _ _ _ _ := n in o.
Definition functionType (n : ExpressionNode) : FunctionType :=
  let 'mkNode _ _ _ _ f _ _ _ := n in f.
Definition left (n : ExpressionNode) : NodePtr :=
  let 'mkNode _ _ _ _ _ l _ _ := n in l.
Definition right (n : ExpressionNode) : NodePtr :=
  let 'mkNode _ _ _ _ _ _ r _ := n in r.
Definition argument (n : ExpressionNode) : NodePtr :=
  let 'mkNode _ _ _ _ _ _ _ a := n in a.

(** What [NodePtr::create()] builds before the parser assigns fields: the
    node is value-initialised, so the enumerations hold their first
    enumerator, the number is 0.0, the name is empty and the children are
    null. *)
Definition numberNode (v : float) : NodePtr :=
  ptr (mkNode NODE_NUMBER v "" OP_ADD FUNC_ABS nullptr nullptr nullptr).
Definition variableNode (name : string) : NodePtr :=
  ptr (mkNode NODE_VARIABLE 0 name OP_ADD FUNC_ABS nullptr nullptr nullptr).
Definition operatorNode (op : OperatorType) (l r : NodePtr) : NodePtr :=
  ptr (mkNode NODE_OPERATOR 0 "" op FUNC_ABS l r nullptr).
Definition functionNode (f : FunctionType) (arg : NodePtr) : NodePtr :=
  ptr (mkNode NODE_FUNCTION 0 "" OP_ADD f nullptr nullptr arg).

Inductive TokenType :=
  | TOKEN_NUMBER | TOKEN_VARIABLE | TOKEN_OPERATOR | TOKEN_FUNCTION
  | TOKEN_LEFT_PAREN | TOKEN_RIGHT_PAREN | TOKEN_COMMA | TOKEN_END.

Record Token := mkToken {
  tokenType : TokenType;
  value : string;
  tokenNumber : float
}.

Definition TokenType_eqb (a b : TokenType) : bool :=
  match a, b with
  | TOKEN_NUMBER, TOKEN_NUMBER | TOKEN_VARIABLE, TOKEN_VARIABLE
  | TOKEN_OPERATOR, TOKEN_OPERATOR | TOKEN_FUNCTION, TOKEN_FUNCTION
  | TOKEN_LEFT_PAREN, TOKEN_LEFT_PAREN | TOKEN_RIGHT_PAREN, TOKEN_RIGHT_PAREN
  | TOKEN_COMMA, TOKEN_COMMA | TOKEN_END, TOKEN_END => true
  | _, _ => false
  end.

(** The engine's two members. *)
Record MathExpressionParser := mkParser {
  rootNode : NodePtr;
  errorMessage : string
}.

(** ** MathExpressionParser::tokenize *)

Definition isOperator (c : QChar) : bool :=
  (Ascii.eqb c "+" || Ascii.eqb c "-" || Ascii.eqb c "*"
   || Ascii.eqb c "/" || Ascii.eqb c "^")%bool.

(** M_PI and M_E of <cmath>. *)
Definition M_PI : float := 0x1.921fb54442d18p+1%float.
Definition M_E : float := 0x1.5bf0a8b145769p+1%float.

Definition charString (c : QChar) : string := String c EmptyString.

Definition isFunctionName (s : string) : bool :=
  (String.eqb s "abs" || String.eqb s "sqrt" || String.eqb s "log"
   || String.eqb s "exp" || String.eqb s "sin" || String.eqb s "cos"
   || String.eqb s "tan")%bool.

(** The token made from an identifier lexeme. *)
Definition identifierToken (lexeme : string) : Token :=
  if isFunctionName lexeme then mkToken TOKEN_FUNCTION lexeme 0
  else if String.eqb lexeme "pi" then mkToken TOKEN_NUMBER lexeme M_PI
  else if String.eqb lexeme "e" then mkToken TOKEN_NUMBER lexeme M_E
  else mkToken TOKEN_VARIABLE lexeme 0.

Definition endToken : Token := mkToken TOKEN_END "" 0.

Definition invalidCharacter (i : nat) (c : QChar) : string :=
  ("Invalid character at position " ++ arg_int (Z.of_nat i) ++ ": "
   ++ charString c)%string.

(** The scanning loop of [tokenize]. [expr] is what remains of the trimmed
    text from index [i] on and [tokens] the list built so far. When a
    lexeme of several characters starts at [i] the code moves [i] past it
    in an inner loop; here the characters after the first are passed over
    one by one ([skip] counts how many remain). The result is the token
    list and the value of [errorMessage], which is empty unless an invalid
    character was met (then the list is empty). *)
Fixpoint tokenize_loop (expr : list QChar) (i skip : nat) (tokens : list Token)
  : list Token * string :=
  match expr with
  | [] => (tokens ++ [endToken], EmptyString)
  | c :: rest =>
      match skip with
      | S skip' => tokenize_loop rest (S i) skip' tokens
      | O =>
          if isSpace c then tokenize_loop rest (S i) 0%nat tokens
          else if (isDigit c || Ascii.eqb c ".")%bool then
            let lexeme :=
              takeWhile (fun x => (isDigit x || Ascii.eqb x ".")%bool) expr in
            let text := string_of_list_ascii lexeme in
            tokenize_loop rest (S i) (Nat.pred (length lexeme))
              (tokens ++ [mkToken TOKEN_NUMBER text (toDouble text)])
          else if isLetter c then
            let lexeme :=
              takeWhile (fun x => (isLetterOrNumber x || Ascii.eqb x "_")%bool)
                expr in
            tokenize_loop rest (S i) (Nat.pred (length lexeme))
              (tokens ++ [identifierToken (string_of_list_ascii lexeme)])
          else if isOperator c then
            tokenize_loop rest (S i) 0%nat
              (tokens ++ [mkToken TOKEN_OPERATOR (charString c) 0])
          else if Ascii.eqb c "(" then
            tokenize_loop rest (S i) 0%nat
              (tokens ++ [mkToken TOKEN_LEFT_PAREN (charString c) 0])
          else if Ascii.eqb c ")" then
            tokenize_loop rest (S i) 0%nat
              (tokens ++ [mkToken TOKEN_RIGHT_PAREN (charString c) 0])
          else if Ascii.eqb c "," then
            tokenize_loop rest (S i) 0%nat
              (tokens ++ [mkToken TOKEN_COMMA (charString c) 0])
          else ([], invalidCharacter i c)
      end
  end.

Definition tokenize (expression : string) : list Token * string :=
  tokenize_loop (trimmed (list_ascii_of_string expression)) 0 0 [].

(** ** The recursive-descent parser

    The parsing functions take the token list and the position [pos] (an
    [int&] in the code) and return the node with the new position, or
    throw. The recursion is not structural, so each call spends one unit of
    [fuel]; [OutOfFuel] is not a behaviour of the code, and
    [parseExpression_fuel] below shows that [parse] never meets it. *)

Inductive result (A : Type) : Type :=
  | Ok (a : A)
  | Throw (error : string)
  | OutOfFuel.
Arguments Ok {A} a.
Arguments Throw {A} error.
Arguments OutOfFuel {A}.

Definition bind {A B} (r : result A) (k : A -> result B) : result B :=
  match r with
  | Ok a => k a
  | Throw e => Throw e
  | OutOfFuel => OutOfFuel
  end.

Notation "'let*' p ':=' r 'in' k" := (bind r (fun p => k))
  (at level 10, p pattern, r at level 200, k at level 200).

(** [pos < tokens.size() && tokens[pos].type == ty]. *)
Definition tokenTypeAt (tokens : list Token) (pos : nat) (ty : TokenType) : bool :=
  match tokens !! pos with
  | Some t => TokenType_eqb (tokenType t) ty
  | None => false
  end.

(** [pos < tokens.size() && tokens[pos].type == TOKEN_OPERATOR &&
    tokens[pos].value == op]. *)
Definition operatorAt (tokens : list Token) (pos : nat) (op : string) : bool :=
  match tokens !! pos with
  | Some t => (TokenType_eqb (tokenType t) TOKEN_OPERATOR && String.eqb (value t) op)%bool
  | None => false
  end.

Definition functionOfName (funcName : string) : result FunctionType :=
  if String.eqb funcName "abs" then Ok FUNC_ABS
  else if String.eqb funcName "sqrt" then Ok FUNC_SQRT
  else if String.eqb funcName "log" then Ok FUNC_LOG
  else if String.eqb funcName "exp" then Ok FUNC_EXP
  else if String.eqb funcName "sin" then Ok FUNC_SIN
  else if String.eqb funcName "cos" then Ok FUNC_COS
  else if String.eqb funcName "tan" then Ok FUNC_TAN
  else Throw ("Unknown function: " ++ funcName)%string.

Fixpoint parseExpression (fuel : nat) (tokens : list Token) (pos : nat)
  : result (NodePtr * nat) :=
  match fuel with
  | O => OutOfFuel
  | S fuel =>
      let* (left, pos) := parseTerm fuel tokens pos in
      parseExpression_loop fuel tokens left pos
  end

(** The [while] loop of [parseExpression], entered with the node built so
    far. *)
with parseExpression_loop (fuel : nat) (tokens : list Token) (left : NodePtr)
                          (pos : nat) : result (NodePtr * nat) :=
  match fuel with
  | O => OutOfFuel
  | S fuel =>
      if (operatorAt tokens pos "+" || operatorAt tokens pos "-")%bool then
        let op := if operatorAt tokens pos "+" then OP_ADD else OP_SUBTRACT in
        let* (right, pos) := parseTerm fuel tokens (S pos) in
        parseExpression_loop fuel tokens (operatorNode op left right) pos
      else Ok (left, pos)
  end

with parseTerm (fuel : nat) (tokens : list Token) (pos : nat)
  : result (NodePtr * nat) :=
  match fuel with
  | O => OutOfFuel
  | S fuel =>
      let* (left, pos) := parsePower fuel tokens pos in
      parseTerm_loop fuel tokens left pos
  end

(** The [while] loop of [parseTerm]. *)
with parseTerm_loop (fuel : nat) (tokens : list Token) (left : NodePtr)
                    (pos : nat) : result (NodePtr * nat) :=
  match fuel with
  | O => OutOfFuel
  | S fuel =>
      if (operatorAt tokens pos "*" || operatorAt tokens pos "/")%bool then
        let op := if operatorAt tokens pos "*" then OP_MULTIPLY else OP_DIVIDE in
        let* (right, pos) := parsePower fuel tokens (S pos) in
        parseTerm_loop fuel tokens (operatorNode op left right) pos
      else Ok (left, pos)
  end

with parsePower (fuel : nat) (tokens : list Token) (pos : nat)
  : result (NodePtr * nat) :=
  match fuel with
  | O => OutOfFuel
  | S fuel =>
      let* (left, pos) := parseUnary fuel tokens pos in
      if operatorAt tokens pos "^" then
        let* (right, pos) := parsePower fuel tokens (S pos) in
        Ok (operatorNode OP_POWER left right, pos)
      else Ok (left, pos)
  end

with parseUnary (fuel : nat) (tokens : list Token) (pos : nat)
  : result (NodePtr * nat) :=
  match fuel with
  | O => OutOfFuel
  | S fuel =>
      if operatorAt tokens pos "-" then
        let* (operand, pos) := parseUnary fuel tokens (S pos) in
        Ok (operatorNode OP_NEGATE operand nullptr, pos)
      else parsePrimary fuel tokens pos
  end

with parsePrimary (fuel : nat) (tokens : list Token) (pos : nat)
  : result (NodePtr * nat) :=
  match fuel with
  | O => OutOfFuel
  | S fuel =>
      match tokens !! pos with
      | None => Throw "Unexpected end of expression"
      | Some token =>
          match tokenType token with
          | TOKEN_NUMBER => Ok (numberNode (tokenNumber token), S pos)
          | TOKEN_VARIABLE => Ok (variableNode (value token), S pos)
          | TOKEN_FUNCTION =>
              let funcName := value token in
              let pos := S pos in
              if negb (tokenTypeAt tokens pos TOKEN_LEFT_PAREN)
              then Throw "Expected '(' after function name"
              else
                let pos := S pos in
                let* (argument, pos) := parseExpression fuel tokens pos in
                if negb (tokenTypeAt tokens pos TOKEN_RIGHT_PAREN)
                then Throw "Expected ')' after function argument"
                else
                  let pos := S pos in
                  let* f := functionOfName funcName in
                  Ok (functionNode f argument, pos)
          | TOKEN_LEFT_PAREN =>
              let pos := S pos in
              let* (node, pos) := parseExpression fuel tokens pos in
              if negb (tokenTypeAt tokens pos TOKEN_RIGHT_PAREN)
              then Throw "Expected ')'"
              else Ok (node, S pos)
          | _ => Throw ("Unexpected token: " ++ value token)%string
          end
      end
  end.

(** Fuel that suffices for a token list: five levels per token. *)
Definition parseFuel (tokens : list Token) : nat := (5 * length tokens + 5)%nat.

Definition isNull (p : NodePtr) : bool :=
  match p with nullptr => true | ptr _ => false end.

Definition unexpectedToken (pos : nat) (t : Token) : string :=
  ("Unexpected token at position " ++ arg_int (Z.of_nat pos) ++ ": "
   ++ value t)%string.

(** [MathExpressionParser::parse]: the returned [bool] and the engine after
    the call. The members are cleared first, so the engine before the call
    does not matter. The result is [None] only if the fuel ran out. *)
Definition parse (expression : string) (this : MathExpressionParser)
  : option (bool * MathExpressionParser) :=
  let this := mkParser nullptr EmptyString in
  match trimmed (list_ascii_of_string expression) with
  | [] => Some (false, mkParser (rootNode this) "Empty expression")
  | _ =>
      let '(tokens, error) := tokenize expression in
      let this := mkParser (rootNode this) error in
      if negb (String.eqb (errorMessage this) EmptyString) then Some (false, this)
      else
        match parseExpression (parseFuel tokens) tokens 0 with
        | Ok (node, pos) =>
            (* rootNode = parseExpression(tokens, pos); *)
            let this := mkParser node (errorMessage this) in
            match tokens !! pos with
            | Some t =>
                if negb (TokenType_eqb (tokenType t) TOKEN_END)
                then Some (false, mkParser (rootNode this) (unexpectedToken pos t))
                else Some (negb (isNull (rootNode this)), this)
            | None => Some (negb (isNull (rootNode this)), this)
            end
        | Throw error => Some (false, mkParser (rootNode this) error)
        | OutOfFuel => None
        end
  end.

(** The math library of <cmath> the evaluator calls. *)
Record Libm := mkLibm {
  c_pow : float -> float -> float;
  c_log : float -> float;
  c_exp : float -> float;
  c_sin : float -> float;
  c_cos : float -> float;
  c_tan : float -> float
}.

Section Evaluator.
Context (libm : Libm).

(** [MathExpressionParser::evaluateNode]: [Some v] when the code returns
    true with [result = v], [None] when it returns false ([result] is
    then left as it was). *)
Fixpoint evaluateNode (node : NodePtr) (variables : gmap string float)
  : option float :=
  match node with
  | nullptr => None
  | ptr n =>
      match type n with
      | NODE_NUMBER => Some (numberValue n)
      | NODE_VARIABLE => variables !! variableName n
      | NODE_OPERATOR =>
          match operatorType n with
          | OP_NEGATE =>
              match evaluateNode (left n) variables with
              | None => None
              | Some leftVal => Some (- leftVal)%float
              end
          | op =>
              match evaluateNode (left n) variables with
              | None => None
              | Some leftVal =>
                  match evaluateNode (right n) variables with
                  | None => None
                  | Some rightVal =>
                      match op with
                      | OP_ADD => Some (leftVal + rightVal)%float
                      | OP_SUBTRACT => Some (leftVal - rightVal)%float
                      | OP_MULTIPLY => Some (leftVal * rightVal)%float
                      | OP_DIVIDE =>
                          if (rightVal =? 0)%float then None
                          else Some (leftVal / rightVal)%float
                      | OP_POWER => Some (c_pow libm leftVal rightVal)
                      | OP_NEGATE => None
                      end
                  end
              end
          end
      | NODE_FUNCTION =>
          match evaluateNode (argument n) variables with
          | None => None
          | Some argVal =>
              match functionType n with
              | FUNC_ABS => Some (abs argVal)
              | FUNC_SQRT =>
                  if (argVal <? 0)%float then None else Some (sqrt argVal)
              | FUNC_LOG =>
                  if (argVal <=? 0)%float then None else Some (c_log libm argVal)
              | FUNC_EXP => Some (c_exp libm argVal)
              | FUNC_SIN => Some (c_sin libm argVal)
              | FUNC_COS => Some (c_cos libm argVal)
              | FUNC_TAN => Some (c_tan libm argVal)
              end
          end
      end
  end.

(** [MathExpressionParser::evaluate]. *)
Definition evaluate (this : MathExpressionParser)
           (variables : gmap string float) : option float :=
  match rootNode this with
  | nullptr => None
  | root => evaluateNode root variables
  end.

(** [evaluate] with its out-parameter spelled out: the returned [bool]
    and the contents of [result] after the call. *)
Definition evaluate_into (this : MathExpressionParser)
           (variables : gmap string float) (result : float) : bool * float :=
  match evaluate this variables with
  | Some v => (true, v)
  | None => (false, result)
  end.
End Evaluator.

(** [QStringList::contains]. *)
Definition contains (l : list string) (s : string) : bool :=
  existsb (String.eqb s) l.

(** [MathExpressionParser::collectVariables]; the list is threaded through
    the three recursive calls. *)
Fixpoint collectVariables (node : NodePtr) (variables : list string) : list string :=
  match node with
  | nullptr => variables
  | ptr n =>
      let variables :=
        match type n with
        | NODE_VARIABLE =>
            if negb (contains variables (variableName n))
            then variables ++ [variableName n] else variables
        | _ => variables
        end in
      let variables := collectVariables (left n) variables in
      let variables := collectVariables (right n) variables in
      collectVariables (argument n) variables
  end.

Definition getVariables (this : MathExpressionParser) : list string :=
  match rootNode this with
  | nullptr => []
  | root => collectVariables root []
  end.

(** ** The series store used by the computer

    Class [DataSeries] (data_series.hpp) is an external collaborator of
    the two components; its operations are modelled from their contract. *)

(** Modelled from the spec: the [TimeSeries] capability of section 6
    ("ordered timestamp/value pairs"); the class [DataSeries] itself is
    not among the sources. A series is its samples in index order. *)
Record DataSeries := mkSeries { samples : list (float * float) }.

(** Modelled from the spec: [size() -> integer]. *)
Definition size (s : DataSeries) : nat := length (samples s).

(** Modelled from the spec: [timestamp_at(index) -> timestamp]; the code
    only calls [getTimestamp] with an index below [size()]. *)
Definition getTimestamp (s : DataSeries) (index : nat) : float :=
  match samples s !! index with
  | Some p => p.1
  | None => 0%float
  end.

Fixpoint firstIndexFrom (t : float) (l : list (float * float)) (index : nat) : nat :=
  match l with
  | [] => index
  | p :: l' => if (t <=? p.1)%float then index else firstIndexFrom t l' (S index)
  end.

(** Modelled from the spec: [index_for_timestamp(t) -> index],
    "insertion-point semantics: returns first index with
    [timestamp_at(index) >= t]; equal to [size()] if [t] exceeds all
    entries, [0] if before all entries". *)
Definition getIndexForTimestamp (s : DataSeries) (t : float) : nat :=
  firstIndexFrom t (samples s) 0.

(** Modelled from the spec: [value_at(t, mode=INTERPOLATE) -> f64], "linear
    interpolation between bracketing samples; boundary behavior outside
    this core's concern". Outside the samples this model answers with the
    boundary sample's value. The computer is stated over an arbitrary
    [getValueAtTime]; this one serves the concrete runs. *)
Definition linearInterpolation (s : DataSeries) (t : float) : float :=
  let idx := getIndexForTimestamp s t in
  match samples s !! idx, samples s !! Nat.pred idx with
  | Some (t1, v1), Some (t0, v0) =>
      if (idx =? 0)%nat then v1
      else (v0 + (v1 - v0) * ((t - t0) / (t1 - t0)))%float
  | None, Some (_, v0) => v0
  | _, _ => nan
  end.

(** Modelled from the spec: the output series, written through [append],
    [clear] and [finalize] ([addData], [clearData], [update] in the code).
    [updates] counts the calls of [update]. *)
Record OutputSeries := mkOutput {
  points : list (float * float);
  updates : nat
}.

Definition clearData (o : OutputSeries) : OutputSeries :=
  mkOutput [] (updates o).
Definition addData (o : OutputSeries) (timestamp v : float) : OutputSeries :=
  mkOutput (points o ++ [(timestamp, v)]) (updates o).
Definition update (o : OutputSeries) : OutputSeries :=
  mkOutput (points o) (S (updates o)).

(** ** MathTraceComputer (math_trace_computer.cpp) *)

(** [QMap<QString, DataSeriesPointer>]: the entries in ascending key
    order. *)
Definition SeriesMap := list (string * DataSeries).

Fixpoint lookupSeries (m : SeriesMap) (var : string) : option DataSeries :=
  match m with
  | [] => None
  | (k, s) :: m' => if String.eqb k var then Some s else lookupSeries m' var
  end.

(** [QMap::contains]. *)
Definition mapContains (m : SeriesMap) (var : string) : bool :=
  match lookupSeries m var with Some _ => true | None => false end.

(** [QMap::operator[]], which the code applies only to keys it has checked
    with [contains]. *)
Definition seriesOf (m : SeriesMap) (var : string) : DataSeries :=
  match lookupSeries m var with Some s => s | None => mkSeries [] end.

(** The members set by [compute]. The flag [cancelRequested] is written by
    the controller while the worker runs, so it is not a field here: a run
    takes the values its reads of the flag return. *)
Record MathTraceComputer := mkComputer {
  currentExpression : string;
  currentVariableMapping : SeriesMap;
  currentOutputSeries : OutputSeries;
  currentMaxGapSize : float
}.

(** [MathTraceComputer::compute]; the default [maxGapSize] is 1000.0. *)
Definition compute (expression : string) (variableMapping : SeriesMap)
           (outputSeries : OutputSeries) (maxGapSize : float) : MathTraceComputer :=
  mkComputer expression variableMapping outputSeries maxGapSize.

(** The Qt signals of the class. *)
Inductive Signal :=
  | computationStarted
  | progressUpdated (progress : Z)
  | computationComplete
  | computationFailed (error : string).

(** [std::set<double>::insert]: the set is its elements in ascending
    order; an element equivalent to [x] under [<] keeps its place and [x]
    is dropped. *)
Fixpoint set_insert (x : float) (s : list float) : list float :=
  match s with
  | [] => [x]
  | y :: s' =>
      if (x <? y)%float then x :: y :: s'
      else if (y <? x)%float then y :: set_insert x s'
      else y :: s'
  end.

(** [MathTraceComputer::collectTimestamps]. *)
Definition collectTimestamps (series : SeriesMap) : list float :=
  fold_left
    (fun timestampSet it =>
       fold_left (fun timestampSet p => set_insert p.1 timestampSet)
                 (samples it.2) timestampSet)
    series [].

(** One turn of the loop of [isTimestampValid]: [false] where the code
    returns false, [true] where it goes on to the next series. *)
Definition gapCheck (timestamp : float) (s : DataSeries) (maxGapSize : float) : bool :=
  let idx := getIndexForTimestamp s timestamp in
  if ((idx =? 0)%nat || (size s <=? idx)%nat)%bool then
    if ((idx =? 0)%nat && (0 <? size s)%nat)%bool then
      let nearestTime := getTimestamp s 0 in
      negb (maxGapSize <? abs (timestamp - nearestTime))%float
    else if ((size s <=? idx)%nat && (0 <? size s)%nat)%bool then
      let nearestTime := getTimestamp s (size s - 1) in
      negb (maxGapSize <? abs (timestamp - nearestTime))%float
    else true
  else
    let timeBefore := getTimestamp s (idx - 1) in
    let timeAfter := getTimestamp s idx in
    let gapSize := (timeAfter - timeBefore)%float in
    negb (maxGapSize <? gapSize)%float.

(** [MathTraceComputer::isTimestampValid]. *)
Definition isTimestampValid (timestamp : float) (series : SeriesMap)
           (maxGapSize : float) : bool :=
  forallb (fun it => gapCheck timestamp it.2 maxGapSize) series.

(** 32-bit [int]: the value an out-of-range result wraps to. *)
Definition wrap32 (z : Z) : Z := (z + 2147483648) mod 4294967296 - 2147483648.
Definition int_mul (a b : Z) : Z := wrap32 (a * b).

Definition cancelledMessage : string := "Computation cancelled".

Definition noResultsMessage (skippedPoints : Z) : string :=
  ("Expression produced no valid results (" ++ arg_int skippedPoints
   ++ " points skipped) - check for division by zero or invalid operations")%string.

(** The locals of [startComputation] that live across the loop, with the
    output series. *)
Record Locals := mkLocals {
  outputSeries : OutputSeries;
  lastProgress : Z;
  validPoints : Z;
  skippedPoints : Z
}.

(** What a run leaves behind: the signals in emission order, the output
    series, the two counters, and whether the loop was left through the
    cancellation check. *)
Record Run := mkRun {
  signals : list Signal;
  output : OutputSeries;
  valid : Z;
  skipped : Z;
  cancelled : bool
}.

Section Computer.
Context (libm : Libm).
(** [DataSeries::getValueAtTime(timestamp, DataSeries::INTERPOLATE)]. *)
Context (getValueAtTime : DataSeries -> float -> float).
(** [cancelRequested i] is what the read of the flag at the top of
    iteration [i] returns. *)
Context (cancelRequested : nat -> bool).

(** The loop over [requiredVars] that fills [variableValues]; [None]
    when [allValid] ends false. *)
Fixpoint interpolateAll (requiredVars : list string) (mapping : SeriesMap)
         (timestamp : float) (variableValues : gmap string float)
  : option (gmap string float) :=
  match requiredVars with
  | [] => Some variableValues
  | var :: vars =>
      let series := seriesOf mapping var in
      let v := getValueAtTime series timestamp in
      if (is_nan v || is_infinity v)%bool then None
      else interpolateAll vars mapping timestamp (<[var := v]> variableValues)
  end.

(** The value computed for one timestamp: [None] on each path of the
    loop body that ends in [skippedPoints++; continue]. *)
Definition computePoint (parser : MathExpressionParser) (requiredVars : list string)
           (this : MathTraceComputer) (timestamp : float) : option float :=
  if negb (isTimestampValid timestamp (currentVariableMapping this)
             (currentMaxGapSize this))
  then None
  else
    match interpolateAll requiredVars (currentVariableMapping this) timestamp ∅ with
    | None => None
    | Some variableValues =>
        match evaluate libm parser variableValues with
        | None => None
        | Some result =>
            if (is_nan result || is_infinity result)%bool then None
            else Some result
        end
    end.

(** The main loop from iteration [i] on, [timestamps] being the part of
    the union not yet visited and [total] its full size. Returns whether
    the loop was left by cancellation, the locals, and the signals
    emitted. *)
Fixpoint mainLoop (parser : MathExpressionParser) (requiredVars : list string)
         (this : MathTraceComputer) (total : Z)
         (timestamps : list float) (i : nat) (st : Locals)
  : bool * Locals * list Signal :=
  match timestamps with
  | [] => (false, st, [])
  | timestamp :: rest =>
      if cancelRequested i then (true, st, [])
      else
        match computePoint parser requiredVars this timestamp with
        | None =>
            mainLoop parser requiredVars this total rest (S i)
              (mkLocals (outputSeries st) (lastProgress st) (validPoints st)
                 (skippedPoints st + 1))
        | Some result =>
            let out := addData (outputSeries st) timestamp result in
            let validPoints := validPoints st + 1 in
            let progress := Z.quot (int_mul (Z.of_nat i) 100) total in
            if (negb (progress =? lastProgress st) && (Z.rem progress 10 =? 0))%bool
            then
              let '(c, st', sigs) :=
                mainLoop parser requiredVars this total rest (S i)
                  (mkLocals out progress validPoints (skippedPoints st)) in
              (c, st', progressUpdated progress :: sigs)
            else
              mainLoop parser requiredVars this total rest (S i)
                (mkLocals out (lastProgress st) validPoints (skippedPoints st))
        end
  end.

(** The first variable of [requiredVars] that fails [p], as the two
    checking loops of [startComputation] find it. *)
Definition firstFailing (p : string -> bool) (requiredVars : list string)
  : option string :=
  find (fun var => negb (p var)) requiredVars.

(** Everything [startComputation] does before it clears the output: the
    failure message, or the parser, the required variables and the
    timestamp union. The outer [option] is [None] only if the parser's
    fuel ran out. *)
Definition prepare (this : MathTraceComputer)
  : option (string + MathExpressionParser * list string * list float) :=
  match parse (currentExpression this) (mkParser nullptr EmptyString) with
  | None => None
  | Some (false, parser) =>
      Some (inl ("Failed to parse expression: " ++ errorMessage parser)%string)
  | Some (true, parser) =>
      let requiredVars := getVariables parser in
      match firstFailing (mapContains (currentVariableMapping this)) requiredVars with
      | Some var =>
          Some (inl ("Variable '" ++ var ++ "' not found in mapping")%string)
      | None =>
          match firstFailing
                  (fun var => negb (size (seriesOf (currentVariableMapping this) var) =? 0)%nat)
                  requiredVars with
          | Some var =>
              Some (inl ("Input series for variable '" ++ var ++ "' is empty")%string)
          | None =>
              let timestamps := collectTimestamps (currentVariableMapping this) in
              match timestamps with
              | [] => Some (inl "No timestamps found in input series"%string)
              | _ => Some (inr (parser, requiredVars, timestamps))
              end
          end
      end
  end.

(** [MathTraceComputer::startComputation]. *)
Definition startComputation (this : MathTraceComputer) : option Run :=
  match prepare this with
  | None => None
  | Some (inl error) =>
      Some (mkRun [computationStarted; computationFailed error]
              (currentOutputSeries this) 0 0 false)
  | Some (inr (parser, requiredVars, timestamps)) =>
      let out := clearData (currentOutputSeries this) in
      let '(c, st, sigs) :=
        mainLoop parser requiredVars this (Z.of_nat (length timestamps))
          timestamps 0 (mkLocals out (-1) 0 0) in
      if c then
        Some (mkRun (computationStarted :: sigs ++ [computationFailed cancelledMessage])
                (outputSeries st) (validPoints st) (skippedPoints st) true)
      else
        let out := update (outputSeries st) in
        if validPoints st =? 0 then
          Some (mkRun
                  (computationStarted :: sigs
                   ++ [computationFailed (noResultsMessage (skippedPoints st))])
                  out (validPoints st) (skippedPoints st) false)
        else
          Some (mkRun
                  (computationStarted :: sigs
                   ++ [progressUpdated 100; computationComplete])
                  out (validPoints st) (skippedPoints st) false)
  end.
End Computer.

(* ===================================================================== *)
(** * Part II. Properties                                                 *)
(* ===================================================================== *)

(** ** The order of binary64 values

    [<], [<=] and [==] on [double] are specified by [SFcompare] on the
    decoded value. Away from NaN it is the lexicographic order of three
    integers (the class, the exponent and the mantissa, the last two
    negated for negative values), so goals about comparisons reduce to
    linear arithmetic. *)

Definition rank (f : spec_float) : Z * Z * Z :=
  match f with
  | S754_nan => (0, 0, 0)
  | S754_zero _ => (0, 0, 0)
  | S754_infinity true => (-2, 0, 0)
  | S754_infinity false => (2, 0, 0)
  | S754_finite false m e => (1, e, Zpos m)
  | S754_finite true m e => (-1, - e, Zneg m)
  end.

Definition lex (a b : Z * Z * Z) : comparison :=
  let '(a1, a2, a3) := a in
  let '(b1, b2, b3) := b in
  match a1 ?= b1 with
  | Eq => match a2 ?= b2 with Eq => a3 ?= b3 | c => c end
  | c => c
  end.

Definition nanFlag (x : float) : Z :=
  match Prim2SF x with S754_nan => 1 | _ => 0 end.

(** A value that is not NaN. *)
Definition ordered (x : float) : Prop := nanFlag x = 0.

Definition k1 (x : float) : Z := (rank (Prim2SF x)).1.1.
Definition k2 (x : float) : Z := (rank (Prim2SF x)).1.2.
Definition k3 (x : float) : Z := (rank (Prim2SF x)).2.

Definition LT (x y : float) : Prop :=
  k1 x < k1 y \/ (k1 x = k1 y /\ (k2 x < k2 y \/ (k2 x = k2 y /\ k3 x < k3 y))).
Definition EQ (x y : float) : Prop :=
  k1 x = k1 y /\ k2 x = k2 y /\ k3 x = k3 y.

Lemma SFcompare_rank (a b : spec_float) :
  a <> S754_nan -> b <> S754_nan ->
  SFcompare a b = Some (lex (rank a) (rank b)).
Proof.
  intros Ha Hb.
  destruct a as [[]|[]| |[] ma ea], b as [[]|[]| |[] mb eb];
    simpl; try congruence; try reflexivity.
  rewrite Z.compare_opp, (Z.compare_antisym ea eb).
  destruct (ea ?= eb); reflexivity.
Qed.

Lemma SFcompare_nan_l (b : spec_float) : SFcompare S754_nan b = None.
Proof. reflexivity. Qed.

Lemma SFcompare_nan_r (a : spec_float) : SFcompare a S754_nan = None.
Proof. destruct a as [[]|[]| |[] ? ?]; reflexivity. Qed.

Lemma lex_spec (a b : Z * Z * Z) :
  match lex a b with
  | Lt => a.1.1 < b.1.1 \/ (a.1.1 = b.1.1 /\ (a.1.2 < b.1.2 \/ (a.1.2 = b.1.2 /\ a.2 < b.2)))
  | Eq => a.1.1 = b.1.1 /\ a.1.2 = b.1.2 /\ a.2 = b.2
  | Gt => b.1.1 < a.1.1 \/ (a.1.1 = b.1.1 /\ (b.1.2 < a.1.2 \/ (a.1.2 = b.1.2 /\ b.2 < a.2)))
  end.
Proof.
  destruct a as [[a1 a2] a3], b as [[b1 b2] b3]; simpl.
  destruct (Z.compare_spec a1 b1); [|lia|lia].
  destruct (Z.compare_spec a2 b2); [|lia|lia].
  destruct (Z.compare_spec a3 b3); lia.
Qed.

Lemma spec_float_eq_dec_nan (a : spec_float) : {a = S754_nan} + {a <> S754_nan}.
Proof. destruct a; (left; reflexivity) || (right; discriminate). Qed.

Lemma compare_cases (x y : float) :
  (ordered x /\ ordered y /\
   match SFcompare (Prim2SF x) (Prim2SF y) with
   | Some Lt => LT x y
   | Some Eq => EQ x y
   | Some Gt => LT y x
   | None => False
   end)
  \/ ((~ ordered x \/ ~ ordered y) /\ SFcompare (Prim2SF x) (Prim2SF y) = None).
Proof.
  unfold ordered, nanFlag, LT, EQ, k1, k2, k3.
  destruct (spec_float_eq_dec_nan (Prim2SF x)) as [Hx|Hx].
  { right. rewrite Hx. split; [left; lia | reflexivity]. }
  destruct (spec_float_eq_dec_nan (Prim2SF y)) as [Hy|Hy].
  { right. rewrite Hy, SFcompare_nan_r. split; [right; lia | reflexivity]. }
  left. rewrite SFcompare_rank by assumption.
  pose proof (lex_spec (rank (Prim2SF x)) (rank (Prim2SF y))) as H.
  split; [destruct (Prim2SF x); congruence|].
  split; [destruct (Prim2SF y); congruence|].
  destruct (lex _ _); lia.
Qed.

Lemma ltb_true (x y : float) :
  (x <? y)%float = true <-> ordered x /\ ordered y /\ LT x y.
Proof.
  rewrite FloatAxioms.ltb_spec. unfold SFltb.
  destruct (compare_cases x y) as [(Hx & Hy & H)|[H ->]]; [|split; [discriminate|tauto]].
  destruct (SFcompare _ _) as [[]|]; try tauto;
    (split; [discriminate|]); unfold LT, EQ in *; lia.
Qed.

Lemma leb_true (x y : float) :
  (x <=? y)%float = true <-> ordered x /\ ordered y /\ (LT x y \/ EQ x y).
Proof.
  rewrite FloatAxioms.leb_spec. unfold SFleb.
  destruct (compare_cases x y) as [(Hx & Hy & H)|[H ->]]; [|split; [discriminate|tauto]].
  destruct (SFcompare _ _) as [[]|]; try tauto;
    (split; [discriminate|]); unfold LT, EQ in *; lia.
Qed.

Lemma eqb_true (x y : float) :
  (x =? y)%float = true <-> ordered x /\ ordered y /\ EQ x y.
Proof.
  rewrite FloatAxioms.eqb_spec. unfold SFeqb.
  destruct (compare_cases x y) as [(Hx & Hy & H)|[H ->]]; [|split; [discriminate|tauto]].
  destruct (SFcompare _ _) as [[]|]; try tauto;
    (split; [discriminate|]); unfold LT, EQ in *; lia.
Qed.

Lemma ltb_false (x y : float) :
  (x <? y)%float = false <-> ~ (ordered x /\ ordered y /\ LT x y).
Proof. rewrite <- ltb_true. destruct (x <? y)%float; split; congruence. Qed.

Lemma leb_false (x y : float) :
  (x <=? y)%float = false <-> ~ (ordered x /\ ordered y /\ (LT x y \/ EQ x y)).
Proof. rewrite <- leb_true. destruct (x <=? y)%float; split; congruence. Qed.

Lemma eqb_false (x y : float) :
  (x =? y)%float = false <-> ~ (ordered x /\ ordered y /\ EQ x y).
Proof. rewrite <- eqb_true. destruct (x =? y)%float; split; congruence. Qed.

Lemma is_nan_false (x : float) : is_nan x = false <-> ordered x.
Proof.
  unfold is_nan. rewrite negb_false_iff, eqb_true. unfold EQ. tauto.
Qed.

Lemma is_nan_true (x : float) : is_nan x = true <-> ~ ordered x.
Proof.
  rewrite <- is_nan_false. destruct (is_nan x); split; congruence.
Qed.

(** Comparisons in the context and the goal become statements about the
    three integer keys, which [lia] decides. *)
Ltac float_order :=
  repeat match goal with
    | H : (_ <? _)%float = true |- _ => apply ltb_true in H
    | H : (_ <? _)%float = false |- _ => apply ltb_false in H
    | H : (_ <=? _)%float = true |- _ => apply leb_true in H
    | H : (_ <=? _)%float = false |- _ => apply leb_false in H
    | H : (_ =? _)%float = true |- _ => apply eqb_true in H
    | H : (_ =? _)%float = false |- _ => apply eqb_false in H
    | H : is_nan _ = false |- _ => apply is_nan_false in H
    | H : is_nan _ = true |- _ => apply is_nan_true in H
    | |- (_ <? _)%float = true => apply ltb_true
    | |- (_ <? _)%float = false => apply ltb_false
    | |- (_ <=? _)%float = true => apply leb_true
    | |- (_ <=? _)%float = false => apply leb_false
    | |- (_ =? _)%float = true => apply eqb_true
    | |- (_ =? _)%float = false => apply eqb_false
    | |- is_nan _ = false => apply is_nan_false
    | |- is_nan _ = true => apply is_nan_true
    end;
  unfold ordered, LT, EQ in *; lia.

Lemma ltb_trans (x y z : float) :
  (x <? y)%float = true -> (y <? z)%float = true -> (x <? z)%float = true.
Proof. intros. float_order. Qed.

Lemma ltb_irrefl (x : float) : (x <? x)%float = false.
Proof. float_order. Qed.

Lemma ltb_leb_false (x y : float) :
  (x <? y)%float = true -> (y <=? x)%float = false.
Proof. intros. float_order. Qed.

Lemma leb_refl (x : float) : ordered x -> (x <=? x)%float = true.
Proof. intros. float_order. Qed.

Lemma not_ltb_eqb (x y : float) :
  ordered x -> ordered y ->
  (x <? y)%float = false -> (y <? x)%float = false -> (x =? y)%float = true.
Proof. intros. float_order. Qed.

Lemma leb_ltb_trans (x y z : float) :
  (x <=? y)%float = true -> (y <? z)%float = true -> (x <? z)%float = true.
Proof. intros. float_order. Qed.

Lemma negb_ltb_leb (x y : float) :
  ordered x -> ordered y -> negb (y <? x)%float = (x <=? y)%float.
Proof.
  intros Hx Hy. destruct (y <? x)%float eqn:E1, (x <=? y)%float eqn:E2;
    try reflexivity; exfalso; float_order.
Qed.

(** ** The parser: termination and the shape of its trees *)

(** The trees the grammar builds, as a predicate on the node structure:
    a number, a variable, a binary operator with two children, a negation
    with one, a function call with its argument. *)
Inductive wellFormed : NodePtr -> Prop :=
  | wf_number v : wellFormed (numberNode v)
  | wf_variable name : wellFormed (variableNode name)
  | wf_binary op l r :
      op <> OP_NEGATE -> wellFormed l -> wellFormed r ->
      wellFormed (operatorNode op l r)
  | wf_negate operand :
      wellFormed operand -> wellFormed (operatorNode OP_NEGATE operand nullptr)
  | wf_function f arg :
      wellFormed arg -> wellFormed (functionNode f arg).

(** What a parsing function started at [pos] may return: a well-formed
    node and a position not before [pos], or a thrown message; never
    [OutOfFuel]. *)
Definition parsed (pos : nat) (r : result (NodePtr * nat)) : Prop :=
  match r with
  | Ok (node, pos') => (pos <= pos')%nat /\ wellFormed node
  | Throw _ => True
  | OutOfFuel => False
  end.

Lemma parsed_mono (p p' : nat) (r : result (NodePtr * nat)) :
  (p <= p')%nat -> parsed p' r -> parsed p r.
Proof. destruct r as [[node pos1]| |]; simpl; intuition lia. Qed.

Lemma parsed_bind (p p' : nat) (r : result (NodePtr * nat))
      (k : NodePtr * nat -> result (NodePtr * nat)) :
  (p <= p')%nat -> parsed p' r ->
  (forall node pos1, (p' <= pos1)%nat -> wellFormed node -> parsed p (k (node, pos1))) ->
  parsed p (bind r k).
Proof.
  intros Hp Hr Hk. destruct r as [[node pos1]| |]; simpl in *; try tauto.
  apply Hk; tauto.
Qed.

Lemma operatorAt_lt (tokens : list Token) (pos : nat) (op : string) :
  operatorAt tokens pos op = true -> (pos < length tokens)%nat.
Proof.
  unfold operatorAt. destruct (tokens !! pos) eqn:E; [|discriminate].
  intros _. eapply lookup_lt_Some; eauto.
Qed.

Lemma tokenTypeAt_lt (tokens : list Token) (pos : nat) (ty : TokenType) :
  tokenTypeAt tokens pos ty = true -> (pos < length tokens)%nat.
Proof.
  unfold tokenTypeAt. destruct (tokens !! pos) eqn:E; [|discriminate].
  intros _. eapply lookup_lt_Some; eauto.
Qed.

Section ParserFuel.
Variable tokens : list Token.
Let len := length tokens.

(** Fuel needed by each function with [r] tokens left. *)
Definition needPrimary (r : nat) : nat := (5 * r + 1)%nat.
Definition needUnary (r : nat) : nat := (5 * r + 2)%nat.
Definition needPower (r : nat) : nat := (5 * r + 3)%nat.
Definition needTermLoop (r : nat) : nat := (5 * r + 3)%nat.
Definition needTerm (r : nat) : nat := (5 * r + 4)%nat.
Definition needExpressionLoop (r : nat) : nat := (5 * r + 4)%nat.
Definition needExpression (r : nat) : nat := (5 * r + 5)%nat.

Definition fuelInvariant (fuel : nat) : Prop :=
  (forall pos, (needExpression (len - pos) <= fuel)%nat ->
               parsed pos (parseExpression fuel tokens pos))
  /\ (forall left pos, wellFormed left -> (needExpressionLoop (len - pos) <= fuel)%nat ->
               parsed pos (parseExpression_loop fuel tokens left pos))
  /\ (forall pos, (needTerm (len - pos) <= fuel)%nat ->
               parsed pos (parseTerm fuel tokens pos))
  /\ (forall left pos, wellFormed left -> (needTermLoop (len - pos) <= fuel)%nat ->
               parsed pos (parseTerm_loop fuel tokens left pos))
  /\ (forall pos, (needPower (len - pos) <= fuel)%nat ->
               parsed pos (parsePower fuel tokens pos))
  /\ (forall pos, (needUnary (len - pos) <= fuel)%nat ->
               parsed pos (parseUnary fuel tokens pos))
  /\ (forall pos, (needPrimary (len - pos) <= fuel)%nat ->
               parsed pos (parsePrimary fuel tokens pos)).

Lemma fuelInvariant_holds (fuel : nat) : fuelInvariant fuel.
Proof.
  unfold fuelInvariant, needExpression, needExpressionLoop, needTerm,
    needTermLoop, needPower, needUnary, needPrimary.
  induction fuel as [|n (IHe & IHel & IHt & IHtl & IHw & IHu & IHp)].
  { repeat split; intros; lia. }
  repeat split.
  - (* parseExpression *)
    intros pos Hf. cbn [parseExpression].
    apply (parsed_bind pos pos); [lia | apply IHt; lia |].
    intros node pos1 Hle Hwf.
    apply (parsed_mono pos pos1); [lia|]. apply IHel; [assumption | lia].
  - (* its loop *)
    intros left pos Hwf Hf. cbn [parseExpression_loop].
    destruct (operatorAt tokens pos "+" || operatorAt tokens pos "-")%bool eqn:Hop;
      [|simpl; split; [lia | assumption]].
    assert (pos < len)%nat as Hlt.
    { apply orb_true_iff in Hop as [H|H]; eapply operatorAt_lt; eauto. }
    apply (parsed_bind pos (S pos)); [lia | apply IHt; lia |].
    intros node pos1 Hle Hwf1.
    apply (parsed_mono pos pos1); [lia|].
    apply IHel; [|lia]. apply wf_binary; try assumption.
    destruct (operatorAt tokens pos "+"); discriminate.
  - (* parseTerm *)
    intros pos Hf. cbn [parseTerm].
    apply (parsed_bind pos pos); [lia | apply IHw; lia |].
    intros node pos1 Hle Hwf.
    apply (parsed_mono pos pos1); [lia|]. apply IHtl; [assumption | lia].
  - (* its loop *)
    intros left pos Hwf Hf. cbn [parseTerm_loop].
    destruct (operatorAt tokens pos "*" || operatorAt tokens pos "/")%bool eqn:Hop;
      [|simpl; split; [lia | assumption]].
    assert (pos < len)%nat as Hlt.
    { apply orb_true_iff in Hop as [H|H]; eapply operatorAt_lt; eauto. }
    apply (parsed_bind pos (S pos)); [lia | apply IHw; lia |].
    intros node pos1 Hle Hwf1.
    apply (parsed_mono pos pos1); [lia|].
    apply IHtl; [|lia]. apply wf_binary; try assumption.
    destruct (operatorAt tokens pos "*"); discriminate.
  - (* parsePower *)
    intros pos Hf. cbn [parsePower].
    apply (parsed_bind pos pos); [lia | apply IHu; lia |].
    intros node pos1 Hle Hwf.
    destruct (operatorAt tokens pos1 "^") eqn:Hop; [|simpl; split; [lia | assumption]].
    apply operatorAt_lt in Hop.
    apply (parsed_bind pos (S pos1)); [lia | apply IHw; fold len; lia |].
    intros right pos2 Hle2 Hwf2. simpl. split; [lia|].
    apply wf_binary; [discriminate | assumption | assumption].
  - (* parseUnary *)
    intros pos Hf. cbn [parseUnary].
    destruct (operatorAt tokens pos "-") eqn:Hop; [|apply IHp; lia].
    apply operatorAt_lt in Hop.
    apply (parsed_bind pos (S pos)); [lia | apply IHu; fold len; lia |].
    intros operand pos1 Hle Hwf. simpl. split; [lia|].
    apply wf_negate; assumption.
  - (* parsePrimary *)
    intros pos Hf. cbn [parsePrimary].
    destruct (tokens !! pos) as [token|] eqn:Htok; [|exact I].
    apply lookup_lt_Some in Htok. fold len in Htok.
    destruct (tokenType token); try exact I.
    + simpl. split; [lia | constructor].
    + simpl. split; [lia | constructor].
    + cbv zeta.
      destruct (tokenTypeAt tokens (S pos) TOKEN_LEFT_PAREN) eqn:Hlp; [|exact I].
      apply tokenTypeAt_lt in Hlp. fold len in Hlp. cbn [negb].
      apply (parsed_bind pos (S (S pos))); [lia | apply IHe; lia |].
      intros arg pos1 Hle Hwf.
      destruct (tokenTypeAt tokens pos1 TOKEN_RIGHT_PAREN); [|exact I].
      cbn [negb]. unfold functionOfName.
      repeat (destruct (String.eqb _ _);
              [simpl; split; [lia | apply wf_function; assumption]|]).
      exact I.
    + cbv zeta.
      apply (parsed_bind pos (S pos)); [lia | apply IHe; lia |].
      intros node pos1 Hle Hwf.
      destruct (tokenTypeAt tokens pos1 TOKEN_RIGHT_PAREN); [|exact I].
      simpl. split; [lia | assumption].
Qed.

(** With [parseFuel], [parseExpression] from the first token returns a
    well-formed tree or throws. *)
Lemma parseExpression_fuel :
  parsed 0 (parseExpression (parseFuel tokens) tokens 0).
Proof.
  apply (fuelInvariant_holds (parseFuel tokens)).
  unfold needExpression, parseFuel. fold len. lia.
Qed.
End ParserFuel.

(** A fresh engine, as the constructor leaves it. *)
Definition freshParser : MathExpressionParser := mkParser nullptr EmptyString.

(** [parse] always returns. *)
Lemma parse_total (expression : string) (this : MathExpressionParser) :
  exists ok this', parse expression this = Some (ok, this').
Proof.
  unfold parse.
  destruct (trimmed _); [eauto|].
  destruct (tokenize expression) as [tokens error]. cbn [errorMessage rootNode].
  destruct (negb (String.eqb error EmptyString)); [eauto|].
  pose proof (parseExpression_fuel tokens) as H.
  destruct (parseExpression _ _ _) as [[node pos]| |]; [|eauto|destruct H].
  destruct (tokens !! pos) as [t|]; [|eauto].
  destruct (negb (TokenType_eqb (tokenType t) TOKEN_END)); eauto.
Qed.

(** A successful [parse] leaves a well-formed tree and no error message;
    the engine it was called on does not matter. *)
Lemma parse_success (expression : string) (this this' : MathExpressionParser) :
  parse expression this = Some (true, this') ->
  wellFormed (rootNode this') /\ errorMessage this' = EmptyString.
Proof.
  unfold parse.
  destruct (trimmed _); [discriminate|].
  destruct (tokenize expression) as [tokens error]. cbn [errorMessage rootNode].
  destruct (String.eqb error EmptyString) eqn:Herr; [|discriminate].
  apply String.eqb_eq in Herr. subst error. cbn [negb].
  pose proof (parseExpression_fuel tokens) as H.
  destruct (parseExpression _ _ _) as [[node pos]| |]; [|discriminate|discriminate].
  destruct H as [_ Hwf].
  destruct (tokens !! pos) as [t|].
  - destruct (negb (TokenType_eqb (tokenType t) TOKEN_END)); [discriminate|].
    intros [= _ <-]. auto.
  - intros [= _ <-]. auto.
Qed.

(** When [parse] fails, the tree is null on every path but one: the check
    for leftover tokens, which runs after [rootNode] has been assigned. *)
Lemma parse_failure_root (expression : string) (this this' : MathExpressionParser) :
  parse expression this = Some (false, this') ->
  rootNode this' = nullptr
  \/ exists pos t, errorMessage this' = unexpectedToken pos t /\ wellFormed (rootNode this').
Proof.
  unfold parse.
  destruct (trimmed _); [intros [= <-]; auto|].
  destruct (tokenize expression) as [tokens error]. cbn [errorMessage rootNode].
  destruct (negb (String.eqb error EmptyString)); [intros [= <-]; auto|].
  pose proof (parseExpression_fuel tokens) as H.
  destruct (parseExpression _ _ _) as [[node pos]| |];
    [|intros [= <-]; auto|discriminate].
  destruct H as [_ Hwf].
  destruct (tokens !! pos) as [t|].
  - destruct (negb (TokenType_eqb (tokenType t) TOKEN_END)).
    + intros [= <-]. right. exists pos, t. auto.
    + intros [= Hnull <-]. inversion Hwf; subst; discriminate.
  - intros [= Hnull <-]. inversion Hwf; subst; discriminate.
Qed.

(** ** The evaluator on well-formed trees *)

(** [n] occurs in the tree under [p]. *)
Inductive subnode (n : ExpressionNode) : NodePtr -> Prop :=
  | sub_here : subnode n (ptr n)
  | sub_left m : subnode n (left m) -> subnode n (ptr m)
  | sub_right m : subnode n (right m) -> subnode n (ptr m)
  | sub_argument m : subnode n (argument m) -> subnode n (ptr m).

Definition optionTest (o : option float) (p : float -> bool) : bool :=
  match o with Some v => p v | None => false end.

(** The four ways a node makes [evaluateNode] return false: a variable
    that the mapping lacks, a division whose divisor has the value 0.0, a
    square root of a value below 0, a logarithm of a value not above 0. *)
Definition faults (libm : Libm) (variables : gmap string float)
           (n : ExpressionNode) : bool :=
  match type n with
  | NODE_NUMBER => false
  | NODE_VARIABLE =>
      match variables !! variableName n with None => true | Some _ => false end
  | NODE_OPERATOR =>
      match operatorType n with
      | OP_DIVIDE =>
          optionTest (evaluateNode libm (right n) variables) (fun v => (v =? 0)%float)
      | _ => false
      end
  | NODE_FUNCTION =>
      match functionType n with
      | FUNC_SQRT =>
          optionTest (evaluateNode libm (argument n) variables) (fun v => (v <? 0)%float)
      | FUNC_LOG =>
          optionTest (evaluateNode libm (argument n) variables) (fun v => (v <=? 0)%float)
      | _ => false
      end
  end.

Lemma subnode_null (n : ExpressionNode) : ~ subnode n nullptr.
Proof. inversion 1. Qed.

Lemma subnode_ptr (n m : ExpressionNode) :
  subnode n (ptr m) ->
  n = m \/ subnode n (left m) \/ subnode n (right m) \/ subnode n (argument m).
Proof. inversion 1; subst; auto. Qed.

Section EvaluatorFacts.
Context (libm : Libm) (variables : gmap string float).

Definition hasFault (p : NodePtr) : Prop :=
  exists n, subnode n p /\ faults libm variables n = true.

Lemma evaluateNode_fails (p : NodePtr) :
  wellFormed p ->
  evaluateNode libm p variables = None <-> hasFault p.
Proof.
  unfold hasFault.
  induction 1 as [v|name|op l r Hop Hl IHl Hr IHr|l Hl IHl|f a Ha IHa].
  - (* number *)
    split; [discriminate|].
    intros (n & Hn & Hf). apply subnode_ptr in Hn.
    destruct Hn as [->|[H|[H|H]]]; try (apply subnode_null in H; destruct H).
    discriminate.
  - (* variable *)
    cbn. split.
    + intros H. eexists. split; [apply sub_here|]. cbn. rewrite H. reflexivity.
    + intros (n & Hn & Hf). apply subnode_ptr in Hn.
      destruct Hn as [->|[H|[H|H]]]; try (apply subnode_null in H; destruct H).
      cbn in Hf. destruct (variables !! name); [discriminate|reflexivity].
  - (* binary operator *)
    assert (evaluateNode libm (operatorNode op l r) variables =
            match evaluateNode libm l variables with
            | None => None
            | Some leftVal =>
                match evaluateNode libm r variables with
                | None => None
                | Some rightVal =>
                    match op with
                    | OP_ADD => Some (leftVal + rightVal)%float
                    | OP_SUBTRACT => Some (leftVal - rightVal)%float
                    | OP_MULTIPLY => Some (leftVal * rightVal)%float
                    | OP_DIVIDE =>
                        if (rightVal =? 0)%float then None
                        else Some (leftVal / rightVal)%float
                    | OP_POWER => Some (c_pow libm leftVal rightVal)
                    | OP_NEGATE => None
                    end
                end
            end) as ->.
    { destruct op; try reflexivity. congruence. }
    split.
    + destruct (evaluateNode libm l variables) as [a|] eqn:El.
      2:{ intros _. destruct (proj1 IHl eq_refl) as (n & Hn & Hf).
          exists n. split; [apply sub_left; exact Hn | exact Hf]. }
      destruct (evaluateNode libm r variables) as [b|] eqn:Er.
      2:{ intros _. destruct (proj1 IHr eq_refl) as (n & Hn & Hf).
          exists n. split; [apply sub_right; exact Hn | exact Hf]. }
      destruct op; try discriminate; try congruence.
      destruct (b =? 0)%float eqn:Eb; [|discriminate].
      intros _. eexists. split; [apply sub_here|].
      cbn -[evaluateNode]. rewrite Er. exact Eb.
    + intros (n & Hn & Hf). apply subnode_ptr in Hn. cbn [left right argument] in Hn.
      destruct Hn as [->|[H|[H|H]]]; try (apply subnode_null in H; destruct H).
      * cbn -[evaluateNode] in Hf.
        destruct op; try discriminate.
        destruct (evaluateNode libm l variables); [|reflexivity].
        destruct (evaluateNode libm r variables) as [b|]; [|reflexivity].
        cbn in Hf. rewrite Hf. reflexivity.
      * rewrite (proj2 IHl); eauto.
      * rewrite (proj2 IHr) by eauto.
        destruct (evaluateNode libm l variables); reflexivity.
  - (* negation *)
    assert (evaluateNode libm (operatorNode OP_NEGATE l nullptr) variables =
            match evaluateNode libm l variables with
            | None => None
            | Some leftVal => Some (- leftVal)%float
            end) as -> by reflexivity.
    split.
    + destruct (evaluateNode libm l variables) eqn:El; [discriminate|].
      intros _. destruct (proj1 IHl eq_refl) as (n & Hn & Hf).
      exists n. split; [apply sub_left; exact Hn | exact Hf].
    + intros (n & Hn & Hf). apply subnode_ptr in Hn. cbn [left right argument] in Hn.
      destruct Hn as [->|[H|[H|H]]]; try (apply subnode_null in H; destruct H).
      * discriminate.
      * rewrite (proj2 IHl); eauto.
  - (* function call *)
    assert (evaluateNode libm (functionNode f a) variables =
            match evaluateNode libm a variables with
            | None => None
            | Some argVal =>
                match f with
                | FUNC_ABS => Some (abs argVal)
                | FUNC_SQRT =>
                    if (argVal <? 0)%float then None else Some (sqrt argVal)
                | FUNC_LOG =>
                    if (argVal <=? 0)%float then None else Some (c_log libm argVal)
                | FUNC_EXP => Some (c_exp libm argVal)
                | FUNC_SIN => Some (c_sin libm argVal)
                | FUNC_COS => Some (c_cos libm argVal)
                | FUNC_TAN => Some (c_tan libm argVal)
                end
            end) as -> by reflexivity.
    split.
    + destruct (evaluateNode libm a variables) as [v|] eqn:Ea.
      2:{ intros _. destruct (proj1 IHa eq_refl) as (n & Hn & Hf).
          exists n. split; [apply sub_argument; exact Hn | exact Hf]. }
      destruct f; try discriminate.
      * destruct (v <? 0)%float eqn:Ev; [|discriminate].
        intros _. eexists. split; [apply sub_here|].
        cbn -[evaluateNode]. rewrite Ea. exact Ev.
      * destruct (v <=? 0)%float eqn:Ev; [|discriminate].
        intros _. eexists. split; [apply sub_here|].
        cbn -[evaluateNode]. rewrite Ea. exact Ev.
    + intros (n & Hn & Hf). apply subnode_ptr in Hn. cbn [left right argument] in Hn.
      destruct Hn as [->|[H|[H|H]]]; try (apply subnode_null in H; destruct H).
      * cbn -[evaluateNode] in Hf.
        destruct (evaluateNode libm a variables) as [v|]; [|reflexivity].
        destruct f; try discriminate; cbn in Hf; rewrite Hf; reflexivity.
      * rewrite (proj2 IHa); eauto.
Qed.
End EvaluatorFacts.

(** ** Concrete instances for the checks below *)

Fixpoint powNat (base : float) (n : nat) : float :=
  match n with
  | O => 1%float
  | S n' => (base * powNat base n')%float
  end.

Fixpoint naturalExponent (e candidate : float) (n fuel : nat) : option nat :=
  match fuel with
  | O => None
  | S fuel' =>
      if (e =? candidate)%float then Some n
      else naturalExponent e (candidate + 1)%float (S n) fuel'
  end.

(** [pow] on exponents 0, 1, ..., 63, where the products below are exact
    for the small bases of the examples. *)
Definition examplePow (base e : float) : float :=
  match naturalExponent e 0%float 0 64 with
  | Some n => powNat base n
  | None => nan
  end.

(** A stand-in for <cmath> in the concrete checks: they call [pow] on
    small natural exponents only and none of the other functions. *)
Definition exampleLibm : Libm :=
  mkLibm examplePow (fun _ => nan) (fun _ => nan) (fun _ => nan)
         (fun _ => nan) (fun _ => nan).

(** A series with the given timestamps, each sample's value being its
    timestamp. *)
Definition seriesAt (timestamps : list float) : DataSeries :=
  mkSeries (map (fun t => (t, t)) timestamps).

(** ** The grammar the parser implements *)

(** The token is the operator [op]; the token has type [ty]. *)
Definition isOp (op : string) (t : Token) : bool :=
  (TokenType_eqb (tokenType t) TOKEN_OPERATOR && String.eqb (value t) op)%bool.

Definition hasType (ty : TokenType) (t : Token) : bool :=
  TokenType_eqb (tokenType t) ty.

(** The five-level grammar as the specification gives it,
<<
    expression := term (('+'|'-') term)*
    term       := power (('*'|'/') power)*
    power      := unary ('^' power)?
    unary      := '-' unary | primary
    primary    := number | variable
                | function '(' expression ')' | '(' expression ')'
>>
    as derivations of a tree from a list of tokens. [ExpressionRest left]
    derives the repetition that follows a term, [left] being the tree of
    what precedes: the operators of one level group to the left; [Power]
    groups to the right. *)
Inductive Expression : list Token -> NodePtr -> Prop :=
  | Expression_term ts rest left t :
      Term ts left -> ExpressionRest left rest t -> Expression (ts ++ rest) t
with ExpressionRest : NodePtr -> list Token -> NodePtr -> Prop :=
  | ExpressionRest_end left : ExpressionRest left [] left
  | ExpressionRest_add o ts rest left right t :
      isOp "+" o = true -> Term ts right ->
      ExpressionRest (operatorNode OP_ADD left right) rest t ->
      ExpressionRest left (o :: ts ++ rest) t
  | ExpressionRest_subtract o ts rest left right t :
      isOp "-" o = true -> Term ts right ->
      ExpressionRest (operatorNode OP_SUBTRACT left right) rest t ->
      ExpressionRest left (o :: ts ++ rest) t
with Term : list Token -> NodePtr -> Prop :=
  | Term_power ts rest left t :
      Power ts left -> TermRest left rest t -> Term (ts ++ rest) t
with TermRest : NodePtr -> list Token -> NodePtr -> Prop :=
  | TermRest_end left : TermRest left [] left
  | TermRest_multiply o ts rest left right t :
      isOp "*" o = true -> Power ts right ->
      TermRest (operatorNode OP_MULTIPLY left right) rest t ->
      TermRest left (o :: ts ++ rest) t
  | TermRest_divide o ts rest left right t :
      isOp "/" o = true -> Power ts right ->
      TermRest (operatorNode OP_DIVIDE left right) rest t ->
      TermRest left (o :: ts ++ rest) t
with Power : list Token -> NodePtr -> Prop :=
  | Power_unary ts t : Unary ts t -> Power ts t
  | Power_power ts o ts' left right :
      Unary ts left -> isOp "^" o = true -> Power ts' right ->
      Power (ts ++ o :: ts') (operatorNode OP_POWER left right)
with Unary : list Token -> NodePtr -> Prop :=
  | Unary_negate o ts operand :
      isOp "-" o = true -> Unary ts operand ->
      Unary (o :: ts) (operatorNode OP_NEGATE operand nullptr)
  | Unary_primary ts t : Primary ts t -> Unary ts t
with Primary : list Token -> NodePtr -> Prop :=
  | Primary_number token :
      hasType TOKEN_NUMBER token = true ->
      Primary [token] (numberNode (tokenNumber token))
  | Primary_variable token :
      hasType TOKEN_VARIABLE token = true ->
      Primary [token] (variableNode (value token))
  | Primary_function token lp ts rp f argument :
      hasType TOKEN_FUNCTION token = true -> hasType TOKEN_LEFT_PAREN lp = true ->
      Expression ts argument -> hasType TOKEN_RIGHT_PAREN rp = true ->
      functionOfName (value token) = Ok f ->
      Primary (token :: lp :: ts ++ [rp]) (functionNode f argument)
  | Primary_parenthesis lp ts rp t :
      hasType TOKEN_LEFT_PAREN lp = true -> Expression ts t ->
      hasType TOKEN_RIGHT_PAREN rp = true ->
      Primary (lp :: ts ++ [rp]) t.

Scheme Expression_mut := Minimality for Expression Sort Prop
  with ExpressionRest_mut := Minimality for ExpressionRest Sort Prop
  with Term_mut := Minimality for Term Sort Prop
  with TermRest_mut := Minimality for TermRest Sort Prop
  with Power_mut := Minimality for Power Sort Prop
  with Unary_mut := Minimality for Unary Sort Prop
  with Primary_mut := Minimality for Primary Sort Prop.

Combined Scheme grammar_mutind from Expression_mut, ExpressionRest_mut, Term_mut,
  TermRest_mut, Power_mut, Unary_mut, Primary_mut.

(** What the next token must not be for a derivation to be complete: an
    operator that would continue it. *)
Definition headIs (p : Token -> bool) (rest : list Token) : bool :=
  match rest with
  | t :: _ => p t
  | [] => false
  end.

Definition stopsPower (rest : list Token) : Prop := headIs (isOp "^") rest = false.

Definition stopsTerm (rest : list Token) : Prop :=
  headIs (isOp "*") rest = false /\ headIs (isOp "/") rest = false /\ stopsPower rest.

Definition stopsExpression (rest : list Token) : Prop :=
  headIs (isOp "+") rest = false /\ headIs (isOp "-") rest = false /\ stopsTerm rest.

(** The token list ends, or goes on with the end marker. *)
Definition endsInput (rest : list Token) : Prop :=
  match rest with
  | [] => True
  | t :: _ => hasType TOKEN_END t = true
  end.

Lemma lookup_skipn (tokens : list Token) (pos : nat) :
  tokens !! pos = List.hd_error (skipn pos tokens).
Proof.
  revert tokens. induction pos as [|pos IH]; intros [|t tokens]; try reflexivity.
  apply IH.
Qed.

Lemma operatorAt_skipn (tokens : list Token) (pos : nat) (op : string) :
  operatorAt tokens pos op = headIs (isOp op) (skipn pos tokens).
Proof.
  unfold operatorAt. rewrite lookup_skipn. destruct (skipn pos tokens); reflexivity.
Qed.

Lemma tokenTypeAt_skipn (tokens : list Token) (pos : nat) (ty : TokenType) :
  tokenTypeAt tokens pos ty = headIs (hasType ty) (skipn pos tokens).
Proof.
  unfold tokenTypeAt. rewrite lookup_skipn. destruct (skipn pos tokens); reflexivity.
Qed.

Lemma skipn_tail (tokens : list Token) (pos : nat) (t : Token) (rest : list Token) :
  skipn pos tokens = t :: rest -> skipn (S pos) tokens = rest.
Proof.
  revert tokens. induction pos as [|pos IH]; intros [|t' tokens]; cbn; try discriminate.
  - intros [= _ ->]. reflexivity.
  - intros H. apply (IH tokens). exact H.
Qed.

Lemma skipn_app_tail (tokens : list Token) (pos : nat) (ts rest : list Token) :
  skipn pos tokens = ts ++ rest -> skipn (pos + length ts) tokens = rest.
Proof.
  revert pos. induction ts as [|t ts IH]; intros pos H.
  - rewrite Nat.add_0_r. exact H.
  - cbn [length]. replace (pos + S (length ts))%nat with (S pos + length ts)%nat by lia.
    apply IH. apply (skipn_tail _ _ t). exact H.
Qed.

Lemma headIs_skipn (p : Token -> bool) (tokens : list Token) (pos : nat) :
  headIs p (skipn pos tokens) = true ->
  exists t, skipn pos tokens = t :: skipn (S pos) tokens /\ p t = true.
Proof.
  destruct (skipn pos tokens) as [|t rest] eqn:E; [discriminate|].
  intros H. exists t. rewrite (skipn_tail _ _ _ _ E). auto.
Qed.

Lemma isOp_other (op op' : string) (t : Token) :
  isOp op t = true -> op <> op' -> isOp op' t = false.
Proof.
  unfold isOp. intros H Hne. apply andb_true_iff in H as [-> H].
  apply String.eqb_eq in H. cbn. apply String.eqb_neq. congruence.
Qed.

Lemma hasType_isOp (ty : TokenType) (op : string) (t : Token) :
  hasType ty t = true -> ty <> TOKEN_OPERATOR -> isOp op t = false.
Proof.
  unfold hasType, isOp. destruct (tokenType t), ty; cbn; congruence.
Qed.

Lemma stopsExpression_term (rest : list Token) : stopsExpression rest -> stopsTerm rest.
Proof. unfold stopsExpression. tauto. Qed.

Lemma stopsTerm_power (rest : list Token) : stopsTerm rest -> stopsPower rest.
Proof. unfold stopsTerm. tauto. Qed.

(** What follows a term inside an expression does not continue the term,
    and what follows a power inside a term does not continue the power. *)
Lemma ExpressionRest_stops (left t : NodePtr) (ts rest : list Token) :
  ExpressionRest left ts t -> stopsExpression rest -> stopsTerm (ts ++ rest).
Proof.
  intros H Hrest. destruct H as [left|o ts rest' left right t Ho _ _|o ts rest' left right t Ho _ _].
  - apply stopsExpression_term, Hrest.
  - unfold stopsTerm, stopsPower. cbn.
    rewrite !(isOp_other "+" _ o Ho) by discriminate. auto.
  - unfold stopsTerm, stopsPower. cbn.
    rewrite !(isOp_other "-" _ o Ho) by discriminate. auto.
Qed.

Lemma TermRest_stops (left t : NodePtr) (ts rest : list Token) :
  TermRest left ts t -> stopsTerm rest -> stopsPower (ts ++ rest).
Proof.
  intros H Hrest. destruct H as [left|o ts rest' left right t Ho _ _|o ts rest' left right t Ho _ _].
  - apply stopsTerm_power, Hrest.
  - unfold stopsPower. cbn. apply (isOp_other "*" _ o Ho). discriminate.
  - unfold stopsPower. cbn. apply (isOp_other "/" _ o Ho). discriminate.
Qed.

Lemma Primary_head (ts : list Token) (t : NodePtr) (rest : list Token) (op : string) :
  Primary ts t -> headIs (isOp op) (ts ++ rest) = false.
Proof.
  intros H. destruct H as [token H|token H|token lp ts rp f argument H _ _ _ _|lp ts rp t H _ _];
    cbn; apply (hasType_isOp _ _ _ H); discriminate.
Qed.

(** The answer of a parsing function that has fuel enough. *)
Definition answers (r : result (NodePtr * nat)) (t : NodePtr) (pos : nat) : Prop :=
  r = OutOfFuel \/ r = Ok (t, pos).

Lemma answers_bind (r : result (NodePtr * nat))
      (k : NodePtr * nat -> result (NodePtr * nat)) (t t' : NodePtr) (pos pos' : nat) :
  answers r t pos -> answers (k (t, pos)) t' pos' -> answers (bind r k) t' pos'.
Proof. intros [->| ->] H; [left; reflexivity | exact H]. Qed.

(** Completeness: on a derivation followed by a token that does not
    continue it, each parsing function returns the derived tree and the
    position after the derivation. *)
Lemma grammar_complete :
  (forall ts t, Expression ts t ->
     forall fuel tokens pos rest,
       skipn pos tokens = ts ++ rest -> stopsExpression rest ->
       answers (parseExpression fuel tokens pos) t (pos + length ts))
  /\ (forall left ts t, ExpressionRest left ts t ->
     forall fuel tokens pos rest,
       skipn pos tokens = ts ++ rest -> stopsExpression rest ->
       answers (parseExpression_loop fuel tokens left pos) t (pos + length ts))
  /\ (forall ts t, Term ts t ->
     forall fuel tokens pos rest,
       skipn pos tokens = ts ++ rest -> stopsTerm rest ->
       answers (parseTerm fuel tokens pos) t (pos + length ts))
  /\ (forall left ts t, TermRest left ts t ->
     forall fuel tokens pos rest,
       skipn pos tokens = ts ++ rest -> stopsTerm rest ->
       answers (parseTerm_loop fuel tokens left pos) t (pos + length ts))
  /\ (forall ts t, Power ts t ->
     forall fuel tokens pos rest,
       skipn pos tokens = ts ++ rest -> stopsPower rest ->
       answers (parsePower fuel tokens pos) t (pos + length ts))
  /\ (forall ts t, Unary ts t ->
     forall fuel tokens pos rest,
       skipn pos tokens = ts ++ rest ->
       answers (parseUnary fuel tokens pos) t (pos + length ts))
  /\ (forall ts t, Primary ts t ->
     forall fuel tokens pos rest,
       skipn pos tokens = ts ++ rest ->
       answers (parsePrimary fuel tokens pos) t (pos + length ts)).
Proof.
  apply grammar_mutind.
  - (* expression := term ... *)
    intros ts rest' left t HT IHT HR IHR fuel tokens pos rest Htok Hstop.
    destruct fuel as [|fuel]; [left; reflexivity|]. cbn [parseExpression].
    rewrite <- List.app_assoc in Htok.
    eapply answers_bind.
    + eapply IHT; [exact Htok|]. eapply ExpressionRest_stops; eassumption.
    + cbn beta iota. rewrite length_app, Nat.add_assoc.
      eapply IHR; [|exact Hstop]. apply skipn_app_tail. exact Htok.
  - (* the repetition ends *)
    intros left fuel tokens pos rest Htok (Hplus & Hminus & _).
    destruct fuel as [|fuel]; [left; reflexivity|]. cbn [parseExpression_loop].
    rewrite !operatorAt_skipn, Htok. cbn [app] in *. rewrite Hplus, Hminus.
    right. cbn. rewrite Nat.add_0_r. reflexivity.
  - (* '+' term *)
    intros o ts rest' left right t Ho HT IHT HR IHR fuel tokens pos rest Htok Hstop.
    destruct fuel as [|fuel]; [left; reflexivity|]. cbn [parseExpression_loop].
    cbn [app] in Htok. rewrite !operatorAt_skipn, Htok. cbn [headIs]. rewrite Ho.
    cbn [orb]. apply skipn_tail in Htok. rewrite <- List.app_assoc in Htok.
    eapply answers_bind.
    + eapply IHT; [exact Htok|]. eapply ExpressionRest_stops; eassumption.
    + cbn beta iota. cbn [length]. rewrite length_app.
      replace (pos + S (length ts + length rest'))%nat
        with (S pos + length ts + length rest')%nat by lia.
      eapply IHR; [|exact Hstop]. apply skipn_app_tail. exact Htok.
  - (* '-' term *)
    intros o ts rest' left right t Ho HT IHT HR IHR fuel tokens pos rest Htok Hstop.
    destruct fuel as [|fuel]; [left; reflexivity|]. cbn [parseExpression_loop].
    cbn [app] in Htok. rewrite !operatorAt_skipn, Htok. cbn [headIs].
    rewrite Ho, (isOp_other "-" "+" o Ho) by discriminate.
    cbn [orb]. apply skipn_tail in Htok. rewrite <- List.app_assoc in Htok.
    eapply answers_bind.
    + eapply IHT; [exact Htok|]. eapply ExpressionRest_stops; eassumption.
    + cbn beta iota. cbn [length]. rewrite length_app.
      replace (pos + S (length ts + length rest'))%nat
        with (S pos + length ts + length rest')%nat by lia.
      eapply IHR; [|exact Hstop]. apply skipn_app_tail. exact Htok.
  - (* term := power ... *)
    intros ts rest' left t HP IHP HR IHR fuel tokens pos rest Htok Hstop.
    destruct fuel as [|fuel]; [left; reflexivity|]. cbn [parseTerm].
    rewrite <- List.app_assoc in Htok.
    eapply answers_bind.
    + eapply IHP; [exact Htok|]. eapply TermRest_stops; eassumption.
    + cbn beta iota. rewrite length_app, Nat.add_assoc.
      eapply IHR; [|exact Hstop]. apply skipn_app_tail. exact Htok.
  - intros left fuel tokens pos rest Htok (Htimes & Hdiv & _).
    destruct fuel as [|fuel]; [left; reflexivity|]. cbn [parseTerm_loop].
    rewrite !operatorAt_skipn, Htok. cbn [app] in *. rewrite Htimes, Hdiv.
    right. cbn. rewrite Nat.add_0_r. reflexivity.
  - (* '*' power *)
    intros o ts rest' left right t Ho HP IHP HR IHR fuel tokens pos rest Htok Hstop.
    destruct fuel as [|fuel]; [left; reflexivity|]. cbn [parseTerm_loop].
    cbn [app] in Htok. rewrite !operatorAt_skipn, Htok. cbn [headIs]. rewrite Ho.
    cbn [orb]. apply skipn_tail in Htok. rewrite <- List.app_assoc in Htok.
    eapply answers_bind.
    + eapply IHP; [exact Htok|]. eapply TermRest_stops; eassumption.
    + cbn beta iota. cbn [length]. rewrite length_app.
      replace (pos + S (length ts + length rest'))%nat
        with (S pos + length ts + length rest')%nat by lia.
      eapply IHR; [|exact Hstop]. apply skipn_app_tail. exact Htok.
  - (* '/' power *)
    intros o ts rest' left right t Ho HP IHP HR IHR fuel tokens pos rest Htok Hstop.
    destruct fuel as [|fuel]; [left; reflexivity|]. cbn [parseTerm_loop].
    cbn [app] in Htok. rewrite !operatorAt_skipn, Htok. cbn [headIs].
    rewrite Ho, (isOp_other "/" "*" o Ho) by discriminate.
    cbn [orb]. apply skipn_tail in Htok. rewrite <- List.app_assoc in Htok.
    eapply answers_bind.
    + eapply IHP; [exact Htok|]. eapply TermRest_stops; eassumption.
    + cbn beta iota. cbn [length]. rewrite length_app.
      replace (pos + S (length ts + length rest'))%nat
        with (S pos + length ts + length rest')%nat by lia.
      eapply IHR; [|exact Hstop]. apply skipn_app_tail. exact Htok.
  - (* power := unary *)
    intros ts t HU IHU fuel tokens pos rest Htok Hstop.
    destruct fuel as [|fuel]; [left; reflexivity|]. cbn [parsePower].
    eapply answers_bind; [eapply IHU; exact Htok|].
    cbn beta iota. rewrite operatorAt_skipn, (skipn_app_tail _ _ _ _ Htok), Hstop.
    right. reflexivity.
  - (* power := unary '^' power *)
    intros ts o ts' left right HU IHU Ho HP IHP fuel tokens pos rest Htok Hstop.
    destruct fuel as [|fuel]; [left; reflexivity|]. cbn [parsePower].
    rewrite <- List.app_assoc in Htok.
    eapply answers_bind; [eapply IHU; exact Htok|].
    cbn beta iota. apply skipn_app_tail in Htok. cbn [app] in Htok.
    rewrite operatorAt_skipn, Htok. cbn [headIs]. rewrite Ho.
    apply skipn_tail in Htok.
    eapply answers_bind; [eapply IHP; [exact Htok | exact Hstop]|].
    right. cbn beta iota. rewrite length_app. cbn [length].
    do 2 f_equal. lia.
  - (* unary := '-' unary *)
    intros o ts operand Ho HU IHU fuel tokens pos rest Htok.
    destruct fuel as [|fuel]; [left; reflexivity|]. cbn [parseUnary].
    cbn [app] in Htok. rewrite operatorAt_skipn, Htok. cbn [headIs]. rewrite Ho.
    apply skipn_tail in Htok.
    eapply answers_bind; [eapply IHU; exact Htok|].
    right. cbn beta iota. cbn [length]. do 2 f_equal. lia.
  - (* unary := primary *)
    intros ts t HP IHP fuel tokens pos rest Htok.
    destruct fuel as [|fuel]; [left; reflexivity|]. cbn [parseUnary].
    rewrite operatorAt_skipn, Htok, (Primary_head ts t rest "-" HP).
    eapply IHP. exact Htok.
  - (* number *)
    intros token Hty fuel tokens pos rest Htok.
    destruct fuel as [|fuel]; [left; reflexivity|]. cbn [parsePrimary].
    rewrite lookup_skipn, Htok. cbn [app hd_error].
    unfold hasType in Hty. destruct (tokenType token); try discriminate.
    right. cbn [length]. do 2 f_equal. lia.
  - (* variable *)
    intros token Hty fuel tokens pos rest Htok.
    destruct fuel as [|fuel]; [left; reflexivity|]. cbn [parsePrimary].
    rewrite lookup_skipn, Htok. cbn [app hd_error].
    unfold hasType in Hty. destruct (tokenType token); try discriminate.
    right. cbn [length]. do 2 f_equal. lia.
  - (* function '(' expression ')' *)
    intros token lp ts rp f argument Hty Hlp HE IHE Hrp Hf fuel tokens pos rest Htok.
    destruct fuel as [|fuel]; [left; reflexivity|]. cbn [parsePrimary].
    cbn [app] in Htok. rewrite lookup_skipn, Htok. cbn [hd_error].
    unfold hasType in Hty. destruct (tokenType token); try discriminate. cbv zeta.
    apply skipn_tail in Htok.
    rewrite tokenTypeAt_skipn, Htok. cbn [headIs]. rewrite Hlp. cbn [negb].
    apply skipn_tail in Htok. rewrite <- List.app_assoc in Htok.
    eapply answers_bind.
    + eapply IHE; [exact Htok|]. cbn [app].
      unfold stopsExpression, stopsTerm, stopsPower. cbn [headIs].
      rewrite !(hasType_isOp _ _ _ Hrp) by discriminate. auto.
    + cbn beta iota. apply skipn_app_tail in Htok. cbn [app] in Htok.
      rewrite tokenTypeAt_skipn, Htok. cbn [headIs]. rewrite Hrp. cbn [negb].
      rewrite Hf. right. cbn [bind length]. rewrite length_app. cbn [length].
      do 2 f_equal. lia.
  - (* '(' expression ')' *)
    intros lp ts rp t Hlp HE IHE Hrp fuel tokens pos rest Htok.
    destruct fuel as [|fuel]; [left; reflexivity|]. cbn [parsePrimary].
    cbn [app] in Htok. rewrite lookup_skipn, Htok. cbn [hd_error].
    unfold hasType in Hlp. destruct (tokenType lp) eqn:Elp; try discriminate. cbv zeta.
    apply skipn_tail in Htok. rewrite <- List.app_assoc in Htok.
    eapply answers_bind.
    + eapply IHE; [exact Htok|]. cbn [app].
      unfold stopsExpression, stopsTerm, stopsPower. cbn [headIs].
      rewrite !(hasType_isOp _ _ _ Hrp) by discriminate. auto.
    + cbn beta iota. apply skipn_app_tail in Htok. cbn [app] in Htok.
      rewrite tokenTypeAt_skipn, Htok. cbn [headIs]. rewrite Hrp. cbn [negb].
      right. cbn [length]. rewrite length_app. cbn [length].
      do 2 f_equal. lia.
Qed.

(** What a parsing function started at [pos] returns, when it returns a
    tree: the tree derived from the tokens it has consumed, and a position
    at which [stops] holds. *)
Definition derives (D : list Token -> NodePtr -> Prop) (stops : list Token -> Prop)
           (tokens : list Token) (pos : nat) (r : result (NodePtr * nat)) : Prop :=
  match r with
  | Ok (t, pos') =>
      exists ts, skipn pos tokens = ts ++ skipn pos' tokens
                 /\ pos' = (pos + length ts)%nat /\ D ts t /\ stops (skipn pos' tokens)
  | _ => True
  end.

Lemma derives_bind (D1 D : list Token -> NodePtr -> Prop)
      (stops1 stops : list Token -> Prop) (tokens : list Token) (pos0 pos : nat)
      (r : result (NodePtr * nat)) (k : NodePtr * nat -> result (NodePtr * nat)) :
  derives D1 stops1 tokens pos0 r ->
  (forall t1 pos1 ts1,
      skipn pos0 tokens = ts1 ++ skipn pos1 tokens -> pos1 = (pos0 + length ts1)%nat ->
      D1 ts1 t1 -> stops1 (skipn pos1 tokens) ->
      derives D stops tokens pos (k (t1, pos1))) ->
  derives D stops tokens pos (bind r k).
Proof.
  destruct r as [[t1 pos1]|e|]; cbn [bind derives]; [|auto|auto].
  intros (ts1 & H1 & H2 & H3 & H4) Hk. eapply Hk; eassumption.
Qed.

Lemma derives_shift (D' D : list Token -> NodePtr -> Prop) (stops : list Token -> Prop)
      (tokens : list Token) (pos pos1 : nat) (ts1 : list Token)
      (r : result (NodePtr * nat)) :
  derives D' stops tokens pos1 r ->
  skipn pos tokens = ts1 ++ skipn pos1 tokens -> pos1 = (pos + length ts1)%nat ->
  (forall ts t, D' ts t -> D (ts1 ++ ts) t) ->
  derives D stops tokens pos r.
Proof.
  destruct r as [[t pos']|e|]; cbn [derives]; [|auto|auto].
  intros (ts & H1 & H2 & H3 & H4) Htok Hpos HD.
  exists (ts1 ++ ts). rewrite Htok, H1, <- List.app_assoc, length_app.
  split; [reflexivity|]. split; [lia|]. auto.
Qed.

Definition grammarInvariant (fuel : nat) : Prop :=
  (forall tokens pos,
      derives Expression stopsExpression tokens pos (parseExpression fuel tokens pos))
  /\ (forall tokens left pos, stopsTerm (skipn pos tokens) ->
      derives (ExpressionRest left) stopsExpression tokens pos
        (parseExpression_loop fuel tokens left pos))
  /\ (forall tokens pos,
      derives Term stopsTerm tokens pos (parseTerm fuel tokens pos))
  /\ (forall tokens left pos, stopsPower (skipn pos tokens) ->
      derives (TermRest left) stopsTerm tokens pos (parseTerm_loop fuel tokens left pos))
  /\ (forall tokens pos,
      derives Power stopsPower tokens pos (parsePower fuel tokens pos))
  /\ (forall tokens pos,
      derives Unary (fun _ => True) tokens pos (parseUnary fuel tokens pos))
  /\ (forall tokens pos,
      derives Primary (fun _ => True) tokens pos (parsePrimary fuel tokens pos)).

(** Soundness: what a parsing function returns is derived from the
    tokens it has consumed, and the token after them does not continue the
    derivation. *)
Lemma grammar_sound (fuel : nat) : grammarInvariant fuel.
Proof.
  unfold grammarInvariant.
  induction fuel as [|n (IHe & IHel & IHt & IHtl & IHw & IHu & IHp)].
  { repeat split; intros; exact I. }
  repeat split.
  - (* parseExpression *)
    intros tokens pos. cbn [parseExpression].
    eapply derives_bind; [apply IHt|].
    intros left pos1 ts1 Htok Hpos HT Hstop.
    eapply derives_shift; [apply IHel; exact Hstop | exact Htok | exact Hpos |].
    intros ts t HR. econstructor; eassumption.
  - (* its loop *)
    intros tokens left pos Hstop. cbn [parseExpression_loop].
    rewrite !operatorAt_skipn.
    destruct (headIs (isOp "+") (skipn pos tokens)) eqn:Hplus.
    + apply headIs_skipn in Hplus as (o & Ho & Hop). cbn [orb]. cbv beta iota zeta.
      eapply derives_bind; [apply (IHt tokens (S pos))|].
      intros right pos1 ts1 Htok Hpos HT Hstop1.
      eapply (derives_shift _ _ _ tokens pos pos1 (o :: ts1));
        [apply IHel; exact Hstop1| | |].
      * rewrite Ho, Htok. reflexivity.
      * cbn [length]. lia.
      * intros ts t HR. cbn [app]. eapply ExpressionRest_add; eassumption.
    + destruct (headIs (isOp "-") (skipn pos tokens)) eqn:Hminus.
      { apply headIs_skipn in Hminus as (o & Ho & Hop). cbn [orb]. cbv beta iota zeta.
      eapply derives_bind; [apply (IHt tokens (S pos))|].
      intros right pos1 ts1 Htok Hpos HT Hstop1.
      eapply (derives_shift _ _ _ tokens pos pos1 (o :: ts1));
        [apply IHel; exact Hstop1| | |].
      * rewrite Ho, Htok. reflexivity.
      * cbn [length]. lia.
      * intros ts t HR. cbn [app]. eapply ExpressionRest_subtract; eassumption. }
      cbn [orb derives]. exists []. rewrite Nat.add_0_r.
      split; [reflexivity|]. split; [reflexivity|]. split; [constructor|].
      unfold stopsExpression. auto.
  - (* parseTerm *)
    intros tokens pos. cbn [parseTerm].
    eapply derives_bind; [apply IHw|].
    intros left pos1 ts1 Htok Hpos HP Hstop.
    eapply derives_shift; [apply IHtl; exact Hstop | exact Htok | exact Hpos |].
    intros ts t HR. econstructor; eassumption.
  - (* its loop *)
    intros tokens left pos Hstop. cbn [parseTerm_loop].
    rewrite !operatorAt_skipn.
    destruct (headIs (isOp "*") (skipn pos tokens)) eqn:Htimes.
    + apply headIs_skipn in Htimes as (o & Ho & Hop). cbn [orb]. cbv beta iota zeta.
      eapply derives_bind; [apply (IHw tokens (S pos))|].
      intros right pos1 ts1 Htok Hpos HT Hstop1.
      eapply (derives_shift _ _ _ tokens pos pos1 (o :: ts1));
        [apply IHtl; exact Hstop1| | |].
      * rewrite Ho, Htok. reflexivity.
      * cbn [length]. lia.
      * intros ts t HR. cbn [app]. eapply TermRest_multiply; eassumption.
    + destruct (headIs (isOp "/") (skipn pos tokens)) eqn:Hdiv.
      { apply headIs_skipn in Hdiv as (o & Ho & Hop). cbn [orb]. cbv beta iota zeta.
      eapply derives_bind; [apply (IHw tokens (S pos))|].
      intros right pos1 ts1 Htok Hpos HT Hstop1.
      eapply (derives_shift _ _ _ tokens pos pos1 (o :: ts1));
        [apply IHtl; exact Hstop1| | |].
      * rewrite Ho, Htok. reflexivity.
      * cbn [length]. lia.
      * intros ts t HR. cbn [app]. eapply TermRest_divide; eassumption. }
      cbn [orb derives]. exists []. rewrite Nat.add_0_r.
      split; [reflexivity|]. split; [reflexivity|]. split; [constructor|].
      unfold stopsTerm. auto.
  - (* parsePower *)
    intros tokens pos. cbn [parsePower].
    eapply derives_bind; [apply IHu|].
    intros left pos1 ts1 Htok Hpos HU _.
    rewrite operatorAt_skipn.
    destruct (headIs (isOp "^") (skipn pos1 tokens)) eqn:Hpow.
    + apply headIs_skipn in Hpow as (o & Ho & Hop).
      eapply derives_bind; [apply (IHw tokens (S pos1))|].
      intros right pos2 ts2 Htok2 Hpos2 HP Hstop2. cbn [derives].
      exists (ts1 ++ o :: ts2). rewrite Htok, Ho, Htok2, <- List.app_assoc, length_app.
      cbn [length app]. split; [reflexivity|]. split; [lia|].
      split; [|exact Hstop2]. apply Power_power; assumption.
    + cbn [derives]. exists ts1. split; [exact Htok|]. split; [exact Hpos|].
      split; [apply Power_unary, HU | exact Hpow].
  - (* parseUnary *)
    intros tokens pos. cbn [parseUnary]. rewrite operatorAt_skipn.
    destruct (headIs (isOp "-") (skipn pos tokens)) eqn:Hminus.
    + apply headIs_skipn in Hminus as (o & Ho & Hop).
      eapply derives_bind; [apply (IHu tokens (S pos))|].
      intros operand pos1 ts1 Htok Hpos HU _. cbn [derives].
      exists (o :: ts1). rewrite Ho, Htok. cbn [length app].
      split; [reflexivity|]. split; [lia|].
      split; [apply Unary_negate; assumption | exact I].
    + specialize (IHp tokens pos).
      destruct (parsePrimary n tokens pos) as [[t pos']|e|]; cbn [derives] in *; auto.
      destruct IHp as (ts & H1 & H2 & H3 & H4). exists ts.
      split; [exact H1|]. split; [exact H2|]. split; [apply Unary_primary, H3 | exact I].
  - (* parsePrimary *)
    intros tokens pos. cbn [parsePrimary]. rewrite lookup_skipn.
    destruct (skipn pos tokens) as [|token rest] eqn:Htoken; cbn [hd_error]; [exact I|].
    pose proof (skipn_tail _ _ _ _ Htoken) as Hrest.
    destruct (tokenType token) eqn:Hty; try exact I.
    + cbn [derives]. exists [token]. rewrite Htoken, Hrest. cbn [app length].
      split; [reflexivity|]. split; [lia|].
      split; [|exact I]. apply Primary_number. unfold hasType. rewrite Hty. reflexivity.
    + cbn [derives]. exists [token]. rewrite Htoken, Hrest. cbn [app length].
      split; [reflexivity|]. split; [lia|].
      split; [|exact I]. apply Primary_variable. unfold hasType. rewrite Hty. reflexivity.
    + cbv zeta. rewrite tokenTypeAt_skipn.
      destruct (headIs (hasType TOKEN_LEFT_PAREN) (skipn (S pos) tokens)) eqn:Hlp;
        [|exact I].
      apply headIs_skipn in Hlp as (lp & Hlp & Hlpty). cbn [negb].
      eapply derives_bind; [apply (IHe tokens (S (S pos)))|].
      intros argument pos1 ts1 Htok Hpos HE _.
      rewrite tokenTypeAt_skipn.
      destruct (headIs (hasType TOKEN_RIGHT_PAREN) (skipn pos1 tokens)) eqn:Hrp;
        [|exact I].
      apply headIs_skipn in Hrp as (rp & Hrp & Hrpty). cbn [negb].
      destruct (functionOfName (value token)) as [f|e|] eqn:Hf; cbn [bind]; try exact I.
      cbn [derives]. exists (token :: lp :: ts1 ++ [rp]).
      rewrite Htoken, <- Hrest, Hlp, Htok, Hrp. cbn [app length].
      rewrite <- List.app_assoc, length_app. cbn [app length].
      split; [reflexivity|]. split; [lia|]. split; [|exact I].
      apply Primary_function; try assumption. unfold hasType. rewrite Hty. reflexivity.
    + cbv zeta.
      eapply derives_bind; [apply (IHe tokens (S pos))|].
      intros t pos1 ts1 Htok Hpos HE _.
      rewrite tokenTypeAt_skipn.
      destruct (headIs (hasType TOKEN_RIGHT_PAREN) (skipn pos1 tokens)) eqn:Hrp;
        [|exact I].
      apply headIs_skipn in Hrp as (rp & Hrp & Hrpty). cbn [negb derives].
      exists (token :: ts1 ++ [rp]).
      rewrite Htoken, <- Hrest, Htok, Hrp. cbn [app length].
      rewrite <- List.app_assoc, length_app. cbn [app length].
      split; [reflexivity|]. split; [lia|]. split; [|exact I].
      apply Primary_parenthesis; try assumption. unfold hasType. rewrite Hty. reflexivity.
Qed.

(** [parseExpression] from the first token returns a tree exactly when a
    prefix of the tokens derives the tree and the token after it does not
    continue the expression. *)
Lemma parseExpression_grammar (tokens : list Token) (t : NodePtr) (pos : nat) :
  parseExpression (parseFuel tokens) tokens 0 = Ok (t, pos)
  <-> exists ts rest,
        tokens = ts ++ rest /\ pos = length ts /\ Expression ts t
        /\ stopsExpression rest.
Proof.
  split.
  - intros H. pose proof (proj1 (grammar_sound (parseFuel tokens)) tokens 0%nat) as Hs.
    rewrite H in Hs. cbn [derives] in Hs. destruct Hs as (ts & H1 & H2 & H3 & H4).
    exists ts, (skipn pos tokens). auto.
  - intros (ts & rest & -> & -> & HE & Hstop).
    destruct (proj1 grammar_complete ts t HE (parseFuel (ts ++ rest)) (ts ++ rest)
                0%nat rest eq_refl Hstop) as [H|H]; [|exact H].
    pose proof (parseExpression_fuel (ts ++ rest)) as Hfuel.
    rewrite H in Hfuel. destruct Hfuel.
Qed.

(** ** Claims about the expression engine *)

(** [parse] on a fresh engine followed by [evaluate]: [None] when either
    fails. *)
Definition parseAndEvaluate (libm : Libm) (expression : string)
           (variables : gmap string float) : option float :=
  match parse expression freshParser with
  | Some (true, parser) => evaluate libm parser variables
  | _ => None
  end.

Definition parseTree (expression : string) : option NodePtr :=
  match parse expression freshParser with
  | Some (true, parser) => Some (rootNode parser)
  | _ => None
  end.

(** The grammar's table: the level of each binary operator, and which of
    them associates to the right. *)
Definition precedence (op : string) : nat :=
  if (String.eqb op "+" || String.eqb op "-")%bool then 1%nat
  else if (String.eqb op "*" || String.eqb op "/")%bool then 2%nat
  else 3%nat.

Definition rightAssociative (op : string) : bool := String.eqb op "^".

Definition operatorOf (op : string) : OperatorType :=
  if String.eqb op "+" then OP_ADD
  else if String.eqb op "-" then OP_SUBTRACT
  else if String.eqb op "*" then OP_MULTIPLY
  else if String.eqb op "/" then OP_DIVIDE
  else OP_POWER.

(** How [x op1 y op2 z] must be grouped according to the table. *)
Definition grouped (op1 op2 : string) (x y z : NodePtr) : NodePtr :=
  if ((precedence op1 <? precedence op2)%nat
      || ((precedence op1 =? precedence op2)%nat && rightAssociative op1))%bool
  then operatorNode (operatorOf op1) x (operatorNode (operatorOf op2) y z)
  else operatorNode (operatorOf op2) (operatorNode (operatorOf op1) x y) z.

Definition binaryOperators : list string := ["+"; "-"; "*"; "/"; "^"]%string.

Definition threeOperands (tx ty tz : string) (x y z : float) (op1 op2 : string)
  : list Token :=
  [mkToken TOKEN_NUMBER tx x; mkToken TOKEN_OPERATOR op1 0;
   mkToken TOKEN_NUMBER ty y; mkToken TOKEN_OPERATOR op2 0;
   mkToken TOKEN_NUMBER tz z; endToken].

Definition precedenceExamples (libm : Libm) : Prop :=
  parseAndEvaluate libm "2+3*4" ∅ = Some 14%float
  /\ parseAndEvaluate libm "(2+3)*4" ∅ = Some 20%float
  /\ parseAndEvaluate libm "10-3-2" ∅ = Some 5%float
  /\ parseAndEvaluate libm "2^3^2" ∅ = Some 512%float
  /\ parseTree "2^3^2"
     = Some (operatorNode OP_POWER (numberNode 2)
               (operatorNode OP_POWER (numberNode 3) (numberNode 2)))
  /\ parseTree "10-3-2"
     = Some (operatorNode OP_SUBTRACT
               (operatorNode OP_SUBTRACT (numberNode 10) (numberNode 3))
               (numberNode 2))
  /\ parseTree "2+3*4"
     = Some (operatorNode OP_ADD (numberNode 2)
               (operatorNode OP_MULTIPLY (numberNode 3) (numberNode 4)))
  /\ forall (tx ty tz : string) (x y z : float),
      Forall (fun op1 =>
        Forall (fun op2 =>
          let tokens := threeOperands tx ty tz x y z op1 op2 in
          parseExpression (parseFuel tokens) tokens 0
          = Ok (grouped op1 op2 (numberNode x) (numberNode y) (numberNode z), 5%nat))
          binaryOperators) binaryOperators.

Lemma stopsExpression_end (rest : list Token) : endsInput rest -> stopsExpression rest.
Proof.
  destruct rest as [|t rest]; [repeat split|]. cbn. intros H.
  unfold stopsExpression, stopsTerm, stopsPower. cbn [headIs].
  rewrite !(hasType_isOp _ _ _ H) by discriminate. auto.
Qed.

(** [parse] accepts a text exactly when its tokens up to the end marker
    derive a tree in the grammar, and that tree is then the engine's. *)
Lemma parse_grammar (expression : string) (this parser : MathExpressionParser) :
  parse expression this = Some (true, parser)
  <-> trimmed (list_ascii_of_string expression) <> []
      /\ (tokenize expression).2 = EmptyString
      /\ errorMessage parser = EmptyString
      /\ exists ts rest,
           (tokenize expression).1 = ts ++ rest
           /\ Expression ts (rootNode parser) /\ endsInput rest.
Proof.
  unfold parse.
  destruct (trimmed (list_ascii_of_string expression)) as [|c text] eqn:Htext.
  { split; [discriminate | intros [H _]; congruence]. }
  destruct (tokenize expression) as [tokens error]. cbn [fst snd errorMessage rootNode].
  destruct (String.eqb error EmptyString) eqn:Herror; cbn [negb].
  2:{ apply String.eqb_neq in Herror. split; [discriminate | tauto]. }
  apply String.eqb_eq in Herror. subst error.
  pose proof (parseExpression_fuel tokens) as Hfuel.
  destruct (parseExpression (parseFuel tokens) tokens 0) as [[node pos]|e|] eqn:Hparse;
    [| |destruct Hfuel].
  2:{ split; [discriminate|]. intros (_ & _ & _ & ts & rest & Htok & HE & Hend).
      assert (parseExpression (parseFuel tokens) tokens 0
              = Ok (rootNode parser, length ts)) as H.
      { apply parseExpression_grammar. exists ts, rest.
        split; [exact Htok|]. split; [reflexivity|].
        split; [exact HE | apply stopsExpression_end, Hend]. }
      congruence. }
  destruct Hfuel as [_ Hwf].
  assert (isNull node = false) as Hnode by (destruct Hwf; reflexivity).
  rewrite Hnode. cbn [negb].
  pose proof Hparse as Hg.
  apply parseExpression_grammar in Hg as (ts & rest & Htok & Hpos & HE & Hstop).
  assert (tokens !! pos = hd_error rest) as ->.
  { assert (skipn (length ts) (ts ++ rest) = rest) as Hskip
      by exact (skipn_app_tail (ts ++ rest) 0 ts rest eq_refl).
    rewrite lookup_skipn, Htok, Hpos, Hskip. reflexivity. }
  split.
  - intros H. split; [discriminate|].
    assert (parser = mkParser node EmptyString /\ endsInput rest) as [-> Hend].
    { destruct rest as [|t rest]; cbn [hd_error endsInput] in *.
      - injection H as <-. auto.
      - unfold hasType. destruct (TokenType_eqb (tokenType t) TOKEN_END);
          [|discriminate]. injection H as <-. auto. }
    split; [reflexivity|]. split; [reflexivity|]. exists ts, rest. auto.
  - intros (_ & _ & Hmsg & ts' & rest' & Htok' & HE' & Hend).
    assert (parseExpression (parseFuel tokens) tokens 0
            = Ok (rootNode parser, length ts')) as H.
    { apply parseExpression_grammar. exists ts', rest'.
      split; [exact Htok'|]. split; [reflexivity|].
      split; [exact HE' | apply stopsExpression_end, Hend]. }
    rewrite Hparse in H. injection H as Hroot Hlen.
    assert (rest' = rest) as ->.
    { rewrite Htok in Htok'. apply app_inj_1 in Htok' as [_ H]; [congruence | lia]. }
    destruct parser as [root msg]. cbn [rootNode errorMessage] in *. subst root msg.
    destruct rest as [|t rest]; cbn [hd_error]; [reflexivity|].
    cbn in Hend. unfold hasType in Hend. rewrite Hend. reflexivity.
Qed.

(** The unary level and the primaries, on texts: negation binds tighter
    than '^' on its left and may follow any operator; parentheses and
    function calls are primaries. *)
Definition unaryExamples : Prop :=
  parseTree "-2^2"
  = Some (operatorNode OP_POWER (operatorNode OP_NEGATE (numberNode 2) nullptr)
            (numberNode 2))
  /\ parseTree "2^-3"
     = Some (operatorNode OP_POWER (numberNode 2)
               (operatorNode OP_NEGATE (numberNode 3) nullptr))
  /\ parseTree "2--3"
     = Some (operatorNode OP_SUBTRACT (numberNode 2)
               (operatorNode OP_NEGATE (numberNode 3) nullptr))
  /\ parseTree "--2"
     = Some (operatorNode OP_NEGATE (operatorNode OP_NEGATE (numberNode 2) nullptr)
               nullptr)
  /\ parseTree "-(1+2)*3"
     = Some (operatorNode OP_MULTIPLY
               (operatorNode OP_NEGATE
                  (operatorNode OP_ADD (numberNode 1) (numberNode 2)) nullptr)
               (numberNode 3))
  /\ parseTree "-sin(x)^2"
     = Some (operatorNode OP_POWER
               (operatorNode OP_NEGATE (functionNode FUNC_SIN (variableNode "x")) nullptr)
               (numberNode 2))
  /\ parseTree "2*(3+4)"
     = Some (operatorNode OP_MULTIPLY (numberNode 2)
               (operatorNode OP_ADD (numberNode 3) (numberNode 4))).

(** C5. The parser implements the five-level grammar, on every input:
    [parseExpression] returns a tree exactly when a prefix of the tokens
    derives that tree in the grammar ([Expression], with '+', '-' and '*',
    '/' grouping to the left, '^' to the right, negation above '^', and
    numbers, variables, function calls and parentheses as primaries) and
    the token after it does not continue the expression; [parse] accepts a
    text exactly when its tokens up to the end marker derive a tree, which
    is then the engine's. So "2+3*4" evaluates to 14, "(2+3)*4" to 20,
    "10-3-2" to 5 and "2^3^2" to 512, the tree of the last being 2^(3^2);
    every [x op1 y op2 z] over the five binary operators is grouped by
    precedence; "-2^2" is (-2)^2 and "2^-3" is 2^(-3). The two values of
    [pow] that "2^3^2" needs are those of <cmath>. *)
Theorem precedence_and_associativity :
  (forall libm : Libm,
      c_pow libm 3 2 = 9%float -> c_pow libm 2 9 = 512%float ->
      precedenceExamples libm)
  /\ unaryExamples
  /\ (forall tokens t pos,
         parseExpression (parseFuel tokens) tokens 0 = Ok (t, pos)
         <-> exists ts rest,
               tokens = ts ++ rest /\ pos = length ts /\ Expression ts t
               /\ stopsExpression rest)
  /\ (forall expression this parser,
         parse expression this = Some (true, parser)
         <-> trimmed (list_ascii_of_string expression) <> []
             /\ (tokenize expression).2 = EmptyString
             /\ errorMessage parser = EmptyString
             /\ exists ts rest,
                  (tokenize expression).1 = ts ++ rest
                  /\ Expression ts (rootNode parser) /\ endsInput rest).
Proof.
  split; [|split; [repeat split; reflexivity|
           split; [exact parseExpression_grammar | exact parse_grammar]]].
  intros libm H32 H29. unfold precedenceExamples.
  repeat split; try reflexivity.
  - change (Some (c_pow libm 2 (c_pow libm 3 2)) = Some 512%float).
    rewrite H32, H29. reflexivity.
  - intros. repeat constructor.
Qed.

Lemma precedence_and_associativity_witness :
  c_pow exampleLibm 3 2 = 9%float /\ c_pow exampleLibm 2 9 = 512%float
  /\ precedenceExamples exampleLibm.
Proof.
  split; [reflexivity|]. split; [reflexivity|].
  apply (proj1 precedence_and_associativity exampleLibm); reflexivity.
Defined.

(** C2. After the failing call [parse("1 2")] (a complete expression
    followed by a surplus token) the engine holds the tree of "1", and a
    following [evaluate] succeeds with the value 1: the check for leftover
    tokens runs after [rootNode] has been assigned and returns without
    resetting it. (On every other failing path the tree is null:
    [parse_failure_root].) *)
Theorem parse_trailing_token_keeps_tree :
  parse "1 2" freshParser
  = Some (false, mkParser (numberNode 1) "Unexpected token at position 1: 2")
  /\ forall (libm : Libm) (variables : gmap string float),
      evaluate libm (mkParser (numberNode 1) "Unexpected token at position 1: 2")
        variables = Some 1%float.
Proof. split; [reflexivity | intros; reflexivity]. Qed.

(** [parse] succeeds on a fresh engine and the following [evaluate]
    returns false. *)
Definition evaluationFails (libm : Libm) (expression : string)
           (variables : gmap string float) : bool :=
  match parse expression freshParser with
  | Some (true, parser) =>
      match evaluate libm parser variables with None => true | Some _ => false end
  | _ => false
  end.

(** C6. After a successful [parse], and for every mapping, [evaluate]
    fails exactly when the tree contains a node that faults: a variable
    absent from the mapping, a division whose divisor evaluates to 0.0, a
    [sqrt] whose argument evaluates below 0, or a [log] whose argument
    evaluates to a value not above 0. A failing call leaves [result]
    untouched, and a power node with evaluated operands always yields the
    value of [pow], whatever it is. So "1/0", "sqrt(-1)" and "log(0)" fail,
    and so does "a+b" when only [a] is bound. *)
Theorem evaluate_fails_iff_fault (libm : Libm) (expression : string)
        (this parser : MathExpressionParser) (variables : gmap string float) :
  parse expression this = Some (true, parser) ->
  (evaluate libm parser variables = None <-> hasFault libm variables (rootNode parser))
  /\ (forall result, evaluate libm parser variables = None ->
                     evaluate_into libm parser variables result = (false, result))
  /\ (forall l r a b,
         evaluateNode libm l variables = Some a ->
         evaluateNode libm r variables = Some b ->
         evaluateNode libm (operatorNode OP_POWER l r) variables
         = Some (c_pow libm a b))
  /\ evaluationFails libm "1/0" ∅ = true
  /\ evaluationFails libm "sqrt(-1)" ∅ = true
  /\ evaluationFails libm "log(0)" ∅ = true
  /\ evaluationFails libm "a+b" (<["a" := 1%float]> ∅) = true.
Proof.
  intros Hparse. apply parse_success in Hparse as [Hwf _].
  split; [|split; [|split; [|repeat split; reflexivity]]].
  - unfold evaluate.
    rewrite <- (evaluateNode_fails libm variables _ Hwf).
    destruct (rootNode parser); reflexivity.
  - intros result H. unfold evaluate_into. rewrite H. reflexivity.
  - intros l r a b Hl Hr.
    change (evaluateNode libm (operatorNode OP_POWER l r) variables)
      with (match evaluateNode libm l variables with
            | None => None
            | Some leftVal =>
                match evaluateNode libm r variables with
                | None => None
                | Some rightVal => Some (c_pow libm leftVal rightVal)
                end
            end).
    rewrite Hl, Hr. reflexivity.
Qed.

Lemma evaluate_fails_iff_fault_witness :
  parse "a/b" freshParser
  = Some (true, mkParser (operatorNode OP_DIVIDE (variableNode "a") (variableNode "b")) "")
  /\ evaluate exampleLibm
       (mkParser (operatorNode OP_DIVIDE (variableNode "a") (variableNode "b")) "")
       (<["a" := 1%float]> (<["b" := 0%float]> ∅)) = None.
Proof.
  split; [reflexivity|].
  apply (proj1 (evaluate_fails_iff_fault exampleLibm "a/b" freshParser _
                  (<["a" := 1%float]> (<["b" := 0%float]> ∅)) eq_refl)).
  eexists. split; [apply sub_here | reflexivity].
Defined.

(** ** Claims about the timestamp union *)

(** Every timestamp of every series, in the order [collectTimestamps]
    visits them. *)
Definition allTimestamps (series : SeriesMap) : list float :=
  flat_map (fun it => map fst (samples it.2)) series.

Definition insertAll (timestamps : list float) (timestampSet : list float) : list float :=
  fold_left (fun timestampSet t => set_insert t timestampSet) timestamps timestampSet.

(** Strictly ascending under [<]. *)
Definition ascending (l : list float) : Prop :=
  StronglySorted (fun a b => (a <? b)%float = true) l.

(** Equal element by element under [==]. *)
Definition sameValues (l1 l2 : list float) : Prop :=
  Forall2 (fun a b => (a =? b)%float = true) l1 l2.

(** Every element of [l1] has an [==]-equal element in [l2]. *)
Definition covers (l2 l1 : list float) : Prop :=
  forall t, In t l1 -> exists u, In u l2 /\ (u =? t)%float = true.

Lemma collectTimestamps_insertAll (series : SeriesMap) (timestampSet : list float) :
  fold_left
    (fun timestampSet it =>
       fold_left (fun timestampSet p => set_insert p.1 timestampSet)
                 (samples it.2) timestampSet)
    series timestampSet
  = insertAll (allTimestamps series) timestampSet.
Proof.
  unfold insertAll, allTimestamps. revert timestampSet.
  induction series as [|it series IH]; intros timestampSet; [reflexivity|].
  cbn [fold_left flat_map]. rewrite fold_left_app, IH. f_equal.
  generalize (samples it.2). intros l. revert timestampSet.
  induction l as [|p l IHl]; intros; [reflexivity|]. cbn. apply IHl.
Qed.

Lemma set_insert_In (x z : float) (s : list float) :
  In z (set_insert x s) -> z = x \/ In z s.
Proof.
  induction s as [|y s IH]; cbn.
  - intros [<-|[]]. auto.
  - destruct (x <? y)%float; [cbn; intuition auto|].
    destruct (y <? x)%float; cbn; [|intuition auto].
    intros [<-|H]; [auto|]. destruct (IH H); auto.
Qed.

Lemma set_insert_keeps (x z : float) (s : list float) :
  In z s -> In z (set_insert x s).
Proof.
  induction s as [|y s IH]; cbn; [tauto|].
  destruct (x <? y)%float; [cbn; intuition auto|].
  destruct (y <? x)%float; cbn; intuition auto.
Qed.

Lemma set_insert_has (x : float) (s : list float) :
  ordered x -> Forall ordered s ->
  exists u, In u (set_insert x s) /\ (u =? x)%float = true.
Proof.
  intros Hx. induction 1 as [|y s Hy Hs IH]; cbn.
  - exists x. split; [auto|]. float_order.
  - destruct (x <? y)%float eqn:E1.
    { exists x. split; [cbn; auto|]. float_order. }
    destruct (y <? x)%float eqn:E2.
    + destruct IH as (u & Hu & Heq). exists u. cbn. auto.
    + exists y. split; [cbn; auto|]. float_order.
Qed.

Lemma set_insert_ascending (x : float) (s : list float) :
  ascending s -> ascending (set_insert x s).
Proof.
  unfold ascending. induction 1 as [|y s Hs IH Hy]; cbn.
  - repeat constructor.
  - destruct (x <? y)%float eqn:E1.
    + constructor; [constructor; assumption|].
      constructor; [assumption|].
      rewrite List.Forall_forall in Hy. apply List.Forall_forall. intros z Hz.
      apply Hy in Hz. float_order.
    + destruct (y <? x)%float eqn:E2; [|constructor; assumption].
      constructor; [assumption|].
      apply List.Forall_forall. intros z Hz. apply set_insert_In in Hz as [->|Hz]; [assumption|].
      rewrite List.Forall_forall in Hy. auto.
Qed.

Lemma insertAll_ascending (l s : list float) :
  ascending s -> ascending (insertAll l s).
Proof.
  revert s. induction l as [|x l IH]; intros s Hs; [exact Hs|].
  cbn. apply IH, set_insert_ascending, Hs.
Qed.

Lemma insertAll_In (l s : list float) (z : float) :
  In z (insertAll l s) -> In z l \/ In z s.
Proof.
  revert s. induction l as [|x l IH]; intros s; cbn; [auto|].
  intros H. apply IH in H as [H|H]; [auto|].
  apply set_insert_In in H as [->|H]; auto.
Qed.

Lemma insertAll_keeps (l s : list float) (z : float) :
  In z s -> In z (insertAll l s).
Proof.
  revert s. induction l as [|x l IH]; intros s H; cbn; [exact H|].
  apply IH, set_insert_keeps, H.
Qed.

Lemma insertAll_ordered (l s : list float) :
  Forall ordered l -> Forall ordered s -> Forall ordered (insertAll l s).
Proof.
  intros Hl Hs. apply List.Forall_forall. intros z Hz.
  apply insertAll_In in Hz as [Hz|Hz];
    [rewrite List.Forall_forall in Hl | rewrite List.Forall_forall in Hs]; auto.
Qed.

Lemma insertAll_covers (l s : list float) :
  Forall ordered l -> Forall ordered s -> covers (insertAll l s) l.
Proof.
  intros Hl. revert s. induction Hl as [|x l Hx Hl IH]; intros s Hs t; cbn; [tauto|].
  assert (Forall ordered (set_insert x s)) as Hs'.
  { apply List.Forall_forall. intros z Hz. apply set_insert_In in Hz as [->|Hz]; [assumption|].
    rewrite List.Forall_forall in Hs. auto. }
  intros [<-|Ht]; [|apply IH; assumption].
  destruct (set_insert_has x s Hx Hs) as (u & Hu & Heq).
  exists u. split; [apply insertAll_keeps; assumption | assumption].
Qed.

(** Two strictly ascending lists that cover each other hold the same
    values in the same places. *)
Lemma ascending_unique (l1 l2 : list float) :
  ascending l1 -> ascending l2 -> covers l2 l1 -> covers l1 l2 ->
  sameValues l1 l2.
Proof.
  unfold ascending, sameValues, covers. intros H1. revert l2.
  induction H1 as [|a l1 Hs1 IH Ha]; intros l2 H2 C12 C21.
  - destruct l2 as [|b l2]; [constructor|].
    destruct (C21 b) as (u & [] & _). cbn. auto.
  - destruct l2 as [|b l2].
    { destruct (C12 a) as (u & [] & _). cbn. auto. }
    apply StronglySorted_inv in H2 as [Hs2 Hb].
    rewrite List.Forall_forall in Ha, Hb.
    assert ((a =? b)%float = true) as Hab.
    { destruct (C12 a) as (u & Hu & Hua); [cbn; auto|].
      destruct (C21 b) as (v & Hv & Hvb); [cbn; auto|].
      destruct Hu as [<-|Hu]; [float_order|]. apply Hb in Hu.
      destruct Hv as [<-|Hv]; [float_order|]. apply Ha in Hv.
      float_order. }
    constructor; [exact Hab|].
    apply IH; [exact Hs2| |].
    + intros t Ht. destruct (C12 t) as (u & Hu & Hut); [cbn; auto|].
      destruct Hu as [<-|Hu]; [|eauto]. apply Ha in Ht. float_order.
    + intros t Ht. destruct (C21 t) as (u & Hu & Hut); [cbn; auto|].
      destruct Hu as [<-|Hu]; [|eauto]. apply Hb in Ht. float_order.
Qed.

Lemma covers_trans (l1 l2 l3 : list float) :
  covers l2 l1 -> covers l3 l2 -> covers l3 l1.
Proof.
  intros H12 H23 t Ht. destruct (H12 t Ht) as (u & Hu & Hut).
  destruct (H23 u Hu) as (v & Hv & Hvu). exists v. split; [assumption|].
  float_order.
Qed.

Lemma covers_incl (l1 l2 : list float) :
  Forall ordered l1 -> (forall t, In t l1 -> In t l2) -> covers l2 l1.
Proof.
  intros Ho H t Ht. exists t. split; [auto|].
  rewrite List.Forall_forall in Ho. specialize (Ho t Ht). float_order.
Qed.

Lemma ascending_NoDup (l : list float) : ascending l -> List.NoDup l.
Proof.
  induction 1 as [|a l Hs IH Ha]; constructor; [|assumption].
  intros Hin. rewrite List.Forall_forall in Ha. specialize (Ha a Hin).
  rewrite ltb_irrefl in Ha. discriminate.
Qed.

(** Away from NaN and the two zeros, [==] is identity. *)
Lemma eqb_eq_nonzero (x y : float) :
  (x =? y)%float = true -> (y =? 0)%float = false -> x = y.
Proof.
  intros Hxy Hy0. apply Prim2SF_inj.
  assert (ordered 0%float) as H0 by reflexivity.
  assert (k1 0%float = 0 /\ k2 0%float = 0 /\ k3 0%float = 0) as Hk0
      by (repeat split; reflexivity).
  apply eqb_true in Hxy as (Hx & Hy & Hxy).
  apply eqb_false in Hy0.
  unfold ordered, nanFlag, EQ, k1, k2, k3 in *.
  destruct (Prim2SF x) as [[]|[]| |[] mx ex], (Prim2SF y) as [[]|[]| |[] my ey];
    cbn in *; try lia; try reflexivity.
  - f_equal; lia.
  - f_equal; lia.
Qed.

Lemma sameValues_eq (l1 l2 : list float) :
  sameValues l1 l2 -> (forall t, In t l2 -> (t =? 0)%float = false) -> l1 = l2.
Proof.
  induction 1 as [|a b l1 l2 Hab H IH]; intros Hnz; [reflexivity|].
  f_equal.
  - apply eqb_eq_nonzero; [exact Hab | apply Hnz; cbn; auto].
  - apply IH. intros t Ht. apply Hnz. cbn. auto.
Qed.

(** C7 (amended). For series whose timestamps are not NaN,
    [collectTimestamps] returns the union of their timestamps, timestamps
    being compared with [==]: strictly ascending, hence without
    duplicates; made of timestamps of the series only; holding an
    [==]-equal of every timestamp of every series, and that timestamp
    itself unless it is a zero; with the same values under [==] whatever
    the order of the series, and the very same sequence when no timestamp
    is a zero. Series [0,10,20] and [5,15,25] give [0,5,10,15,20,25] in
    either order. *)
Theorem collectTimestamps_union (series : SeriesMap) :
  Forall ordered (allTimestamps series) ->
  ascending (collectTimestamps series)
  /\ List.NoDup (collectTimestamps series)
  /\ (forall t, In t (collectTimestamps series) -> In t (allTimestamps series))
  /\ covers (collectTimestamps series) (allTimestamps series)
  /\ (forall t, In t (allTimestamps series) -> (t =? 0)%float = false ->
                In t (collectTimestamps series))
  /\ (forall series', Permutation series series' ->
                      sameValues (collectTimestamps series) (collectTimestamps series'))
  /\ (forall series', Permutation series series' ->
                      (forall t, In t (allTimestamps series) -> (t =? 0)%float = false) ->
                      collectTimestamps series = collectTimestamps series')
  /\ collectTimestamps [("a"%string, seriesAt [0; 10; 20]%float);
                        ("b"%string, seriesAt [5; 15; 25]%float)]
     = [0; 5; 10; 15; 20; 25]%float
  /\ collectTimestamps [("b"%string, seriesAt [5; 15; 25]%float);
                        ("a"%string, seriesAt [0; 10; 20]%float)]
     = [0; 5; 10; 15; 20; 25]%float.
Proof.
  intros Ho. unfold collectTimestamps.
  assert (ascending (insertAll (allTimestamps series) [])) as Hasc
      by (apply insertAll_ascending; constructor).
  assert (forall t, In t (insertAll (allTimestamps series) []) ->
                    In t (allTimestamps series)) as Hin.
  { intros t Ht. apply insertAll_In in Ht as [Ht|[]]. exact Ht. }
  assert (covers (insertAll (allTimestamps series) []) (allTimestamps series)) as Hcov
      by (apply insertAll_covers; [assumption | constructor]).
  rewrite !collectTimestamps_insertAll.
  split; [exact Hasc|]. split; [apply ascending_NoDup, Hasc|].
  split; [exact Hin|]. split; [exact Hcov|].
  split.
  { intros t Ht Hnz. destruct (Hcov t Ht) as (u & Hu & Hut).
    rewrite <- (eqb_eq_nonzero u t Hut Hnz). exact Hu. }
  assert (forall series', Permutation series series' ->
            Permutation (allTimestamps series) (allTimestamps series')) as Hp.
  { intros series' Hperm. unfold allTimestamps. apply Permutation_flat_map. assumption. }
  assert (forall series', Permutation series series' ->
            sameValues (insertAll (allTimestamps series) [])
                       (insertAll (allTimestamps series') [])) as Hsame.
  { intros series' Hperm. specialize (Hp series' Hperm).
    assert (Forall ordered (allTimestamps series')) as Ho'.
    { eapply Permutation_Forall; eassumption. }
    apply ascending_unique.
    - exact Hasc.
    - apply insertAll_ascending; constructor.
    - apply (covers_trans _ (allTimestamps series')).
      + apply covers_incl.
        * apply insertAll_ordered; [assumption | constructor].
        * intros t Ht. apply (Permutation_in _ Hp), Hin, Ht.
      + apply insertAll_covers; [assumption | constructor].
    - apply (covers_trans _ (allTimestamps series)).
      + apply covers_incl.
        * apply insertAll_ordered; [assumption | constructor].
        * intros t Ht. apply insertAll_In in Ht as [Ht|[]].
          apply (Permutation_in _ (Permutation_sym (Hp))), Ht.
      + exact Hcov. }
  split.
  { intros series' Hperm. rewrite collectTimestamps_insertAll. apply Hsame, Hperm. }
  split; [|split; reflexivity].
  intros series' Hperm Hnz. rewrite collectTimestamps_insertAll.
  apply sameValues_eq; [apply Hsame, Hperm|].
  intros t Ht. apply Hnz. apply insertAll_In in Ht as [Ht|[]].
  apply (Permutation_in _ (Permutation_sym (Hp series' Hperm))), Ht.
Qed.

(** The two series of the union example. *)
Definition unionExample : SeriesMap :=
  [("a"%string, seriesAt [0; 10; 20]%float); ("b"%string, seriesAt [5; 15; 25]%float)].

Lemma collectTimestamps_union_witness :
  Forall ordered (allTimestamps unionExample)
  /\ ascending (collectTimestamps unionExample).
Proof.
  assert (Forall ordered (allTimestamps unionExample)) as Ho by (repeat constructor).
  split; [exact Ho|].
  exact (proj1 (collectTimestamps_union unionExample Ho)).
Defined.

(** C7 as stated fails for series that hold a NaN timestamp, which it
    does not exclude: [std::set] takes NaN for equivalent to every value.
    A series [NaN] bound before a series [1] gives the sequence [NaN],
    which misses 1, and bound after it the sequence [1]; and the series
    [NaN, 1, 2] alone gives [NaN]. The sequence also tells the order of the
    series where a timestamp occurs as +0.0 and as -0.0. *)
Lemma nan_timestamp_breaks_the_union :
  collectTimestamps [("a"%string, seriesAt [nan]); ("b"%string, seriesAt [1]%float)]
  = [nan]
  /\ collectTimestamps [("a"%string, seriesAt [1]%float); ("b"%string, seriesAt [nan])]
     = [1]%float
  /\ ~ In 1%float
        (collectTimestamps
           [("a"%string, seriesAt [nan]); ("b"%string, seriesAt [1]%float)])
  /\ collectTimestamps [("a"%string, seriesAt [nan; 1; 2]%float)] = [nan]
  /\ collectTimestamps [("a"%string, seriesAt [0]%float); ("b"%string, seriesAt [-0]%float)]
     = [0]%float
  /\ collectTimestamps [("a"%string, seriesAt [-0]%float); ("b"%string, seriesAt [0]%float)]
     = [(-0)%float]
  /\ [0%float] <> [(-0)%float].
Proof.
  split; [reflexivity|]. split; [reflexivity|]. split.
  { intros [H|[]]. apply (f_equal Prim2SF) in H. vm_compute in H. discriminate. }
  split; [reflexivity|]. split; [reflexivity|]. split; [reflexivity|].
  intros H. apply (f_equal (fun l => Prim2SF (hd 0%float l))) in H.
  vm_compute in H. discriminate.
Qed.

(** ** Claims about the gap policy *)

Definition timestampsOf (s : DataSeries) : list float := map fst (samples s).

(** Non-descending, and free of NaN. *)
Definition nondescending (l : list float) : Prop :=
  StronglySorted (fun a b => (a <=? b)%float = true) l /\ Forall ordered l.

(** The first index whose timestamp is not below [t]. *)
Fixpoint firstIndex (t : float) (ts : list float) : nat :=
  match ts with
  | [] => 0%nat
  | x :: ts' => if (t <=? x)%float then 0%nat else S (firstIndex t ts')
  end.


(** [d] does not exceed [maxGapSize]: the negation of the code's
    [d > maxGapSize]. *)
Definition withinGap (maxGapSize d : float) : bool := negb (maxGapSize <? d)%float.



Lemma firstIndexFrom_firstIndex (t : float) (l : list (float * float)) (k : nat) :
  firstIndexFrom t l k = (k + firstIndex t (map fst l))%nat.
Proof.
  revert k. induction l as [|p l IH]; intros k; cbn; [lia|].
  destruct (t <=? p.1)%float; [lia|]. rewrite IH. lia.
Qed.

Lemma getIndexForTimestamp_firstIndex (s : DataSeries) (t : float) :
  getIndexForTimestamp s t = firstIndex t (timestampsOf s).
Proof. unfold getIndexForTimestamp. apply firstIndexFrom_firstIndex. Qed.

Lemma getTimestamp_nth (s : DataSeries) (i : nat) :
  getTimestamp s i = nth i (timestampsOf s) 0%float.
Proof.
  unfold getTimestamp, timestampsOf. generalize (samples s). intros l. revert i.
  induction l as [|p l IH]; intros [|i]; cbn; try reflexivity. apply IH.
Qed.

Lemma size_timestampsOf (s : DataSeries) : size s = length (timestampsOf s).
Proof. unfold size, timestampsOf. rewrite length_map. reflexivity. Qed.

Lemma firstIndex_le (t : float) (ts : list float) :
  (firstIndex t ts <= length ts)%nat.
Proof. induction ts as [|x ts IH]; cbn; [lia|]. destruct (t <=? x)%float; lia. Qed.

(** The index is characterised by the samples before it and the sample at
    it. *)
Lemma firstIndex_unique (t : float) (ts : list float) (i : nat) :
  (forall j, (j < i)%nat -> (t <=? nth j ts 0)%float = false) ->
  (i < length ts)%nat -> (t <=? nth i ts 0)%float = true ->
  firstIndex t ts = i.
Proof.
  revert i. induction ts as [|x ts IH]; intros i Hbefore Hlt Hat; cbn in *; [lia|].
  destruct i as [|i].
  - rewrite Hat. reflexivity.
  - rewrite (Hbefore 0%nat) by lia. f_equal. apply IH; [|lia|exact Hat].
    intros j Hj. apply (Hbefore (S j)). lia.
Qed.










(** The series of the gap examples. *)
Definition gapSeries : DataSeries := seriesAt [0; 10; 2000; 2010]%float.

(** *** Differences *)

























(** The timestamps of a series come in order: each is at most every
    later one. *)
Definition sortedByTime (s : DataSeries) : Prop :=
  StronglySorted (fun a b => (a <=? b)%float = true) (timestampsOf s).

(** A sorted series holds no NaN, unless NaN is its only timestamp. *)
Lemma sorted_cases (l : list float) :
  StronglySorted (fun a b => (a <=? b)%float = true) l ->
  Forall ordered l \/ exists x, l = [x] /\ ~ ordered x.
Proof.
  intros Hs. destruct l as [|a [|b l]].
  - left. constructor.
  - destruct (is_nan a) eqn:E.
    + right. exists a. split; [reflexivity | apply is_nan_true, E].
    + left. constructor; [apply is_nan_false, E | constructor].
  - left. apply StronglySorted_inv in Hs as [_ Ha].
    apply Forall_inv in Ha as Hab. constructor; [float_order|].
    rewrite List.Forall_forall in Ha |- *. intros x Hx. specialize (Ha x Hx). float_order.
Qed.













Lemma nondescending_nth (l : list float) (j k : nat) :
  nondescending l -> (j <= k < length l)%nat ->
  (nth j l 0 <=? nth k l 0)%float = true.
Proof.
  intros [Hs Ho]. revert j k. induction Hs as [|a l Hs IH Ha]; intros j k Hjk;
    [cbn in Hjk; lia|].
  apply Forall_inv_tail in Ho as Ho'. apply Forall_inv in Ho as Hoa.
  cbn [length] in Hjk.
  destruct k as [|k].
  - assert (j = 0%nat) as -> by lia. cbn. float_order.
  - destruct j as [|j].
    + cbn [nth]. rewrite List.Forall_forall in Ha. apply Ha, nth_In. lia.
    + cbn [nth]. apply IH; [exact Ho' | lia].
Qed.

(** A series in order with two samples or more holds no NaN. *)
Lemma sortedByTime_nondescending (s : DataSeries) :
  sortedByTime s -> (2 <= size s)%nat -> nondescending (timestampsOf s).
Proof.
  intros Hs Hsize. rewrite size_timestampsOf in Hsize. split; [exact Hs|].
  destruct (sorted_cases _ Hs) as [Ho|(x & Ex & _)]; [exact Ho|].
  rewrite Ex in Hsize. cbn in Hsize. lia.
Qed.

(** C10 (amended). When the timestamp is the sample at index [i > 0] of a
    bound series whose timestamps come in order, and is greater than the
    sample before it, its validity in that series is decided by the gap
    between samples [i-1] and [i]: the test of that series passes exactly
    when the gap does not exceed [maxGapSize], so [isTimestampValid] is
    the conjunction of this with the tests of the other series; it
    accepts the timestamp only if the gap does not exceed [maxGapSize],
    and when the gap exceeds [maxGapSize] the timestamp is invalid and
    the loop skips it, whatever the other series hold. So 2000, a sample
    of [0,2000], is invalid for [maxGapSize] 1000 and is skipped. *)
Theorem sample_after_gap_is_invalid (series : SeriesMap) (name : string)
        (s : DataSeries) (i : nat) (maxGapSize : float) :
  In (name, s) series ->
  sortedByTime s -> (0 < i < size s)%nat ->
  (getTimestamp s (i - 1) <? getTimestamp s i)%float = true ->
  gapCheck (getTimestamp s i) s maxGapSize
  = withinGap maxGapSize (getTimestamp s i - getTimestamp s (i - 1))
  /\ (forall others others',
        series = others ++ (name, s) :: others' ->
        isTimestampValid (getTimestamp s i) series maxGapSize
        = (isTimestampValid (getTimestamp s i) others maxGapSize
           && (withinGap maxGapSize (getTimestamp s i - getTimestamp s (i - 1))
               && isTimestampValid (getTimestamp s i) others' maxGapSize))%bool)
  /\ (isTimestampValid (getTimestamp s i) series maxGapSize = true ->
      withinGap maxGapSize (getTimestamp s i - getTimestamp s (i - 1)) = true)
  /\ ((maxGapSize <? getTimestamp s i - getTimestamp s (i - 1))%float = true ->
      isTimestampValid (getTimestamp s i) series maxGapSize = false
      /\ forall libm getValueAtTime parser requiredVars expression out,
           computePoint libm getValueAtTime parser requiredVars
             (compute expression series out maxGapSize) (getTimestamp s i)
           = None)
  /\ isTimestampValid 2000 [("a"%string, seriesAt [0; 2000]%float)] 1000 = false
  /\ forall libm getValueAtTime parser requiredVars expression out,
      computePoint libm getValueAtTime parser requiredVars
        (compute expression [("a"%string, seriesAt [0; 2000]%float)] out 1000) 2000
      = None.
Proof.
  intros Hin Hs Hi Hstrict.
  assert (nondescending (timestampsOf s)) as Hnd
      by (apply sortedByTime_nondescending; [exact Hs | lia]).
  assert (gapCheck (getTimestamp s i) s maxGapSize
          = withinGap maxGapSize (getTimestamp s i - getTimestamp s (i - 1))) as Hgap.
  { rewrite size_timestampsOf in Hi.
    unfold gapCheck, withinGap.
    rewrite getIndexForTimestamp_firstIndex, size_timestampsOf, !getTimestamp_nth.
    rewrite !getTimestamp_nth in Hstrict.
    assert (firstIndex (nth i (timestampsOf s) 0%float) (timestampsOf s) = i) as Hidx.
    { apply firstIndex_unique.
      - intros j Hj.
        assert ((nth j (timestampsOf s) 0 <=? nth (i - 1) (timestampsOf s) 0)%float = true)
          by (apply nondescending_nth; [assumption | lia]).
        float_order.
      - lia.
      - float_order. }
    rewrite Hidx.
    replace (i =? 0)%nat with false by (symmetry; apply Nat.eqb_neq; lia).
    replace (length (timestampsOf s) <=? i)%nat with false
      by (symmetry; apply Nat.leb_gt; lia).
    reflexivity. }
  assert (isTimestampValid (getTimestamp s i) series maxGapSize = true ->
          withinGap maxGapSize (getTimestamp s i - getTimestamp s (i - 1)) = true) as Hvalid.
  { unfold isTimestampValid. rewrite forallb_forall. intros Hall.
    rewrite <- Hgap. exact (Hall (name, s) Hin). }
  split; [exact Hgap|]. split.
  { intros others others' ->. unfold isTimestampValid.
    rewrite forallb_app. cbn [forallb snd]. rewrite Hgap. reflexivity. }
  split; [exact Hvalid|].
  split; [|split; [reflexivity | intros; reflexivity]].
  intros Hwide.
  assert (isTimestampValid (getTimestamp s i) series maxGapSize = false) as Hinvalid.
  { destruct (isTimestampValid (getTimestamp s i) series maxGapSize); [|reflexivity].
    specialize (Hvalid eq_refl). unfold withinGap in Hvalid. rewrite Hwide in Hvalid.
    discriminate. }
  split; [exact Hinvalid|].
  intros. unfold computePoint, compute. cbn [currentVariableMapping currentMaxGapSize].
  rewrite Hinvalid. reflexivity.
Qed.

Lemma sample_after_gap_is_invalid_witness :
  isTimestampValid 2000
    [("a"%string, seriesAt [0; 10]%float); ("b"%string, seriesAt [0; 2000]%float)] 1000
  = false.
Proof.
  assert (In ("b"%string, seriesAt [0; 2000]%float)
            [("a"%string, seriesAt [0; 10]%float); ("b"%string, seriesAt [0; 2000]%float)])
    as Hin by (cbn; auto).
  assert (sortedByTime (seriesAt [0; 2000]%float)) as Hs by (repeat constructor).
  assert (0 < 1 < size (seriesAt [0; 2000]%float))%nat as Hi by (cbn; lia).
  assert ((getTimestamp (seriesAt [0; 2000]%float) (1 - 1)
           <? getTimestamp (seriesAt [0; 2000]%float) 1)%float = true) as Hstrict
      by reflexivity.
  exact (proj1 (proj1 (proj2 (proj2 (proj2
    (sample_after_gap_is_invalid _ "b" (seriesAt [0; 2000]%float) 1 1000
       Hin Hs Hi Hstrict)))) eq_refl)).
Defined.

(** C10 as stated fails in two ways. At the later of two equal samples:
    2000 is the sample at index 2 of [0,2000,2000], the gap between
    samples 1 and 2 is 0, which does not exceed 1000, and yet the
    timestamp is invalid: the index found is 1, and the gap before sample
    1 decides. And in a series out of order, which the code does not
    check for: 2000 is the sample at index 2 of [3000,0,2000], the gap
    between samples 1 and 2 is 2000, which exceeds 1000, and yet the
    timestamp is valid and the loop computes a point for it: the index
    found is 0, and the distance to sample 0 decides. *)
Lemma sample_not_judged_by_the_gap_before_it :
  (getTimestamp (seriesAt [0; 2000; 2000]%float) 2 = 2000%float
   /\ withinGap 1000 (getTimestamp (seriesAt [0; 2000; 2000]%float) 2
                      - getTimestamp (seriesAt [0; 2000; 2000]%float) 1) = true
   /\ getIndexForTimestamp (seriesAt [0; 2000; 2000]%float) 2000 = 1%nat
   /\ gapCheck 2000 (seriesAt [0; 2000; 2000]%float) 1000 = false
   /\ isTimestampValid 2000 [("a"%string, seriesAt [0; 2000; 2000]%float)] 1000 = false)
  /\ (getTimestamp (seriesAt [3000; 0; 2000]%float) 2 = 2000%float
      /\ withinGap 1000 (getTimestamp (seriesAt [3000; 0; 2000]%float) 2
                         - getTimestamp (seriesAt [3000; 0; 2000]%float) 1) = false
      /\ getIndexForTimestamp (seriesAt [3000; 0; 2000]%float) 2000 = 0%nat
      /\ gapCheck 2000 (seriesAt [3000; 0; 2000]%float) 1000 = true
      /\ isTimestampValid 2000 [("a"%string, seriesAt [3000; 0; 2000]%float)] 1000 = true
      /\ computePoint exampleLibm linearInterpolation
           (mkParser (variableNode "a") "") ["a"%string]
           (compute "a" [("a"%string, seriesAt [3000; 0; 2000]%float)] (mkOutput [] 0) 1000)
           2000
         <> None).
Proof.
  split; [repeat split|].
  do 5 (split; [reflexivity|]). vm_compute. discriminate.
Qed.

(** ** The main loop *)

Definition isProgress (s : Signal) : Prop :=
  match s with progressUpdated _ => True | _ => False end.

(** The values carried by the [progressUpdated] signals, in order. *)
Fixpoint progressValues (sigs : list Signal) : list Z :=
  match sigs with
  | [] => []
  | progressUpdated p :: sigs' => p :: progressValues sigs'
  | _ :: sigs' => progressValues sigs'
  end.

(** The flag is never seen set. *)
Definition neverCancelled : nat -> bool := fun _ => false.

Definition initialLocals (this : MathTraceComputer) : Locals :=
  mkLocals (clearData (currentOutputSeries this)) (-1) 0 0.

Section MainLoop.
Context (libm : Libm) (getValueAtTime : DataSeries -> float -> float).
Context (parser : MathExpressionParser) (requiredVars : list string).
Context (this : MathTraceComputer) (total : Z).

Local Abbreviation point := (computePoint libm getValueAtTime parser requiredVars this).
Local Abbreviation loop cancel :=
  (mainLoop libm getValueAtTime cancel parser requiredVars this total).

(** One turn of the loop, unfolded. *)
Lemma mainLoop_cons (cancel : nat -> bool) (t : float) (rest : list float)
      (i : nat) (st : Locals) :
  loop cancel (t :: rest) i st
  = if cancel i then (true, st, [])
    else
      match point t with
      | None =>
          loop cancel rest (S i)
            (mkLocals (outputSeries st) (lastProgress st) (validPoints st)
               (skippedPoints st + 1))
      | Some result =>
          let out := addData (outputSeries st) t result in
          let progress := Z.quot (int_mul (Z.of_nat i) 100) total in
          if (negb (progress =? lastProgress st) && (Z.rem progress 10 =? 0))%bool
          then
            let '(c, st', sigs) :=
              loop cancel rest (S i)
                (mkLocals out progress (validPoints st + 1) (skippedPoints st)) in
            (c, st', progressUpdated progress :: sigs)
          else
            loop cancel rest (S i)
              (mkLocals out (lastProgress st) (validPoints st + 1) (skippedPoints st))
      end.
Proof. reflexivity. Qed.

(** What the loop does to the counters and the output series: every
    visited timestamp is counted once, as valid or skipped; the points of
    the output grow by one per valid timestamp, each the value computed for
    a visited timestamp; [update] is not called; only progress is
    signalled. *)
Lemma mainLoop_effect (cancel : nat -> bool) (timestamps : list float) (i : nat)
      (st st' : Locals) (c : bool) (sigs : list Signal) :
  loop cancel timestamps i st = (c, st', sigs) ->
  validPoints st <= validPoints st' /\ skippedPoints st <= skippedPoints st'
  /\ validPoints st' + skippedPoints st'
     <= validPoints st + skippedPoints st + Z.of_nat (length timestamps)
  /\ (c = false ->
      validPoints st' + skippedPoints st'
      = validPoints st + skippedPoints st + Z.of_nat (length timestamps))
  /\ (exists added,
         points (outputSeries st') = points (outputSeries st) ++ added
         /\ Z.of_nat (length added) = validPoints st' - validPoints st
         /\ Forall (fun p => In p.1 timestamps /\ point p.1 = Some p.2) added)
  /\ updates (outputSeries st') = updates (outputSeries st)
  /\ Forall isProgress sigs
  /\ ((forall t, In t timestamps -> point t = None) -> validPoints st' = validPoints st).
Proof.
  revert i st st' c sigs.
  induction timestamps as [|t rest IH]; intros i st st' c sigs.
  { cbn. intros [= <- <- <-].
    split; [lia|]. split; [lia|]. split; [lia|]. split; [intros; lia|].
    split; [|split; [reflexivity | split; [constructor | reflexivity]]].
    exists []. rewrite app_nil_r. split; [reflexivity|]. split; [cbn; lia | constructor]. }
  rewrite mainLoop_cons. cbn [length]. rewrite Nat2Z.inj_succ.
  destruct (cancel i).
  { intros [= <- <- <-].
    split; [lia|]. split; [lia|]. split; [lia|]. split; [discriminate|].
    split; [|split; [reflexivity | split; [constructor | reflexivity]]].
    exists []. rewrite app_nil_r. split; [reflexivity|]. split; [cbn; lia | constructor]. }
  destruct (point t) as [result|] eqn:Hpoint.
  - cbv zeta.
    set (progress := Z.quot (int_mul (Z.of_nat i) 100) total).
    assert (forall last sigs0,
      loop cancel rest (S i)
        (mkLocals (addData (outputSeries st) t result) last (validPoints st + 1)
           (skippedPoints st)) = (c, st', sigs0) ->
      validPoints st <= validPoints st' /\ skippedPoints st <= skippedPoints st'
      /\ validPoints st' + skippedPoints st'
         <= validPoints st + skippedPoints st + Z.succ (Z.of_nat (length rest))
      /\ (c = false ->
          validPoints st' + skippedPoints st'
          = validPoints st + skippedPoints st + Z.succ (Z.of_nat (length rest)))
      /\ (exists added,
             points (outputSeries st') = points (outputSeries st) ++ added
             /\ Z.of_nat (length added) = validPoints st' - validPoints st
             /\ Forall (fun p => In p.1 (t :: rest) /\ point p.1 = Some p.2) added)
      /\ updates (outputSeries st') = updates (outputSeries st)
      /\ Forall isProgress sigs0
      /\ ((forall t0, In t0 (t :: rest) -> point t0 = None) ->
          validPoints st' = validPoints st)) as Hstep.
    { intros last sigs0 Hloop.
      apply IH in Hloop
        as (Hv & Hs & Hle & Heq & (added & Hpts & Hlen & Hall) & Hupd & Hsig & _).
      cbn [validPoints skippedPoints outputSeries points updates addData] in *.
      split; [lia|]. split; [lia|]. split; [lia|].
      split; [intros Hc; specialize (Heq Hc); lia|].
      split; [|split; [exact Hupd | split; [exact Hsig|]]].
      - exists ((t, result) :: added). rewrite Hpts, <- List.app_assoc. cbn [app length].
        split; [reflexivity|]. split; [lia|].
        constructor; [cbn; auto|].
        rewrite List.Forall_forall in Hall. apply List.Forall_forall.
        intros p Hp. destruct (Hall p Hp). cbn. auto.
      - intros Hnone. rewrite (Hnone t) in Hpoint by (cbn; auto). discriminate. }
    destruct (negb (progress =? lastProgress st) && (Z.rem progress 10 =? 0))%bool.
    + destruct (loop cancel rest (S i) _) as [[c0 st0] sigs0] eqn:Hloop.
      intros [= <- <- <-].
      destruct (Hstep _ _ Hloop) as (H1 & H2 & H3 & H4 & H5 & H6 & H7 & H8).
      split; [exact H1|]. split; [exact H2|]. split; [exact H3|]. split; [exact H4|].
      split; [exact H5|]. split; [exact H6|]. split; [|exact H8].
      constructor; [exact I | exact H7].
    + intros Hloop. exact (Hstep _ _ Hloop).
  - intros Hloop.
    apply IH in Hloop
      as (Hv & Hs & Hle & Heq & (added & Hpts & Hlen & Hall) & Hupd & Hsig & Hnone).
    cbn [validPoints skippedPoints outputSeries] in *.
    split; [lia|]. split; [lia|]. split; [lia|].
    split; [intros Hc; specialize (Heq Hc); lia|].
    split; [|split; [exact Hupd | split; [exact Hsig|]]].
    + exists added. split; [exact Hpts|]. split; [exact Hlen|].
      rewrite List.Forall_forall in Hall. apply List.Forall_forall.
      intros p Hp. destruct (Hall p Hp). cbn. auto.
    + intros H. apply Hnone. intros t0 Ht0. apply H. cbn. auto.
Qed.

(** A loop that never sees the flag set runs to the end. *)
Lemma mainLoop_neverCancelled (timestamps : list float) (i : nat) (st : Locals) :
  (loop neverCancelled timestamps i st).1.1 = false.
Proof.
  revert i st. induction timestamps as [|t rest IH]; intros i st; [reflexivity|].
  rewrite mainLoop_cons. unfold neverCancelled at 1.
  destruct (point t); [|apply IH]. cbv zeta.
  destruct (negb _ && _)%bool; [|apply IH].
  specialize (IH (S i)
    (mkLocals (addData (outputSeries st) t f)
       (Z.quot (int_mul (Z.of_nat i) 100) total) (validPoints st + 1) (skippedPoints st))).
  destruct (loop neverCancelled rest (S i) _) as [[c0 st0] sigs0]. exact IH.
Qed.

(** When the first read of the flag that returns true is the one of
    iteration [i + k], the loop does what an undisturbed loop does on the
    [k] timestamps before it, and stops there. *)
Lemma mainLoop_cancel (cancel : nat -> bool) (timestamps : list float)
      (i k : nat) (st : Locals) :
  (k < length timestamps)%nat ->
  (forall j, (j < k)%nat -> cancel (i + j)%nat = false) ->
  cancel (i + k)%nat = true ->
  loop cancel timestamps i st
  = let '(_, st', sigs) := loop neverCancelled (firstn k timestamps) i st in
    (true, st', sigs).
Proof.
  revert timestamps i st. induction k as [|k IH]; intros timestamps i st Hlen Hbefore Hat.
  - destruct timestamps as [|t rest]; [cbn in Hlen; lia|].
    rewrite mainLoop_cons. rewrite Nat.add_0_r in Hat. rewrite Hat. reflexivity.
  - destruct timestamps as [|t rest]; [cbn in Hlen; lia|].
    cbn [firstn length] in *. rewrite !mainLoop_cons.
    rewrite <- (Nat.add_0_r i) at 1. rewrite (Hbefore 0%nat) by lia.
    unfold neverCancelled at 1.
    assert (forall st0, loop cancel rest (S i) st0
            = let '(_, st', sigs) := loop neverCancelled (firstn k rest) (S i) st0 in
              (true, st', sigs)) as Hrest.
    { intros st0. apply IH; [lia| |].
      - intros j Hj. replace (S i + j)%nat with (i + S j)%nat by lia. apply Hbefore. lia.
      - replace (S i + k)%nat with (i + S k)%nat by lia. exact Hat. }
    destruct (point t); [|apply Hrest]. cbv zeta.
    destruct (negb _ && _)%bool; [|apply Hrest].
    rewrite Hrest.
    destruct (loop neverCancelled (firstn k rest) (S i) _) as [[c0 st0] sigs0].
    reflexivity.
Qed.
End MainLoop.

(** ** The points the loop writes *)

(** The points of the timestamps for which [point] has a value, in the
    order of the timestamps. *)
Definition computedPoints (point : float -> option float) (timestamps : list float)
  : list (float * float) :=
  flat_map (fun t => match point t with Some v => [(t, v)] | None => [] end) timestamps.

Lemma computedPoints_In (point : float -> option float) (timestamps : list float)
      (p : float * float) :
  In p (computedPoints point timestamps) <-> In p.1 timestamps /\ point p.1 = Some p.2.
Proof.
  unfold computedPoints. rewrite in_flat_map. split.
  - intros (t & Ht & Hp). destruct (point t) as [v|] eqn:E; [|destruct Hp].
    destruct Hp as [<-|[]]. cbn. auto.
  - intros [Ht Hp]. exists p.1. split; [exact Ht|]. rewrite Hp. destruct p. cbn. auto.
Qed.

Lemma computedPoints_ascending (point : float -> option float) (timestamps : list float) :
  ascending timestamps -> ascending (map fst (computedPoints point timestamps)).
Proof.
  unfold ascending. induction 1 as [|t ts Hts IH Ht]; [constructor|].
  change (computedPoints point (t :: ts))
    with ((match point t with Some v => [(t, v)] | None => [] end)
            ++ computedPoints point ts).
  destruct (point t) as [v|]; [|exact IH].
  cbn. constructor; [exact IH|].
  apply List.Forall_forall. intros u Hu. apply in_map_iff in Hu as (p & <- & Hp).
  apply computedPoints_In in Hp as [Hp _].
  rewrite List.Forall_forall in Ht. auto.
Qed.

Lemma firstn_ascending (k : nat) (l : list float) : ascending l -> ascending (firstn k l).
Proof.
  unfold ascending. revert k. induction l as [|x l IH]; intros k H.
  - rewrite firstn_nil. constructor.
  - destruct k as [|k]; [constructor|]. cbn.
    apply StronglySorted_inv in H as [Hl Hx]. constructor; [apply IH, Hl|].
    apply List.Forall_forall. intros u Hu.
    rewrite List.Forall_forall in Hx. apply Hx.
    rewrite <- (firstn_skipn k l). apply in_or_app. auto.
Qed.

Section MainLoopPoints.
Context (libm : Libm) (getValueAtTime : DataSeries -> float -> float).
Context (parser : MathExpressionParser) (requiredVars : list string).
Context (this : MathTraceComputer) (total : Z).

Local Abbreviation point := (computePoint libm getValueAtTime parser requiredVars this).
Local Abbreviation loop cancel :=
  (mainLoop libm getValueAtTime cancel parser requiredVars this total).

(** The loop visits a prefix of the timestamps, the whole of them unless
    it is cancelled, counts each visited timestamp once, and appends the
    computed points of the prefix to the output series. *)
Lemma mainLoop_points (cancel : nat -> bool) (timestamps : list float) (i : nat)
      (st st' : Locals) (c : bool) (sigs : list Signal) :
  loop cancel timestamps i st = (c, st', sigs) ->
  exists k,
    (k <= length timestamps)%nat
    /\ validPoints st' + skippedPoints st'
       = validPoints st + skippedPoints st + Z.of_nat k
    /\ points (outputSeries st')
       = points (outputSeries st) ++ computedPoints point (firstn k timestamps)
    /\ (c = false -> k = length timestamps).
Proof.
  revert i st st' c sigs.
  induction timestamps as [|t rest IH]; intros i st st' c sigs.
  { cbn. intros [= <- <- <-]. exists 0%nat. cbn. rewrite app_nil_r.
    split; [lia|]. split; [lia|]. split; reflexivity. }
  rewrite mainLoop_cons.
  destruct (cancel i).
  { intros [= <- <- <-]. exists 0%nat. cbn. rewrite app_nil_r.
    split; [lia|]. split; [lia|]. split; [reflexivity | discriminate]. }
  assert (forall st0 sigs0 new,
    loop cancel rest (S i) st0 = (c, st', sigs0) ->
    validPoints st0 + skippedPoints st0 = validPoints st + skippedPoints st + 1 ->
    points (outputSeries st0) = points (outputSeries st) ++ new ->
    new = match point t with Some v => [(t, v)] | None => [] end ->
    exists k,
      (k <= length (t :: rest))%nat
      /\ validPoints st' + skippedPoints st'
         = validPoints st + skippedPoints st + Z.of_nat k
      /\ points (outputSeries st')
         = points (outputSeries st) ++ computedPoints point (firstn k (t :: rest))
      /\ (c = false -> k = length (t :: rest))) as Hstep.
  { intros st0 sigs0 new Hloop Hcount Hpts Hnew.
    apply IH in Hloop as (k & Hk & Hsum & Hout & Hall).
    exists (S k). cbn [length firstn].
    split; [lia|]. split; [lia|].
    split; [|intros Hc; rewrite (Hall Hc); reflexivity].
    rewrite Hout, Hpts, <- List.app_assoc. f_equal.
    change (computedPoints point (t :: firstn k rest))
      with ((match point t with Some v => [(t, v)] | None => [] end)
              ++ computedPoints point (firstn k rest)).
    rewrite Hnew. reflexivity. }
  destruct (point t) as [result|] eqn:Hpoint.
  - cbv zeta.
    destruct (negb _ && _)%bool.
    + destruct (loop cancel rest (S i) _) as [[c0 st0] sigs0] eqn:Hloop.
      intros [= <- <- <-].
      apply (Hstep _ _ [(t, result)] Hloop); cbn; [lia | reflexivity | reflexivity].
    + intros Hloop.
      apply (Hstep _ _ [(t, result)] Hloop); cbn; [lia | reflexivity | reflexivity].
  - intros Hloop.
    apply (Hstep _ _ [] Hloop); cbn; [lia | rewrite app_nil_r; reflexivity | reflexivity].
Qed.
End MainLoopPoints.

(** ** Progress values *)

(** Strictly increasing, and above [lo]. *)
Fixpoint increasingFrom (lo : Z) (l : list Z) : Prop :=
  match l with
  | [] => True
  | p :: l' => lo < p /\ increasingFrom p l'
  end.

(** [p] is the percentage [(i * 100) / total] of an iteration [i] of the
    loop, and a multiple of 10. *)
Definition tenPercentBoundary (total p : Z) : Prop :=
  exists i, 0 <= i < total /\ p = (i * 100) / total /\ p mod 10 = 0.

Lemma wrap32_small (z : Z) : -2147483648 <= z <= 2147483647 -> wrap32 z = z.
Proof. intros H. unfold wrap32. rewrite Z.mod_small by lia. lia. Qed.

(** Beyond that range the product wraps (signed overflow is undefined in
    C++; the usual targets wrap): in a union of 30,000,000 timestamps the
    percentage computed at iteration 21,700,000 is -70, a multiple of 10.
    The claims about progress are therefore stated for unions in which
    [i * 100] stays within [int]. *)
Lemma percentage_wraps :
  Z.quot (int_mul 21700000 100) 30000000 = -70 /\ Z.rem (-70) 10 = 0.
Proof. split; reflexivity. Qed.

Lemma percentage_bounds (total i : Z) :
  0 <= i < total -> 0 <= (i * 100) / total <= 99.
Proof.
  intros H. split; [apply Z.div_pos; lia|].
  assert ((i * 100) / total < 100); [|lia].
  apply Z.div_lt_upper_bound; lia.
Qed.

Lemma percentage_mono (total i j : Z) :
  0 < total -> 0 <= i <= j -> (i * 100) / total <= (j * 100) / total.
Proof. intros Ht H. apply Z.div_le_mono; lia. Qed.

Lemma increasingFrom_app (lo p : Z) (l : list Z) :
  increasingFrom lo l -> Forall (fun x => x < p) l -> lo < p ->
  increasingFrom lo (l ++ [p]).
Proof.
  revert lo. induction l as [|x l IH]; intros lo; cbn; [tauto|].
  intros [Hx Hl] Hall Hlo. apply Forall_inv in Hall as Hxp. apply Forall_inv_tail in Hall.
  split; [assumption|]. apply IH; assumption.
Qed.

Lemma increasingFrom_length (lo : Z) (l : list Z) :
  -1 <= lo <= 99 -> increasingFrom lo l ->
  Forall (fun p => p mod 10 = 0 /\ p <= 99) l ->
  Z.of_nat (length l) <= 9 - lo / 10.
Proof.
  revert lo. induction l as [|p l IH]; intros lo Hlo; cbn [length increasingFrom].
  - intros _ _. change (Z.of_nat 0) with 0. Z.div_mod_to_equations. lia.
  - intros [Hp Hl] Hall. apply Forall_inv in Hall as Hhead. destruct Hhead as [Hmod Hle].
    apply Forall_inv_tail in Hall.
    specialize (IH p ltac:(lia) Hl Hall).
    rewrite Nat2Z.inj_succ.
    assert (lo / 10 < p / 10); [|lia].
    Z.div_mod_to_equations. lia.
Qed.

Section Progress.
Context (libm : Libm) (getValueAtTime : DataSeries -> float -> float).
Context (cancelRequested : nat -> bool).
Context (parser : MathExpressionParser) (requiredVars : list string).
Context (this : MathTraceComputer) (total : Z).

(** [i * 100] stays within [int] for every iteration index. *)
Hypothesis no_overflow : (total - 1) * 100 <= 2147483647.

(** Inside the loop the emitted values increase strictly, starting above
    [lastProgress], and each is the percentage of an iteration at a
    multiple of 10. *)
Lemma mainLoop_progress (timestamps : list float) (i : nat) (st st' : Locals)
      (c : bool) (sigs : list Signal) :
  Z.of_nat i + Z.of_nat (length timestamps) <= total ->
  -1 <= lastProgress st <= (Z.of_nat i * 100) / total ->
  mainLoop libm getValueAtTime cancelRequested parser requiredVars this total
    timestamps i st = (c, st', sigs) ->
  increasingFrom (lastProgress st) (progressValues sigs)
  /\ Forall (tenPercentBoundary total) (progressValues sigs).
Proof.
  revert i st st' c sigs.
  induction timestamps as [|t rest IH]; intros i st st' c sigs Hi Hlast.
  { cbn. intros [= <- <- <-]. split; [exact I | constructor]. }
  rewrite mainLoop_cons. cbn [length] in Hi. rewrite Nat2Z.inj_succ in Hi.
  destruct (cancelRequested i).
  { intros [= <- <- <-]. split; [exact I | constructor]. }
  assert (0 < total) as Htotal by lia.
  assert (0 <= Z.of_nat i < total) as Hrange by lia.
  assert ((Z.of_nat i * 100) / total <= (Z.of_nat (S i) * 100) / total) as Hmono
      by (apply percentage_mono; lia).
  pose proof (percentage_bounds total (Z.of_nat i) Hrange) as Hbounds.
  assert (Z.quot (int_mul (Z.of_nat i) 100) total = (Z.of_nat i * 100) / total) as Hquot.
  { unfold int_mul. rewrite wrap32_small by nia. apply Z.quot_div_nonneg; lia. }
  destruct (computePoint _ _ _ _ _ t) as [result|].
  - cbv zeta. rewrite Hquot.
    set (progress := (Z.of_nat i * 100) / total) in *.
    destruct (negb (progress =? lastProgress st) && (Z.rem progress 10 =? 0))%bool eqn:Hemit.
    + apply andb_true_iff in Hemit as [Hne Hrem].
      apply negb_true_iff, Z.eqb_neq in Hne. apply Z.eqb_eq in Hrem.
      rewrite Z.rem_mod_nonneg in Hrem by lia.
      destruct (mainLoop _ _ _ _ _ _ _ rest (S i) _) as [[c0 st0] sigs0] eqn:Hloop.
      intros [= <- <- <-].
      apply IH in Hloop as [Hinc Hall]; [|lia|cbn [lastProgress]; lia].
      cbn [lastProgress progressValues increasingFrom] in *.
      split; [split; [lia | exact Hinc]|].
      constructor; [|exact Hall].
      exists (Z.of_nat i). auto.
    + intros Hloop.
      apply IH in Hloop; [exact Hloop | lia | cbn [lastProgress]; lia].
  - intros Hloop.
    apply IH in Hloop; [exact Hloop | lia | cbn [lastProgress]; lia].
Qed.
End Progress.

(** ** The checks before the loop *)

Lemma prepare_inr (this : MathTraceComputer) (parser : MathExpressionParser)
      (requiredVars : list string) (timestamps : list float) :
  prepare this = Some (inr (parser, requiredVars, timestamps)) ->
  parse (currentExpression this) freshParser = Some (true, parser)
  /\ requiredVars = getVariables parser
  /\ timestamps = collectTimestamps (currentVariableMapping this)
  /\ timestamps <> [].
Proof.
  unfold prepare, freshParser.
  destruct (parse _ _) as [[[] p]|]; [|discriminate|discriminate].
  destruct (firstFailing _ _); [discriminate|].
  destruct (firstFailing _ _); [discriminate|].
  destruct (collectTimestamps _) eqn:E; [discriminate|].
  intros [= <- <- <-]. repeat split. discriminate.
Qed.

Lemma prepare_total (this : MathTraceComputer) : exists p, prepare this = Some p.
Proof.
  unfold prepare.
  destruct (parse_total (currentExpression this) (mkParser nullptr EmptyString))
    as (ok & parser & ->).
  destruct ok; [|eauto].
  destruct (firstFailing _ _); [eauto|].
  destruct (firstFailing _ _); [eauto|].
  destruct (collectTimestamps _); eauto.
Qed.

(** [startComputation] always returns. *)
Lemma startComputation_total (libm : Libm) (getValueAtTime : DataSeries -> float -> float)
      (cancelRequested : nat -> bool) (this : MathTraceComputer) :
  exists r, startComputation libm getValueAtTime cancelRequested this = Some r.
Proof.
  unfold startComputation.
  destruct (prepare_total this) as ([error|[[parser requiredVars] timestamps]] & ->);
    [eauto|].
  destruct (mainLoop _ _ _ _ _ _ _ _ _ _) as [[[] st] sigs]; [eauto|].
  destruct (validPoints st =? 0); eauto.
Qed.

(** A run that gets past the checks, in terms of its loop. *)
Lemma startComputation_loop (libm : Libm) (getValueAtTime : DataSeries -> float -> float)
      (cancelRequested : nat -> bool) (this : MathTraceComputer)
      (parser : MathExpressionParser) (requiredVars : list string)
      (timestamps : list float) :
  prepare this = Some (inr (parser, requiredVars, timestamps)) ->
  exists c st sigs,
    mainLoop libm getValueAtTime cancelRequested parser requiredVars this
      (Z.of_nat (length timestamps)) timestamps 0 (initialLocals this) = (c, st, sigs)
    /\ startComputation libm getValueAtTime cancelRequested this
       = Some (mkRun
                 (computationStarted :: sigs
                  ++ (if c then [computationFailed cancelledMessage]
                      else if validPoints st =? 0
                           then [computationFailed (noResultsMessage (skippedPoints st))]
                           else [progressUpdated 100; computationComplete]))
                 (if c then outputSeries st else update (outputSeries st))
                 (validPoints st) (skippedPoints st) c).
Proof.
  intros Hprep. unfold startComputation. rewrite Hprep. fold (initialLocals this).
  destruct (mainLoop _ _ _ _ _ _ _ _ _ _) as [[c st] sigs].
  exists c, st, sigs. split; [reflexivity|].
  destruct c; [reflexivity|]. destruct (validPoints st =? 0); reflexivity.
Qed.

(** ** Claims about the run *)

(** The four ways a run fails before its loop: the expression does not
    parse, a required variable has no binding, a required variable's
    series is empty, or the timestamp union is empty. *)
Definition structuralFailure (this : MathTraceComputer) : Prop :=
  match parse (currentExpression this) freshParser with
  | Some (false, _) => True
  | Some (true, parser) =>
      (exists var, In var (getVariables parser)
                   /\ mapContains (currentVariableMapping this) var = false)
      \/ (exists var, In var (getVariables parser)
                      /\ size (seriesOf (currentVariableMapping this) var) = 0%nat)
      \/ collectTimestamps (currentVariableMapping this) = []
  | None => False
  end.

Lemma structuralFailure_prepare (this : MathTraceComputer) :
  structuralFailure this -> exists error, prepare this = Some (inl error).
Proof.
  unfold structuralFailure, prepare, freshParser, firstFailing.
  destruct (parse _ _) as [[[] parser]|]; [|eauto|tauto].
  intros H.
  destruct (find _ (getVariables parser)) eqn:Hmissing; [eauto|].
  destruct (find _ (getVariables parser)) eqn:Hempty in |- *; [eauto|].
  destruct (collectTimestamps _) eqn:Hunion; [eauto|].
  exfalso. destruct H as [(var & Hin & Hvar)|[(var & Hin & Hvar)|H]].
  - apply (find_none _ _ Hmissing) in Hin. rewrite Hvar in Hin. discriminate.
  - apply (find_none _ _ Hempty) in Hin. rewrite Hvar in Hin. discriminate.
  - discriminate.
Qed.

(** C9. A run that fails before the loop (parse error, unbound variable,
    empty bound series, empty union) signals the failure and leaves the
    output series exactly as it was: its points and its update count are
    those of the series handed to [compute]. *)
Theorem failure_before_loop_keeps_output
        (libm : Libm) (getValueAtTime : DataSeries -> float -> float)
        (cancelRequested : nat -> bool) (this : MathTraceComputer) :
  structuralFailure this ->
  exists error,
    startComputation libm getValueAtTime cancelRequested this
    = Some (mkRun [computationStarted; computationFailed error]
              (currentOutputSeries this) 0 0 false).
Proof.
  intros H. apply structuralFailure_prepare in H as [error H].
  exists error. unfold startComputation. rewrite H. reflexivity.
Qed.

(** A computer whose expression does not parse, with two points already
    in its output series. *)
Definition unparsable : MathTraceComputer :=
  compute "a/" [("a"%string, seriesAt [0; 10]%float)]
    (mkOutput [(1, 1); (2, 4)]%float 3) 1000.

Lemma failure_before_loop_keeps_output_witness :
  exists error,
    startComputation exampleLibm linearInterpolation neverCancelled unparsable
    = Some (mkRun [computationStarted; computationFailed error]
              (mkOutput [(1, 1); (2, 4)]%float 3) 0 0 false).
Proof.
  apply (failure_before_loop_keeps_output exampleLibm linearInterpolation
           neverCancelled unparsable).
  vm_compute. exact I.
Defined.

(** The outcomes of a run as the specification names them, and the one a
    run reports through its last signal. *)
Inductive Outcome := Completed | Failed | Cancelled.

Definition reportedOutcome (r : Run) : option Outcome :=
  match List.last (signals r) computationStarted with
  | computationComplete => Some Completed
  | computationFailed _ => Some Failed
  | _ => None
  end.

(** C1 (amended). When the read of the flag at the top of iteration [k]
    is the first to return true, the run does what an undisturbed loop
    does on the [k] timestamps before, then stops: timestamp [k] is not
    processed, the points written so far stay in the output series (which
    is not [update]d), and the run ends with the failure signal carrying
    "Computation cancelled". *)
Theorem cancellation_stops_the_loop
        (libm : Libm) (getValueAtTime : DataSeries -> float -> float)
        (cancelRequested : nat -> bool) (this : MathTraceComputer)
        (parser : MathExpressionParser) (requiredVars : list string)
        (timestamps : list float) (k : nat) :
  prepare this = Some (inr (parser, requiredVars, timestamps)) ->
  (k < length timestamps)%nat ->
  (forall j, (j < k)%nat -> cancelRequested j = false) ->
  cancelRequested k = true ->
  exists st sigs,
    mainLoop libm getValueAtTime neverCancelled parser requiredVars this
      (Z.of_nat (length timestamps)) (firstn k timestamps) 0 (initialLocals this)
    = (false, st, sigs)
    /\ startComputation libm getValueAtTime cancelRequested this
       = Some (mkRun (computationStarted :: sigs ++ [computationFailed "Computation cancelled"])
                 (outputSeries st) (validPoints st) (skippedPoints st) true)
    /\ validPoints st + skippedPoints st = Z.of_nat k
    /\ Z.of_nat (length (points (outputSeries st))) = validPoints st
    /\ updates (outputSeries st) = updates (currentOutputSeries this).
Proof.
  intros Hprep Hk Hbefore Hat.
  destruct (startComputation_loop libm getValueAtTime cancelRequested this _ _ _ Hprep)
    as (c & st & sigs & Hloop & Hrun).
  rewrite (mainLoop_cancel libm getValueAtTime parser requiredVars this _
             cancelRequested timestamps 0 k (initialLocals this) Hk Hbefore Hat) in Hloop.
  pose proof (mainLoop_neverCancelled libm getValueAtTime parser requiredVars this
                (Z.of_nat (length timestamps)) (firstn k timestamps) 0 (initialLocals this))
    as Hnever.
  destruct (mainLoop _ _ neverCancelled _ _ _ _ _ _ _) as [[c0 st0] sigs0] eqn:Hprefix.
  cbn in Hnever. subst c0. injection Hloop as <- <- <-.
  exists st0, sigs0. split; [reflexivity|]. split; [exact Hrun|].
  apply mainLoop_effect in Hprefix
    as (_ & _ & _ & Heq & (added & Hpts & Hlen & _) & Hupd & _ & _).
  specialize (Heq eq_refl). rewrite length_firstn in Heq.
  cbn [initialLocals validPoints skippedPoints outputSeries clearData points updates] in *.
  rewrite Hpts. cbn [app]. split; [lia|]. split; [lia | exact Hupd].
Qed.

(** A computer over ten samples, and a controller that sets the flag
    while iteration 1 is running. *)
Definition tenSamples : MathTraceComputer :=
  compute "a" [("a"%string, seriesAt [0; 1; 2; 3; 4; 5; 6; 7; 8; 9]%float)]
    (mkOutput [] 0) 1000.

Definition cancelFromSecondRead : nat -> bool := fun i => (2 <=? i)%nat.

Lemma cancellation_stops_the_loop_witness :
  exists st sigs,
    mainLoop exampleLibm linearInterpolation neverCancelled
      (mkParser (variableNode "a") "") ["a"%string] tenSamples 10
      [0; 1]%float 0 (initialLocals tenSamples)
    = (false, st, sigs)
    /\ startComputation exampleLibm linearInterpolation cancelFromSecondRead tenSamples
       = Some (mkRun (computationStarted :: sigs ++ [computationFailed "Computation cancelled"])
                 (outputSeries st) (validPoints st) (skippedPoints st) true)
    /\ validPoints st + skippedPoints st = 2
    /\ Z.of_nat (length (points (outputSeries st))) = validPoints st
    /\ updates (outputSeries st) = 0%nat.
Proof.
  apply (cancellation_stops_the_loop exampleLibm linearInterpolation cancelFromSecondRead
           tenSamples (mkParser (variableNode "a") "") ["a"%string]
           [0; 1; 2; 3; 4; 5; 6; 7; 8; 9]%float 2).
  - reflexivity.
  - cbn. lia.
  - intros [|[|j]] Hj; [reflexivity | reflexivity | lia].
  - reflexivity.
Defined.

(** C1 as stated fails: the run cancelled above reports through
    [computationFailed], the signal of a failed run; the class has no
    signal of its own for cancellation. *)
Lemma cancelled_run_reports_failed :
  exists r,
    startComputation exampleLibm linearInterpolation cancelFromSecondRead tenSamples = Some r
    /\ cancelled r = true
    /\ List.last (signals r) computationStarted = computationFailed "Computation cancelled"
    /\ reportedOutcome r = Some Failed.
Proof. eexists. split; [reflexivity|]. repeat split. Qed.

(** C3 (amended). When the loop runs to its end, every timestamp of the
    union has been counted once, as valid or as skipped; the output series
    holds exactly the valid points, that is, one point [(t, v)] for each
    timestamp [t] of the union at which the loop body computes a value
    [v], in the order of the union, and nothing else, as many as were
    counted valid; it has been [update]d once; and the run ends with
    [computationFailed] naming the skipped count when no point is valid,
    with [progressUpdated 100] and [computationComplete] otherwise.
    [computationComplete] has no parameter: the counts are not part of the
    report. When every timestamp is skipped the run fails with a skipped
    count equal to the size of the union. *)
Theorem loop_completion_report
        (libm : Libm) (getValueAtTime : DataSeries -> float -> float)
        (cancelRequested : nat -> bool) (this : MathTraceComputer)
        (parser : MathExpressionParser) (requiredVars : list string)
        (timestamps : list float) (r : Run) :
  prepare this = Some (inr (parser, requiredVars, timestamps)) ->
  startComputation libm getValueAtTime cancelRequested this = Some r ->
  cancelled r = false ->
  valid r + skipped r = Z.of_nat (length timestamps)
  /\ points (output r)
     = computedPoints (computePoint libm getValueAtTime parser requiredVars this)
         timestamps
  /\ Z.of_nat (length (points (output r))) = valid r
  /\ updates (output r) = S (updates (currentOutputSeries this))
  /\ (exists sigs,
         Forall isProgress sigs
         /\ signals r
            = computationStarted :: sigs
              ++ (if valid r =? 0
                  then [computationFailed (noResultsMessage (skipped r))]
                  else [progressUpdated 100; computationComplete]))
  /\ (valid r = 0 -> skipped r = Z.of_nat (length timestamps)
                     /\ reportedOutcome r = Some Failed)
  /\ (valid r <> 0 -> reportedOutcome r = Some Completed)
  /\ ((forall t, In t timestamps ->
                 computePoint libm getValueAtTime parser requiredVars this t = None) ->
      valid r = 0).
Proof.
  intros Hprep Hrun Hc.
  destruct (startComputation_loop libm getValueAtTime cancelRequested this _ _ _ Hprep)
    as (c & st & sigs & Hloop & Hrun').
  rewrite Hrun in Hrun'. injection Hrun' as ->. cbn [cancelled] in Hc. subst c.
  cbn [valid skipped output signals].
  pose proof Hloop as Hexact.
  apply mainLoop_points in Hexact as (k & _ & _ & Hexact & Hk).
  rewrite (Hk eq_refl), firstn_all in Hexact.
  apply mainLoop_effect in Hloop
    as (_ & _ & _ & Heq & (added & Hpts & Hlen & _) & Hupd & Hsig & Hnone).
  specialize (Heq eq_refl).
  cbn [initialLocals validPoints skippedPoints outputSeries clearData points updates update]
    in *.
  split; [lia|]. split; [exact Hexact|].
  rewrite Hpts. cbn [app].
  split; [lia|]. split; [rewrite Hupd; reflexivity|].
  split; [exists sigs; split; [exact Hsig | reflexivity]|].
  assert (forall tail d, tail <> [] ->
            List.last (computationStarted :: sigs ++ tail) d = List.last tail d) as Hlast.
  { intros tail d Htail. change (computationStarted :: sigs ++ tail)
      with ((computationStarted :: sigs) ++ tail).
    destruct (exists_last Htail) as (pre & x & ->).
    rewrite List.app_assoc, !last_last. reflexivity. }
  split; [|split].
  - intros Hv. split; [lia|]. unfold reportedOutcome. cbn [signals].
    rewrite Hv. cbn [Z.eqb]. rewrite Hlast by discriminate. reflexivity.
  - intros Hv. unfold reportedOutcome. cbn [signals].
    apply Z.eqb_neq in Hv. rewrite Hv. rewrite Hlast by discriminate. reflexivity.
  - intros H. rewrite (Hnone H). reflexivity.
Qed.

(** A computer whose expression divides by zero at every timestamp. *)
Definition alwaysDividesByZero : MathTraceComputer :=
  compute "a/0" [("a"%string, seriesAt [0; 10; 20]%float)] (mkOutput [] 0) 1000.

Lemma loop_completion_report_witness :
  startComputation exampleLibm linearInterpolation neverCancelled alwaysDividesByZero
  = Some (mkRun [computationStarted; computationFailed (noResultsMessage 3)]
            (mkOutput [] 1) 0 3 false)
  /\ 0 + 3 = Z.of_nat (length [0; 10; 20]%float).
Proof.
  assert (startComputation exampleLibm linearInterpolation neverCancelled alwaysDividesByZero
          = Some (mkRun [computationStarted; computationFailed (noResultsMessage 3)]
                    (mkOutput [] 1) 0 3 false)) as Hrun by reflexivity.
  split; [exact Hrun|].
  exact (proj1 (loop_completion_report exampleLibm linearInterpolation neverCancelled
                  alwaysDividesByZero
                  (mkParser (operatorNode OP_DIVIDE (variableNode "a") (numberNode 0)) "")
                  ["a"%string] [0; 10; 20]%float _ eq_refl Hrun eq_refl)).
Defined.

(** Two computers over four samples each; the first skips one timestamp,
    the second two. *)
Definition oneSkipped : MathTraceComputer :=
  compute "1" [("a"%string, seriesAt [0; 10; 2000; 2010]%float)] (mkOutput [] 0) 1000.
Definition twoSkipped : MathTraceComputer :=
  compute "1" [("a"%string, seriesAt [0; 2000; 4000; 4010]%float)] (mkOutput [] 0) 1000.

(** C3 as stated fails: the completion report carries no counts. The two
    runs below end with different valid and skipped counts and emit the
    same signals. *)
Lemma completion_report_carries_no_counts :
  exists r1 r2,
    startComputation exampleLibm linearInterpolation neverCancelled oneSkipped = Some r1
    /\ startComputation exampleLibm linearInterpolation neverCancelled twoSkipped = Some r2
    /\ signals r1 = signals r2
    /\ reportedOutcome r1 = Some Completed
    /\ (valid r1, skipped r1) = (3, 1)
    /\ (valid r2, skipped r2) = (2, 2).
Proof. do 2 eexists. repeat split. Qed.

(** Whether the run ended with [computationComplete]. *)
Definition succeeded (r : Run) : bool :=
  match reportedOutcome r with Some Completed => true | _ => false end.

Lemma increasingFrom_weaken (lo lo' : Z) (l : list Z) :
  lo' <= lo -> increasingFrom lo l -> increasingFrom lo' l.
Proof. destruct l; cbn; [tauto|]. intros ? [? ?]. split; [lia | assumption]. Qed.

Lemma increasingFrom_sorted (lo : Z) (l : list Z) :
  increasingFrom lo l -> Sorted Z.le l.
Proof.
  revert lo. induction l as [|p l IH]; intros lo; [constructor|].
  cbn. intros [_ Hl]. constructor; [eapply IH; exact Hl|].
  destruct l as [|q l]; constructor. cbn in Hl. lia.
Qed.

Lemma progressValues_app (l1 l2 : list Signal) :
  progressValues (l1 ++ l2) = progressValues l1 ++ progressValues l2.
Proof.
  induction l1 as [|s l1 IH]; [reflexivity|].
  destruct s; cbn; rewrite IH; reflexivity.
Qed.

(** C4 (amended). In a run whose union is small enough for [i * 100] to
    stay within [int], the progress values increase strictly (so they are
    non-decreasing); those emitted inside the loop are percentages
    [(i * 100) / total] of loop iterations that are multiples of 10, at
    most 10 of them; a successful run adds a final 100, and no other run
    adds anything: at most 11 values in all. *)
Theorem progress_values
        (libm : Libm) (getValueAtTime : DataSeries -> float -> float)
        (cancelRequested : nat -> bool) (this : MathTraceComputer) (r : Run) :
  (Z.of_nat (length (collectTimestamps (currentVariableMapping this))) - 1) * 100
  <= 2147483647 ->
  startComputation libm getValueAtTime cancelRequested this = Some r ->
  increasingFrom (-1) (progressValues (signals r))
  /\ Sorted Z.le (progressValues (signals r))
  /\ (length (progressValues (signals r)) <= 11)%nat
  /\ exists inLoop,
      progressValues (signals r) = inLoop ++ (if succeeded r then [100] else [])
      /\ (length inLoop <= 10)%nat
      /\ Forall (tenPercentBoundary
                   (Z.of_nat (length (collectTimestamps (currentVariableMapping this)))))
                inLoop.
Proof.
  intros Hsmall Hrun.
  assert (increasingFrom (-1) (progressValues (signals r))
          /\ (length (progressValues (signals r)) <= 11)%nat
          /\ exists inLoop,
              progressValues (signals r) = inLoop ++ (if succeeded r then [100] else [])
              /\ (length inLoop <= 10)%nat
              /\ Forall (tenPercentBoundary
                   (Z.of_nat (length (collectTimestamps (currentVariableMapping this)))))
                   inLoop) as (H1 & H2 & H3).
  2:{ split; [exact H1|]. split; [eapply increasingFrom_sorted; exact H1|].
      split; [exact H2 | exact H3]. }
  destruct (prepare_total this) as ([error|[[parser requiredVars] timestamps]] & Hprep).
  { unfold startComputation in Hrun. rewrite Hprep in Hrun. injection Hrun as <-.
    cbn. split; [exact I|]. split; [lia|]. exists []. cbn.
    split; [reflexivity|]. split; [lia | constructor]. }
  destruct (startComputation_loop libm getValueAtTime cancelRequested this _ _ _ Hprep)
    as (c & st & sigs & Hloop & Hrun').
  rewrite Hrun in Hrun'. injection Hrun' as ->.
  apply prepare_inr in Hprep as (_ & _ & Hts & Hne).
  rewrite <- Hts in Hsmall |- *. clear Hts.
  pose proof Hloop as Heffect.
  apply mainLoop_effect in Heffect as (_ & _ & _ & _ & _ & _ & Hsig & _).
  apply mainLoop_progress in Hloop as [Hinc Hall];
    [|exact Hsmall | lia | cbn [initialLocals lastProgress];
                           pose proof (Z.div_pos (Z.of_nat 0 * 100)
                                         (Z.of_nat (length timestamps)));
                           destruct timestamps; [congruence | cbn [length] in *; lia]].
  cbn [initialLocals lastProgress] in Hinc.
  set (total := Z.of_nat (length timestamps)) in *.
  assert (Forall (fun p => p mod 10 = 0 /\ p <= 99) (progressValues sigs)) as Hbound.
  { rewrite List.Forall_forall in Hall. apply List.Forall_forall. intros p Hp.
    destruct (Hall p Hp) as (i & Hi & -> & Hmod).
    split; [exact Hmod | apply percentage_bounds; exact Hi]. }
  assert (length (progressValues sigs) <= 10)%nat as Hlen.
  { pose proof (increasingFrom_length (-1) _ ltac:(lia) Hinc Hbound) as H.
    change (-1 / 10) with (-1) in H. lia. }
  assert (forall tail d, tail <> [] ->
            List.last (computationStarted :: sigs ++ tail) d = List.last tail d) as Hlast.
  { intros tail d Htail. change (computationStarted :: sigs ++ tail)
      with ((computationStarted :: sigs) ++ tail).
    destruct (exists_last Htail) as (pre & x & ->).
    rewrite List.app_assoc, !last_last. reflexivity. }
  unfold succeeded, reportedOutcome. cbn [signals progressValues].
  rewrite progressValues_app.
  destruct c; [|destruct (validPoints st =? 0)];
    rewrite Hlast by discriminate; cbn [List.last progressValues].
  - rewrite app_nil_r. split; [exact Hinc|]. split; [lia|].
    exists (progressValues sigs). rewrite app_nil_r. auto.
  - rewrite app_nil_r. split; [exact Hinc|]. split; [lia|].
    exists (progressValues sigs). rewrite app_nil_r. auto.
  - split; [|split].
    + apply increasingFrom_app; [exact Hinc| |lia].
      rewrite List.Forall_forall in Hbound. apply List.Forall_forall.
      intros p Hp. destruct (Hbound p Hp). lia.
    + rewrite length_app. cbn [length]. lia.
    + exists (progressValues sigs). auto.
Qed.

(** What the undisturbed run over [tenSamples] leaves behind. *)
Definition tenSamplesRun : Run :=
  mkRun
    [computationStarted; progressUpdated 0; progressUpdated 10; progressUpdated 20;
     progressUpdated 30; progressUpdated 40; progressUpdated 50; progressUpdated 60;
     progressUpdated 70; progressUpdated 80; progressUpdated 90; progressUpdated 100;
     computationComplete]
    (mkOutput [(0, 0); (1, 1); (2, 2); (3, 3); (4, 4); (5, 5); (6, 6); (7, 7);
               (8, 8); (9, 9)]%float 1)
    10 0 false.

Lemma progress_values_witness :
  (Z.of_nat (length (collectTimestamps (currentVariableMapping tenSamples))) - 1) * 100
  <= 2147483647
  /\ startComputation exampleLibm linearInterpolation neverCancelled tenSamples
     = Some tenSamplesRun
  /\ increasingFrom (-1) (progressValues (signals tenSamplesRun)).
Proof.
  assert ((Z.of_nat (length (collectTimestamps (currentVariableMapping tenSamples))) - 1) * 100
          <= 2147483647) as Hsmall by (vm_compute; discriminate).
  assert (startComputation exampleLibm linearInterpolation neverCancelled tenSamples
          = Some tenSamplesRun) as Hrun by (vm_compute; reflexivity).
  split; [exact Hsmall|]. split; [exact Hrun|].
  exact (proj1 (progress_values exampleLibm linearInterpolation neverCancelled tenSamples
                  tenSamplesRun Hsmall Hrun)).
Defined.

(** C4 as stated fails: a successful run over ten timestamps emits the ten
    values 0, 10, ..., 90 inside the loop and then 100, eleven in all. *)
Lemma eleven_progress_values :
  startComputation exampleLibm linearInterpolation neverCancelled tenSamples
  = Some tenSamplesRun
  /\ progressValues (signals tenSamplesRun) = [0; 10; 20; 30; 40; 50; 60; 70; 80; 90; 100]
  /\ length (progressValues (signals tenSamplesRun)) = 11%nat
  /\ succeeded tenSamplesRun = true.
Proof. split; [vm_compute; reflexivity | repeat split]. Qed.

(* ===================================================================== *)
(** * Part III. Further properties of the two components and their caller *)
(* ===================================================================== *)

(** ** The tokenizer *)

(** The names the tokenizer does not turn into variables. *)
Definition reservedName (s : string) : bool :=
  (isFunctionName s || String.eqb s "pi" || String.eqb s "e")%bool.

(** What holds of every token before the end marker. *)
Definition tokenOk (t : Token) : bool :=
  match tokenType t with
  | TOKEN_END => false
  | TOKEN_NUMBER => true
  | TOKEN_VARIABLE => negb (reservedName (value t))
  | TOKEN_FUNCTION => isFunctionName (value t)
  | TOKEN_OPERATOR => existsb (String.eqb (value t)) binaryOperators
  | TOKEN_LEFT_PAREN => String.eqb (value t) "("
  | TOKEN_RIGHT_PAREN => String.eqb (value t) ")"
  | TOKEN_COMMA => String.eqb (value t) ","
  end.

(** The characters at which the scanning loop starts a token or skips. *)
Definition startsToken (c : QChar) : bool :=
  (isSpace c || isDigit c || Ascii.eqb c "." || isLetter c || isOperator c
   || Ascii.eqb c "(" || Ascii.eqb c ")" || Ascii.eqb c ",")%bool.

(** The characters a number or identifier lexeme is made of. *)
Definition lexemeChar (c : QChar) : bool :=
  (isDigit c || Ascii.eqb c "." || isLetterOrNumber c || Ascii.eqb c "_")%bool.

Lemma identifierToken_ok (lexeme : string) : tokenOk (identifierToken lexeme) = true.
Proof.
  unfold identifierToken, tokenOk, reservedName.
  destruct (isFunctionName lexeme) eqn:Hf; cbn; [exact Hf|].
  destruct (String.eqb lexeme "pi") eqn:Hpi; cbn; [reflexivity|].
  destruct (String.eqb lexeme "e") eqn:He; cbn; [reflexivity|].
  rewrite Hf, Hpi, He. reflexivity.
Qed.

Lemma operatorToken_ok (c : QChar) :
  isOperator c = true -> tokenOk (mkToken TOKEN_OPERATOR (charString c) 0) = true.
Proof.
  unfold isOperator. intros H.
  repeat (apply orb_true_iff in H as [H|H]);
    apply Ascii.eqb_eq in H; subst c; reflexivity.
Qed.

(** The scanning loop either fails, with an empty list and a message that
    names an unacceptable character and its index, or extends the list by
    well-formed tokens and the end marker, with no message. *)
Lemma tokenize_loop_spec (expr : list QChar) (i skip : nat) (acc tokens : list Token)
      (err : string) :
  tokenize_loop expr i skip acc = (tokens, err) ->
  (err = EmptyString
   /\ exists new, tokens = acc ++ new ++ [endToken] /\ forallb tokenOk new = true)
  \/ (tokens = []
      /\ exists j c, nth_error expr j = Some c /\ startsToken c = false
                     /\ err = invalidCharacter (i + j) c).
Proof.
  revert i skip acc.
  induction expr as [|c rest IH]; intros i skip acc.
  { cbn. intros [= <- <-]. left. split; [reflexivity|]. exists []. auto. }
  assert (forall skip' acc' new0,
            acc' = acc ++ new0 -> forallb tokenOk new0 = true ->
            tokenize_loop rest (S i) skip' acc' = (tokens, err) ->
            (err = EmptyString
             /\ exists new, tokens = acc ++ new ++ [endToken] /\ forallb tokenOk new = true)
            \/ (tokens = []
                /\ exists j c0, nth_error (c :: rest) j = Some c0 /\ startsToken c0 = false
                                /\ err = invalidCharacter (i + j) c0)) as Hnext.
  { intros skip' acc' new0 -> Hnew0 Hloop.
    apply IH in Hloop as [(-> & new & -> & Hnew)|(-> & j & c0 & Hj & Hc0 & ->)].
    - left. split; [reflexivity|]. exists (new0 ++ new).
      rewrite <- !List.app_assoc. split; [reflexivity|].
      rewrite forallb_app, Hnew0, Hnew. reflexivity.
    - right. split; [reflexivity|]. exists (S j), c0.
      split; [exact Hj|]. split; [exact Hc0|]. f_equal. lia. }
  cbn [tokenize_loop]. destruct skip as [|skip'].
  2:{ apply (Hnext skip' acc []); [rewrite app_nil_r; reflexivity | reflexivity]. }
  destruct (isSpace c) eqn:Hspace.
  { apply (Hnext 0%nat acc []); [rewrite app_nil_r; reflexivity | reflexivity]. }
  destruct (isDigit c || Ascii.eqb c ".")%bool eqn:Hnum.
  { cbv zeta. eapply Hnext; [reflexivity | reflexivity]. }
  destruct (isLetter c) eqn:Hletter.
  { eapply Hnext; [reflexivity|]. cbn [forallb]. rewrite identifierToken_ok. reflexivity. }
  destruct (isOperator c) eqn:Hop.
  { eapply Hnext; [reflexivity|]. cbn [forallb]. rewrite operatorToken_ok by exact Hop.
    reflexivity. }
  destruct (Ascii.eqb c "(") eqn:Hlp.
  { apply Ascii.eqb_eq in Hlp. subst c. eapply Hnext; [reflexivity | reflexivity]. }
  destruct (Ascii.eqb c ")") eqn:Hrp.
  { apply Ascii.eqb_eq in Hrp. subst c. eapply Hnext; [reflexivity | reflexivity]. }
  destruct (Ascii.eqb c ",") eqn:Hcomma.
  { apply Ascii.eqb_eq in Hcomma. subst c. eapply Hnext; [reflexivity | reflexivity]. }
  intros [= <- <-]. right. split; [reflexivity|]. exists 0%nat, c.
  split; [reflexivity|]. split; [|f_equal; lia].
  unfold startsToken. apply orb_false_iff in Hnum as [Hd Hdot].
  rewrite Hspace, Hd, Hdot, Hletter, Hop, Hlp, Hrp, Hcomma. reflexivity.
Qed.

(** [QString::trimmed] of the expression, as the tokenizer scans it. *)
Definition trimmedText (expression : string) : list QChar :=
  trimmed (list_ascii_of_string expression).

(** The two ways [tokenize] ends. *)
Lemma tokenize_cases (expression : string) :
  ((tokenize expression).2 = EmptyString
   /\ exists body, (tokenize expression).1 = body ++ [endToken]
                   /\ forallb tokenOk body = true)
  \/ ((tokenize expression).1 = []
      /\ exists j c, nth_error (trimmedText expression) j = Some c
                     /\ startsToken c = false
                     /\ (tokenize expression).2 = invalidCharacter j c).
Proof.
  unfold tokenize. fold (trimmedText expression).
  destruct (tokenize_loop (trimmedText expression) 0 0 []) as [tokens err] eqn:Hloop.
  apply tokenize_loop_spec in Hloop.
  cbn [fst snd].
  destruct Hloop as [(-> & new & -> & Hnew)|(-> & j & c & Hj & Hc & ->)].
  - left. split; [reflexivity|]. exists new. auto.
  - right. split; [reflexivity|]. exists j, c. auto.
Qed.

(** X1. [tokenize] either fails, returning no token and a message that
    names a character of the trimmed text at which no token can start,
    with its index; or it succeeds with no message, and the tokens are
    well-formed tokens followed by one end marker: no end marker before
    the last place, function tokens carry one of the seven function names,
    variable tokens never carry a function name, "pi" or "e". It succeeds
    whenever every character of the trimmed text can start a token. *)
Theorem tokenize_outcome (expression : string) :
  (((tokenize expression).2 = EmptyString
    /\ exists body, (tokenize expression).1 = body ++ [endToken]
                    /\ forallb tokenOk body = true)
   \/ ((tokenize expression).1 = []
       /\ exists j c, nth_error (trimmedText expression) j = Some c
                      /\ startsToken c = false
                      /\ (tokenize expression).2 = invalidCharacter j c))
  /\ (forallb startsToken (trimmedText expression) = true ->
      (tokenize expression).2 = EmptyString).
Proof.
  split; [apply tokenize_cases|].
  intros Hall. rewrite forallb_forall in Hall.
  destruct (tokenize_cases expression) as [[H _]|(_ & j & c & Hj & Hc & _)]; [exact H|].
  apply nth_error_In in Hj. apply Hall in Hj. congruence.
Qed.

(** ** The parser on the tokenizer's lists *)

Section ParserTokens.
Variable body : list Token.
Hypothesis body_ok : forallb tokenOk body = true.

Local Abbreviation tokens := (body ++ [endToken]).

(** [node] is assembled from tokens of [body]: its numbers are values of
    number tokens, its variables are lexemes of variable tokens. *)
Inductive builtFrom : NodePtr -> Prop :=
  | bf_number t :
      In t body -> tokenType t = TOKEN_NUMBER -> builtFrom (numberNode (tokenNumber t))
  | bf_variable t :
      In t body -> tokenType t = TOKEN_VARIABLE -> builtFrom (variableNode (value t))
  | bf_binary op l r :
      op <> OP_NEGATE -> builtFrom l -> builtFrom r -> builtFrom (operatorNode op l r)
  | bf_negate operand :
      builtFrom operand -> builtFrom (operatorNode OP_NEGATE operand nullptr)
  | bf_function f arg :
      builtFrom arg -> builtFrom (functionNode f arg).

(** The messages the parsing functions throw on such a list. *)
Definition syntaxError (e : string) : Prop :=
  e = "Expected '(' after function name"%string
  \/ e = "Expected ')' after function argument"%string
  \/ e = "Expected ')'"%string
  \/ exists t, In t tokens /\ e = ("Unexpected token: " ++ value t)%string.

(** No token at a position from [p] up to [p'] is a comma. *)
Definition noComma (p p' : nat) : Prop :=
  forall j t, (p <= j < p')%nat -> nth_error tokens j = Some t ->
              tokenType t <> TOKEN_COMMA.

(** What a parsing function started at [pos] returns on such a list: a
    node built from the tokens and a position at most that of the end
    marker, no comma having been passed; or one of the syntax errors. *)
Definition parsedFrom (pos : nat) (r : result (NodePtr * nat)) : Prop :=
  match r with
  | Ok (node, pos') =>
      (pos <= pos' <= length body)%nat /\ builtFrom node /\ noComma pos pos'
  | Throw e => syntaxError e
  | OutOfFuel => True
  end.

Lemma lookup_nth_error (l : list Token) (i : nat) : l !! i = nth_error l i.
Proof. revert i. induction l as [|x l IH]; intros [|i]; cbn; auto. Qed.

Lemma tokens_at (pos : nat) (t : Token) :
  tokens !! pos = Some t ->
  (In t body /\ (pos < length body)%nat /\ tokenOk t = true)
  \/ (pos = length body /\ t = endToken).
Proof.
  rewrite lookup_nth_error. intros H.
  destruct (Nat.lt_ge_cases pos (length body)) as [Hlt|Hge].
  - left. rewrite nth_error_app1 in H by exact Hlt.
    apply nth_error_In in H as Hin. split; [exact Hin|]. split; [exact Hlt|].
    rewrite forallb_forall in body_ok. auto.
  - right. rewrite nth_error_app2 in H by exact Hge.
    destruct (pos - length body)%nat as [|k] eqn:Hk; cbn in H.
    + injection H as <-. split; [lia | reflexivity].
    + destruct k; discriminate.
Qed.

(** A token of a type other than the end marker lies in [body]. *)
Lemma tokens_at_body (pos : nat) (t : Token) :
  tokens !! pos = Some t -> tokenType t <> TOKEN_END ->
  In t body /\ (pos < length body)%nat /\ tokenOk t = true.
Proof.
  intros H Hty. apply tokens_at in H as [H|[_ ->]]; [exact H|].
  exfalso. apply Hty. reflexivity.
Qed.

Lemma tokens_in (pos : nat) (t : Token) : tokens !! pos = Some t -> In t tokens.
Proof. rewrite lookup_nth_error. apply nth_error_In. Qed.

Lemma operatorAt_body (pos : nat) (op : string) :
  operatorAt tokens pos op = true ->
  (pos < length body)%nat /\ noComma pos (S pos).
Proof.
  unfold operatorAt. destruct (tokens !! pos) as [t|] eqn:Ht; [|discriminate].
  intros H. apply andb_true_iff in H as [Hty _].
  assert (tokenType t = TOKEN_OPERATOR) as Hop by (destruct (tokenType t); try discriminate; reflexivity).
  destruct (tokens_at_body pos t Ht ltac:(congruence)) as (_ & Hlt & _).
  split; [exact Hlt|]. intros j t' Hj Hj'. assert (j = pos) as -> by lia.
  rewrite <- lookup_nth_error, Ht in Hj'. injection Hj' as <-. congruence.
Qed.

Lemma tokenTypeAt_body (pos : nat) (ty : TokenType) :
  tokenTypeAt tokens pos ty = true -> ty <> TOKEN_END -> ty <> TOKEN_COMMA ->
  (pos < length body)%nat /\ noComma pos (S pos).
Proof.
  unfold tokenTypeAt. destruct (tokens !! pos) as [t|] eqn:Ht; [|discriminate].
  intros H Hend Hcomma.
  assert (tokenType t = ty) as Hty by (destruct (tokenType t), ty; try discriminate; reflexivity).
  destruct (tokens_at_body pos t Ht ltac:(congruence)) as (_ & Hlt & _).
  split; [exact Hlt|]. intros j t' Hj Hj'. assert (j = pos) as -> by lia.
  rewrite <- lookup_nth_error, Ht in Hj'. injection Hj' as <-. congruence.
Qed.

Lemma noComma_join (p q r : nat) : noComma p q -> noComma q r -> noComma p r.
Proof.
  intros H1 H2 j t Hj Ht. destruct (Nat.lt_ge_cases j q); [eapply H1 | eapply H2]; eauto; lia.
Qed.

Lemma noComma_empty (p : nat) : noComma p p.
Proof. intros j t Hj. lia. Qed.

(** A result obtained from [p'] is one from [p] when nothing between is a
    comma. *)
Lemma parsedFrom_from (p p' : nat) (r : result (NodePtr * nat)) :
  (p <= p')%nat -> noComma p p' -> parsedFrom p' r -> parsedFrom p r.
Proof.
  intros Hp Hc. destruct r as [[node q]| |]; cbn; [|tauto|tauto].
  intros (Hq & Hb & Hc'). split; [lia|]. split; [exact Hb|].
  eapply noComma_join; eassumption.
Qed.

Lemma parsedFrom_bind (p : nat) (r : result (NodePtr * nat))
      (k : NodePtr * nat -> result (NodePtr * nat)) :
  parsedFrom p r ->
  (forall node q, (p <= q <= length body)%nat -> builtFrom node -> noComma p q ->
                  parsedFrom p (k (node, q))) ->
  parsedFrom p (bind r k).
Proof.
  intros Hr Hk. destruct r as [[node q]| |]; cbn in *; [|exact Hr|exact I].
  destruct Hr as (Hq & Hb & Hc). apply Hk; assumption.
Qed.

Definition tokensInvariant (fuel : nat) : Prop :=
  (forall pos, (pos <= length body)%nat -> parsedFrom pos (parseExpression fuel tokens pos))
  /\ (forall left pos, builtFrom left -> (pos <= length body)%nat ->
                       parsedFrom pos (parseExpression_loop fuel tokens left pos))
  /\ (forall pos, (pos <= length body)%nat -> parsedFrom pos (parseTerm fuel tokens pos))
  /\ (forall left pos, builtFrom left -> (pos <= length body)%nat ->
                       parsedFrom pos (parseTerm_loop fuel tokens left pos))
  /\ (forall pos, (pos <= length body)%nat -> parsedFrom pos (parsePower fuel tokens pos))
  /\ (forall pos, (pos <= length body)%nat -> parsedFrom pos (parseUnary fuel tokens pos))
  /\ (forall pos, (pos <= length body)%nat -> parsedFrom pos (parsePrimary fuel tokens pos)).

Lemma tokensInvariant_holds (fuel : nat) : tokensInvariant fuel.
Proof.
  unfold tokensInvariant.
  induction fuel as [|n (IHe & IHel & IHt & IHtl & IHw & IHu & IHp)].
  { repeat split; intros; exact I. }
  repeat split.
  - (* parseExpression *)
    intros pos Hpos. cbn [parseExpression].
    apply parsedFrom_bind; [apply IHt; exact Hpos|].
    intros node q Hq Hb Hc.
    apply (parsedFrom_from pos q); [lia | exact Hc |]. apply IHel; [exact Hb | lia].
  - (* its loop *)
    intros left pos Hb Hpos. cbn [parseExpression_loop].
    destruct (operatorAt tokens pos "+" || operatorAt tokens pos "-")%bool eqn:Hop.
    2:{ cbn. split; [lia|]. split; [exact Hb | apply noComma_empty]. }
    assert ((pos < length body)%nat /\ noComma pos (S pos)) as [Hlt Hc0].
    { apply orb_true_iff in Hop as [H|H]; eapply operatorAt_body; eauto. }
    apply (parsedFrom_from pos (S pos)); [lia | exact Hc0 |].
    apply parsedFrom_bind; [apply IHt; lia|].
    intros node q Hq Hb1 Hc.
    apply (parsedFrom_from (S pos) q); [lia | exact Hc |].
    apply IHel; [|lia]. apply bf_binary; try assumption.
    destruct (operatorAt tokens pos "+"); discriminate.
  - (* parseTerm *)
    intros pos Hpos. cbn [parseTerm].
    apply parsedFrom_bind; [apply IHw; exact Hpos|].
    intros node q Hq Hb Hc.
    apply (parsedFrom_from pos q); [lia | exact Hc |]. apply IHtl; [exact Hb | lia].
  - (* its loop *)
    intros left pos Hb Hpos. cbn [parseTerm_loop].
    destruct (operatorAt tokens pos "*" || operatorAt tokens pos "/")%bool eqn:Hop.
    2:{ cbn. split; [lia|]. split; [exact Hb | apply noComma_empty]. }
    assert ((pos < length body)%nat /\ noComma pos (S pos)) as [Hlt Hc0].
    { apply orb_true_iff in Hop as [H|H]; eapply operatorAt_body; eauto. }
    apply (parsedFrom_from pos (S pos)); [lia | exact Hc0 |].
    apply parsedFrom_bind; [apply IHw; lia|].
    intros node q Hq Hb1 Hc.
    apply (parsedFrom_from (S pos) q); [lia | exact Hc |].
    apply IHtl; [|lia]. apply bf_binary; try assumption.
    destruct (operatorAt tokens pos "*"); discriminate.
  - (* parsePower *)
    intros pos Hpos. cbn [parsePower].
    apply parsedFrom_bind; [apply IHu; exact Hpos|].
    intros node q Hq Hb Hc.
    destruct (operatorAt tokens q "^") eqn:Hop.
    2:{ cbn. split; [lia|]. split; [exact Hb | exact Hc]. }
    apply operatorAt_body in Hop as [Hlt Hc0].
    apply (parsedFrom_from pos (S q)); [lia | eapply noComma_join; eassumption |].
    apply parsedFrom_bind; [apply IHw; lia|].
    intros right q2 Hq2 Hb2 Hc2. cbn. split; [lia|]. split; [|exact Hc2].
    apply bf_binary; [discriminate | exact Hb | exact Hb2].
  - (* parseUnary *)
    intros pos Hpos. cbn [parseUnary].
    destruct (operatorAt tokens pos "-") eqn:Hop; [|apply IHp; exact Hpos].
    apply operatorAt_body in Hop as [Hlt Hc0].
    apply (parsedFrom_from pos (S pos)); [lia | exact Hc0 |].
    apply parsedFrom_bind; [apply IHu; lia|].
    intros operand q Hq Hb Hc. cbn. split; [lia|]. split; [|exact Hc].
    apply bf_negate. exact Hb.
  - (* parsePrimary *)
    intros pos Hpos. cbn [parsePrimary].
    destruct (tokens !! pos) as [token|] eqn:Htok.
    2:{ exfalso. apply lookup_ge_None in Htok. rewrite length_app in Htok. cbn in Htok. lia. }
    assert (forall j t, (pos <= j < S pos)%nat -> nth_error tokens j = Some t -> t = token)
      as Hone.
    { intros j t Hj Ht. assert (j = pos) as -> by lia.
      rewrite <- lookup_nth_error, Htok in Ht. congruence. }
    destruct (tokenType token) eqn:Hty.
    + (* number *)
      destruct (tokens_at_body pos token Htok ltac:(congruence)) as (Hin & Hlt & _).
      cbn. split; [lia|]. split; [apply bf_number; assumption|].
      intros j t Hj Ht. rewrite (Hone j t Hj Ht). congruence.
    + (* variable *)
      destruct (tokens_at_body pos token Htok ltac:(congruence)) as (Hin & Hlt & _).
      cbn. split; [lia|]. split; [apply bf_variable; assumption|].
      intros j t Hj Ht. rewrite (Hone j t Hj Ht). congruence.
    + (* operator *)
      right. right. right. exists token. split; [eapply tokens_in; eassumption | reflexivity].
    + (* function *)
      destruct (tokens_at_body pos token Htok ltac:(congruence)) as (Hin & Hlt & Hok).
      unfold tokenOk in Hok. rewrite Hty in Hok.
      cbv zeta.
      destruct (tokenTypeAt tokens (S pos) TOKEN_LEFT_PAREN) eqn:Hlp; [|left; reflexivity].
      apply tokenTypeAt_body in Hlp as [Hlt1 Hc1]; [|discriminate|discriminate].
      cbn [negb].
      assert (noComma pos (S (S pos))) as Hc01.
      { eapply noComma_join; [|exact Hc1].
        intros j t Hj Ht. rewrite (Hone j t Hj Ht). congruence. }
      apply (parsedFrom_from pos (S (S pos))); [lia | exact Hc01 |].
      apply parsedFrom_bind; [apply IHe; lia|].
      intros arg q Hq Hb Hc.
      destruct (tokenTypeAt tokens q TOKEN_RIGHT_PAREN) eqn:Hrp;
        [|right; left; reflexivity].
      apply tokenTypeAt_body in Hrp as [Hlt2 Hc2]; [|discriminate|discriminate].
      cbn [negb]. unfold functionOfName. unfold isFunctionName in Hok.
      repeat (destruct (String.eqb (value token) _);
              [cbn; split; [lia|]; split;
               [apply bf_function; exact Hb | eapply noComma_join; eassumption]|]).
      discriminate.
    + (* left parenthesis *)
      destruct (tokens_at_body pos token Htok ltac:(congruence)) as (Hin & Hlt & _).
      cbv zeta.
      assert (noComma pos (S pos)) as Hc0.
      { intros j t Hj Ht. rewrite (Hone j t Hj Ht). congruence. }
      apply (parsedFrom_from pos (S pos)); [lia | exact Hc0 |].
      apply parsedFrom_bind; [apply IHe; lia|].
      intros node q Hq Hb Hc.
      destruct (tokenTypeAt tokens q TOKEN_RIGHT_PAREN) eqn:Hrp;
        [|right; right; left; reflexivity].
      apply tokenTypeAt_body in Hrp as [Hlt2 Hc2]; [|discriminate|discriminate].
      cbn. split; [lia|]. split; [exact Hb | eapply noComma_join; eassumption].
    + right. right. right. exists token. split; [eapply tokens_in; eassumption | reflexivity].
    + right. right. right. exists token. split; [eapply tokens_in; eassumption | reflexivity].
    + right. right. right. exists token. split; [eapply tokens_in; eassumption | reflexivity].
Qed.
End ParserTokens.

(** ** The outcomes of [parse] *)

(** The five ways [parse] ends, with what each leaves in the engine. *)
Inductive parseOutcome (expression : string) : bool -> MathExpressionParser -> Prop :=
  | po_empty :
      trimmedText expression = [] ->
      parseOutcome expression false (mkParser nullptr "Empty expression")
  | po_character j c :
      nth_error (trimmedText expression) j = Some c -> startsToken c = false ->
      parseOutcome expression false (mkParser nullptr (invalidCharacter j c))
  | po_thrown body e :
      tokenize expression = (body ++ [endToken], EmptyString) ->
      forallb tokenOk body = true -> syntaxError body e ->
      parseOutcome expression false (mkParser nullptr e)
  | po_leftover body node pos t :
      tokenize expression = (body ++ [endToken], EmptyString) ->
      forallb tokenOk body = true ->
      builtFrom body node -> (pos < length body)%nat -> nth_error body pos = Some t ->
      parseOutcome expression false (mkParser node (unexpectedToken pos t))
  | po_success body node :
      tokenize expression = (body ++ [endToken], EmptyString) ->
      forallb tokenOk body = true ->
      builtFrom body node -> noComma body 0 (length body) ->
      parseOutcome expression true (mkParser node EmptyString).

Lemma parse_outcome (expression : string) (this this' : MathExpressionParser) (ok : bool) :
  parse expression this = Some (ok, this') -> parseOutcome expression ok this'.
Proof.
  unfold parse. fold (trimmedText expression).
  destruct (trimmedText expression) as [|c0 text] eqn:Htext.
  { intros [= <- <-]. apply po_empty. exact Htext. }
  pose proof (tokenize_cases expression) as Hout. rewrite Htext in Hout.
  destruct (tokenize expression) as [tokens error] eqn:Htok. cbn [fst snd] in Hout.
  cbn [errorMessage rootNode].
  destruct Hout as [(-> & body & -> & Hbody)|(-> & j & c & Hj & Hc & ->)].
  2:{ assert (String.eqb (invalidCharacter j c) EmptyString = false) as -> by reflexivity.
      cbn [negb]. intros [= <- <-]. rewrite <- Htext in Hj. apply po_character; assumption. }
  cbn [String.eqb negb].
  pose proof (tokensInvariant_holds body Hbody (parseFuel (body ++ [endToken])))
    as (He & _).
  specialize (He 0%nat ltac:(lia)).
  destruct (parseExpression _ _ _) as [[node pos]|e|]; [| |discriminate].
  2:{ intros [= <- <-]. eapply po_thrown; eauto. }
  cbn in He. destruct He as (Hpos & Hb & Hc).
  destruct ((body ++ [endToken]) !! pos) as [t|] eqn:Ht.
  2:{ exfalso. apply lookup_ge_None in Ht. rewrite length_app in Ht. cbn in Ht. lia. }
  destruct (tokens_at body Hbody pos t Ht) as [(Hin & Hlt & Hok)|[-> ->]].
  - assert (TokenType_eqb (tokenType t) TOKEN_END = false) as ->.
    { unfold tokenOk in Hok. destruct (tokenType t); try reflexivity. discriminate. }
    cbn [negb]. intros [= <- <-].
    eapply po_leftover; eauto.
    rewrite lookup_nth_error, nth_error_app1 in Ht by exact Hlt. exact Ht.
  - cbn [tokenType endToken TokenType_eqb negb].
    intros [= <- <-].
    assert (isNull node = false) as -> by (inversion Hb; reflexivity).
    cbn [negb]. eapply po_success; eauto.
Qed.

(** ** The variables of an expression *)

(** The tree under [p] has a variable node named [x]. *)
Definition hasVariable (x : string) (p : NodePtr) : Prop :=
  exists n, subnode n p /\ type n = NODE_VARIABLE /\ variableName n = x.

Scheme ExpressionNode_mut := Induction for ExpressionNode Sort Prop
  with NodePtr_mut := Induction for NodePtr Sort Prop.

Lemma contains_In (l : list string) (s : string) : contains l s = true <-> In s l.
Proof.
  unfold contains. rewrite existsb_exists. split.
  - intros (y & Hy & Heq). apply String.eqb_eq in Heq. subst y. exact Hy.
  - intros H. exists s. split; [exact H | apply String.eqb_refl].
Qed.

Lemma NoDup_snoc (l : list string) (s : string) :
  List.NoDup l -> ~ In s l -> List.NoDup (l ++ [s]).
Proof.
  induction 1 as [|y l Hy Hl IH]; cbn; intros Hs.
  - constructor; [tauto | constructor].
  - constructor.
    + rewrite in_app_iff. cbn. intros [H|[H|[]]]; [tauto|]. subst. tauto.
    + apply IH. tauto.
Qed.

Lemma hasVariable_null (x : string) : ~ hasVariable x nullptr.
Proof. intros (n & Hn & _). inversion Hn. Qed.

Lemma hasVariable_ptr (x : string) (n : ExpressionNode) :
  hasVariable x (ptr n)
  <-> (type n = NODE_VARIABLE /\ variableName n = x)
      \/ hasVariable x (left n) \/ hasVariable x (right n) \/ hasVariable x (argument n).
Proof.
  unfold hasVariable. split.
  - intros (m & Hm & Hty & Hname). apply subnode_ptr in Hm as [->|[H|[H|H]]]; eauto 8.
  - intros [[Hty Hname]|[(m & Hm & H)|[(m & Hm & H)|(m & Hm & H)]]].
    + exists n. split; [apply sub_here | auto].
    + exists m. split; [apply sub_left; exact Hm | exact H].
    + exists m. split; [apply sub_right; exact Hm | exact H].
    + exists m. split; [apply sub_argument; exact Hm | exact H].
Qed.

(** [collectVariables] keeps the names it was given, in place, and adds
    behind them each new variable of the tree once. *)
Lemma collectVariables_spec (p : NodePtr) (acc : list string) :
  List.NoDup acc ->
  List.NoDup (collectVariables p acc)
  /\ (forall x, In x (collectVariables p acc) <-> In x acc \/ hasVariable x p)
  /\ exists new, collectVariables p acc = acc ++ new.
Proof.
  revert acc.
  apply (NodePtr_mut
           (fun n => forall acc, List.NoDup acc ->
              List.NoDup (collectVariables (ptr n) acc)
              /\ (forall x, In x (collectVariables (ptr n) acc)
                            <-> In x acc \/ hasVariable x (ptr n))
              /\ exists new, collectVariables (ptr n) acc = acc ++ new)
           (fun p => forall acc, List.NoDup acc ->
              List.NoDup (collectVariables p acc)
              /\ (forall x, In x (collectVariables p acc) <-> In x acc \/ hasVariable x p)
              /\ exists new, collectVariables p acc = acc ++ new)).
  - intros ty v name op f l IHl r IHr a IHa acc Hacc.
    cbn [collectVariables type variableName left right argument].
    set (acc1 := match ty with
                 | NODE_VARIABLE => if negb (contains acc name) then acc ++ [name] else acc
                 | _ => acc
                 end).
    assert (List.NoDup acc1
            /\ (forall x, In x acc1 <-> In x acc \/ (ty = NODE_VARIABLE /\ name = x))
            /\ exists new, acc1 = acc ++ new) as (Hnd1 & Hin1 & new1 & Hnew1).
    { subst acc1. destruct ty.
      1,3,4: (split; [exact Hacc|]; split;
              [intros x; split; [auto | intros [H|[H _]]; [exact H | discriminate]]
              | exists []; rewrite app_nil_r; reflexivity]).
      destruct (contains acc name) eqn:Hc; cbn [negb].
      - apply contains_In in Hc. split; [exact Hacc|]. split.
        + intros x. split; [auto|]. intros [H|[_ <-]]; assumption.
        + exists []. rewrite app_nil_r. reflexivity.
      - assert (~ In name acc) as Hn by (rewrite <- contains_In; congruence).
        split; [apply NoDup_snoc; assumption|]. split.
        + intros x. rewrite in_app_iff. cbn. split.
          * intros [H|[H|[]]]; auto.
          * intros [H|[_ H]]; auto.
        + exists [name]. reflexivity. }
    destruct (IHl acc1 Hnd1) as (Hnd2 & Hin2 & new2 & Hnew2).
    destruct (IHr _ Hnd2) as (Hnd3 & Hin3 & new3 & Hnew3).
    destruct (IHa _ Hnd3) as (Hnd4 & Hin4 & new4 & Hnew4).
    split; [exact Hnd4|]. split.
    + intros x. rewrite Hin4, Hin3, Hin2, Hin1, hasVariable_ptr.
      cbn [type variableName left right argument]. tauto.
    + exists (new1 ++ new2 ++ new3 ++ new4).
      rewrite Hnew4, Hnew3, Hnew2, Hnew1, <- !List.app_assoc. reflexivity.
  - intros acc Hacc. cbn. split; [exact Hacc|]. split.
    + intros x. split; [auto|]. intros [H|H]; [exact H|]. destruct (hasVariable_null x H).
    + exists []. rewrite app_nil_r. reflexivity.
  - intros n IH acc Hacc. apply IH. exact Hacc.
Qed.

(** The variables of an expression parsed by a fresh engine. *)
Definition parsedVariables (expression : string) : option (list string) :=
  match parse expression freshParser with
  | Some (true, parser) => Some (getVariables parser)
  | _ => None
  end.

(** X5. [getVariables] lists each variable of the tree exactly once: the
    list has no duplicates, and a name is in it exactly when the tree has
    a variable node of that name. For "a*b+a" it is [a, b]. *)
Theorem getVariables_exact (this : MathExpressionParser) :
  List.NoDup (getVariables this)
  /\ (forall x, In x (getVariables this) <-> hasVariable x (rootNode this))
  /\ parsedVariables "a*b+a" = Some ["a"; "b"]%string.
Proof.
  unfold getVariables.
  destruct (collectVariables_spec (rootNode this) [] (List.NoDup_nil _))
    as (Hnd & Hin & _).
  split; [|split].
  - destruct (rootNode this); [constructor | exact Hnd].
  - intros x. destruct (rootNode this) eqn:Hroot.
    + split; [intros [] | intros H; destruct (hasVariable_null x H)].
    + rewrite Hin. cbn. tauto.
  - reflexivity.
Qed.

Lemma getVariables_In (this : MathExpressionParser) (x : string) :
  In x (getVariables this) <-> hasVariable x (rootNode this).
Proof.
  unfold getVariables.
  destruct (collectVariables_spec (rootNode this) [] (List.NoDup_nil _)) as (_ & Hin & _).
  destruct (rootNode this) eqn:Hroot.
  - split; [intros [] | intros H; destruct (hasVariable_null x H)].
  - rewrite Hin. cbn. tauto.
Qed.

(** ** Messages, commas and reserved names *)

(** The messages a failing [parse] leaves in [errorMessage]. *)
Definition parseErrorMessage (msg : string) : Prop :=
  msg = "Empty expression"%string
  \/ (exists j c, msg = invalidCharacter j c)
  \/ (exists pos t, msg = unexpectedToken pos t)
  \/ msg = "Expected '(' after function name"%string
  \/ msg = "Expected ')' after function argument"%string
  \/ msg = "Expected ')'"%string
  \/ (exists lexeme, msg = ("Unexpected token: " ++ lexeme)%string).

(** X2. [parse] returns true exactly when it leaves no error message.
    The message of a failing call is one of seven: the empty expression,
    an invalid character with its index, a leftover token with its
    position, one of three missing-parenthesis messages, or an unexpected
    token with its text. The two other messages in the code, "Unexpected
    end of expression" and "Unknown function: ...", are never produced:
    the end marker stops the parser first, and the tokenizer makes
    function tokens of the seven known names only. *)
Theorem parse_messages (expression : string) (this this' : MathExpressionParser)
        (ok : bool) :
  parse expression this = Some (ok, this') ->
  (ok = true <-> errorMessage this' = EmptyString)
  /\ (ok = false -> parseErrorMessage (errorMessage this'))
  /\ errorMessage this' <> "Unexpected end of expression"%string
  /\ (forall name, errorMessage this' <> ("Unknown function: " ++ name)%string).
Proof.
  intros H. apply parse_outcome in H.
  destruct H as [Hempty|j c Hj Hc|body e Htok Hbody He|body node pos t Htok Hbody Hb Hpos Ht
                |body node Htok Hbody Hb Hc];
    cbn [errorMessage].
  - split; [split; discriminate|]. split; [intros _; left; reflexivity|].
    split; [discriminate | intros name; discriminate].
  - split; [split; discriminate|].
    split; [intros _; right; left; eauto|].
    split; [discriminate | intros name; discriminate].
  - destruct He as [->|[->|[->|(t & Ht & ->)]]].
    + split; [split; discriminate|]. split; [intros _; unfold parseErrorMessage; tauto|].
      split; [discriminate | intros name; discriminate].
    + split; [split; discriminate|]. split; [intros _; unfold parseErrorMessage; tauto|].
      split; [discriminate | intros name; discriminate].
    + split; [split; discriminate|]. split; [intros _; unfold parseErrorMessage; tauto|].
      split; [discriminate | intros name; discriminate].
    + split; [split; discriminate|].
      split; [intros _; do 6 right; eauto|].
      split; [discriminate | intros name; discriminate].
  - split; [split; discriminate|].
    split; [intros _; right; right; left; eauto|].
    split; [discriminate | intros name; discriminate].
  - split; [split; reflexivity|]. split; [discriminate|].
    split; [discriminate | intros name; discriminate].
Qed.

Lemma parse_messages_witness :
  parse "sin 1" freshParser
  = Some (false, mkParser nullptr "Expected '(' after function name")
  /\ parseErrorMessage "Expected '(' after function name".
Proof.
  assert (parse "sin 1" freshParser
          = Some (false, mkParser nullptr "Expected '(' after function name")) as H
      by reflexivity.
  split; [exact H|].
  exact (proj1 (proj2 (parse_messages "sin 1" freshParser _ false H)) eq_refl).
Defined.

Lemma dropWhile_In (p : QChar -> bool) (c : QChar) (l : list QChar) :
  In c l -> p c = false -> In c (dropWhile p l).
Proof.
  induction l as [|x l IH]; cbn; [tauto|].
  intros [->|H] Hc; [rewrite Hc; cbn; auto|].
  destruct (p x); [auto | cbn; auto].
Qed.

Lemma trimmed_In (c : QChar) (l : list QChar) :
  In c l -> isSpace c = false -> In c (trimmed l).
Proof.
  intros H Hc. unfold trimmed. rewrite <- in_rev.
  apply dropWhile_In; [|exact Hc]. rewrite <- in_rev.
  apply dropWhile_In; assumption.
Qed.

Lemma takeWhile_firstn {A} (p : A -> bool) (l : list A) :
  firstn (length (takeWhile p l)) l = takeWhile p l.
Proof.
  induction l as [|x l IH]; [reflexivity|]. cbn.
  destruct (p x); [cbn; rewrite IH; reflexivity | reflexivity].
Qed.

Lemma takeWhile_forallb {A} (p : A -> bool) (l : list A) :
  forallb p (takeWhile p l) = true.
Proof.
  induction l as [|x l IH]; [reflexivity|]. cbn.
  destruct (p x) eqn:Hx; [cbn; rewrite Hx, IH; reflexivity | reflexivity].
Qed.

(** A comma of the text becomes a comma token, whatever surrounds it. *)
Lemma tokenize_loop_comma (expr : list QChar) (i skip : nat) (acc tokens : list Token) :
  forallb lexemeChar (firstn skip expr) = true ->
  In ","%char expr ->
  tokenize_loop expr i skip acc = (tokens, EmptyString) ->
  exists t, In t tokens /\ tokenType t = TOKEN_COMMA.
Proof.
  revert i skip acc.
  induction expr as [|c rest IH]; intros i skip acc Hskip Hin; [destruct Hin|].
  cbn [tokenize_loop]. destruct skip as [|skip'].
  2:{ cbn [firstn forallb] in Hskip. apply andb_true_iff in Hskip as [Hc Hrest].
      destruct Hin as [->|Hin]; [vm_compute in Hc; discriminate|]. apply IH; assumption. }
  assert (forall p : QChar -> bool,
            (forall x, p x = true -> lexemeChar x = true) ->
            forallb lexemeChar
              (firstn (Nat.pred (length (takeWhile p (c :: rest)))) rest) = true)
    as Hlex.
  { intros p Hp. cbn [takeWhile]. destruct (p c); [|reflexivity].
    cbn [length Nat.pred]. rewrite takeWhile_firstn.
    apply forallb_forall. intros x Hx.
    pose proof (takeWhile_forallb p rest) as Hall. rewrite forallb_forall in Hall. auto. }
  destruct (isSpace c) eqn:Hspace.
  { destruct Hin as [->|Hin]; [vm_compute in Hspace; discriminate|].
    apply IH; [reflexivity | exact Hin]. }
  destruct (isDigit c || Ascii.eqb c ".")%bool eqn:Hnum.
  { cbv zeta. destruct Hin as [->|Hin]; [vm_compute in Hnum; discriminate|].
    apply IH; [|exact Hin].
    apply Hlex. intros x Hx. unfold lexemeChar.
    apply orb_true_iff in Hx as [-> | ->]; [reflexivity|]. rewrite orb_true_r. reflexivity. }
  destruct (isLetter c) eqn:Hletter.
  { destruct Hin as [->|Hin]; [vm_compute in Hletter; discriminate|].
    apply IH; [|exact Hin].
    apply Hlex. intros x Hx. unfold lexemeChar.
    apply orb_true_iff in Hx as [-> | ->]; rewrite ?orb_true_r; reflexivity. }
  destruct (isOperator c) eqn:Hop.
  { destruct Hin as [->|Hin]; [vm_compute in Hop; discriminate|].
    apply IH; [reflexivity | exact Hin]. }
  destruct (Ascii.eqb c "(") eqn:Hlp.
  { destruct Hin as [->|Hin]; [vm_compute in Hlp; discriminate|].
    apply IH; [reflexivity | exact Hin]. }
  destruct (Ascii.eqb c ")") eqn:Hrp.
  { destruct Hin as [->|Hin]; [vm_compute in Hrp; discriminate|].
    apply IH; [reflexivity | exact Hin]. }
  destruct (Ascii.eqb c ",") eqn:Hcomma; [|discriminate].
  intros Hloop. apply tokenize_loop_spec in Hloop as [(_ & new & -> & _)|(_ & j & c0 & _ & _ & H)].
  - exists (mkToken TOKEN_COMMA (charString c) 0). split; [|reflexivity].
    rewrite !in_app_iff. left. right. cbn. auto.
  - discriminate.
Qed.

(** X3. The comma is reserved: an expression with a comma anywhere in it
    is never accepted by [parse]. *)
Theorem comma_is_rejected (expression : string) (this : MathExpressionParser) :
  In ","%char (list_ascii_of_string expression) ->
  exists this', parse expression this = Some (false, this').
Proof.
  intros Hin.
  destruct (parse_total expression this) as (ok & this' & Hparse).
  destruct ok; [|eauto]. exfalso.
  apply parse_outcome in Hparse. inversion Hparse as [| | | |body node Htok Hbody Hb Hc]; subst.
  unfold tokenize in Htok.
  apply tokenize_loop_comma in Htok as (t & Ht & Hty);
    [|reflexivity | apply trimmed_In; [exact Hin | reflexivity]].
  apply in_app_iff in Ht as [Ht|[<-|[]]]; [|discriminate].
  apply In_nth_error in Ht as (j & Hj).
  apply (Hc j t); [|rewrite nth_error_app1; [exact Hj|]|exact Hty].
  - split; [lia|]. apply nth_error_Some. congruence.
  - apply nth_error_Some. congruence.
Qed.

Lemma comma_is_rejected_witness :
  In ","%char (list_ascii_of_string "abs(a,b)")
  /\ exists this', parse "abs(a,b)" freshParser = Some (false, this').
Proof.
  assert (In ","%char (list_ascii_of_string "abs(a,b)")) as Hin by (cbn; tauto).
  split; [exact Hin|].
  exact (comma_is_rejected "abs(a,b)" freshParser Hin).
Defined.

Lemma dropWhile_all {A} (p : A -> bool) (l : list A) :
  forallb p l = true -> dropWhile p l = [].
Proof.
  induction l as [|x l IH]; [reflexivity|]. cbn.
  intros H. apply andb_true_iff in H as [-> H]. auto.
Qed.

(** X4. An expression made of whitespace only (or of nothing) is refused
    with the message "Empty expression", and the engine holds no tree,
    whatever it held before. *)
Theorem blank_expression (expression : string) (this : MathExpressionParser) :
  forallb isSpace (list_ascii_of_string expression) = true ->
  parse expression this = Some (false, mkParser nullptr "Empty expression").
Proof.
  intros H. unfold parse, trimmed. rewrite (dropWhile_all _ _ H). reflexivity.
Qed.

Lemma blank_expression_witness :
  parse "   " (mkParser (numberNode 1) "") = Some (false, mkParser nullptr "Empty expression").
Proof. apply (blank_expression "   " (mkParser (numberNode 1) "")). reflexivity. Defined.

Lemma builtFrom_variables (body : list Token) (p : NodePtr) (x : string) :
  builtFrom body p -> hasVariable x p ->
  exists t, In t body /\ tokenType t = TOKEN_VARIABLE /\ value t = x.
Proof.
  induction 1 as [t Hin Hty|t Hin Hty|op l r Hop Hl IHl Hr IHr|l Hl IHl|f a Ha IHa];
    intros H; apply hasVariable_ptr in H; cbn [type variableName left right argument] in H;
    destruct H as [[Hv Hname]|[H|[H|H]]];
    try discriminate; try (destruct (hasVariable_null x H)); eauto.
Qed.

(** X8. No variable of an accepted expression is named after a function
    or a constant: [getVariables] never contains "abs", "sqrt", "log",
    "exp", "sin", "cos", "tan", "pi" or "e". *)
Theorem variables_are_not_reserved (expression : string)
        (this parser : MathExpressionParser) (x : string) :
  parse expression this = Some (true, parser) ->
  In x (getVariables parser) -> reservedName x = false.
Proof.
  intros Hparse Hx. apply parse_outcome in Hparse.
  inversion Hparse as [| | | |body node Htok Hbody Hb Hc]; subst.
  apply getVariables_In in Hx. cbn [rootNode] in Hx.
  destruct (builtFrom_variables body node x Hb Hx) as (t & Hin & Hty & <-).
  rewrite forallb_forall in Hbody. apply Hbody in Hin.
  unfold tokenOk in Hin. rewrite Hty in Hin. apply negb_true_iff in Hin. exact Hin.
Qed.

Lemma variables_are_not_reserved_witness :
  parse "2*speed" freshParser
  = Some (true, mkParser (operatorNode OP_MULTIPLY (numberNode 2) (variableNode "speed")) "")
  /\ In "speed"%string
        (getVariables
           (mkParser (operatorNode OP_MULTIPLY (numberNode 2) (variableNode "speed")) ""))
  /\ reservedName "speed" = false.
Proof.
  assert (parse "2*speed" freshParser
          = Some (true, mkParser (operatorNode OP_MULTIPLY (numberNode 2)
                                    (variableNode "speed")) "")) as H by reflexivity.
  assert (In "speed"%string
            (getVariables
               (mkParser (operatorNode OP_MULTIPLY (numberNode 2) (variableNode "speed")) "")))
    as Hin by (cbn; tauto).
  split; [exact H|]. split; [exact Hin|].
  exact (variables_are_not_reserved "2*speed" freshParser _ "speed" H Hin).
Defined.

(** ** Variables and evaluation *)

Section EvaluatorEquations.
Context (libm : Libm) (variables : gmap string float).

Lemma evaluateNode_binary (op : OperatorType) (l r : NodePtr) :
  op <> OP_NEGATE ->
  evaluateNode libm (operatorNode op l r) variables
  = match evaluateNode libm l variables with
    | None => None
    | Some leftVal =>
        match evaluateNode libm r variables with
        | None => None
        | Some rightVal =>
            match op with
            | OP_ADD => Some (leftVal + rightVal)%float
            | OP_SUBTRACT => Some (leftVal - rightVal)%float
            | OP_MULTIPLY => Some (leftVal * rightVal)%float
            | OP_DIVIDE =>
                if (rightVal =? 0)%float then None else Some (leftVal / rightVal)%float
            | OP_POWER => Some (c_pow libm leftVal rightVal)
            | OP_NEGATE => None
            end
        end
    end.
Proof. destruct op; try reflexivity. congruence. Qed.

Lemma evaluateNode_negate (operand : NodePtr) :
  evaluateNode libm (operatorNode OP_NEGATE operand nullptr) variables
  = match evaluateNode libm operand variables with
    | None => None
    | Some leftVal => Some (- leftVal)%float
    end.
Proof. reflexivity. Qed.

Lemma evaluateNode_function (f : FunctionType) (arg : NodePtr) :
  evaluateNode libm (functionNode f arg) variables
  = match evaluateNode libm arg variables with
    | None => None
    | Some argVal =>
        match f with
        | FUNC_ABS => Some (abs argVal)
        | FUNC_SQRT => if (argVal <? 0)%float then None else Some (sqrt argVal)
        | FUNC_LOG => if (argVal <=? 0)%float then None else Some (c_log libm argVal)
        | FUNC_EXP => Some (c_exp libm argVal)
        | FUNC_SIN => Some (c_sin libm argVal)
        | FUNC_COS => Some (c_cos libm argVal)
        | FUNC_TAN => Some (c_tan libm argVal)
        end
    end.
Proof. reflexivity. Qed.
End EvaluatorEquations.

Lemma hasVariable_binary (x : string) (op : OperatorType) (l r : NodePtr) :
  hasVariable x (operatorNode op l r) <-> hasVariable x l \/ hasVariable x r.
Proof.
  unfold operatorNode. rewrite hasVariable_ptr. cbn [type left right argument].
  split; [intros [[H _]|[H|[H|H]]]; try discriminate; auto; destruct (hasVariable_null x H)
         | tauto].
Qed.

Lemma hasVariable_function (x : string) (f : FunctionType) (arg : NodePtr) :
  hasVariable x (functionNode f arg) <-> hasVariable x arg.
Proof.
  unfold functionNode. rewrite hasVariable_ptr. cbn [type left right argument].
  split; [intros [[H _]|[H|[H|H]]]; try discriminate; auto; destruct (hasVariable_null x H)
         | tauto].
Qed.

(** On a well-formed tree the value depends on the mapping only through
    the variables of the tree. *)
Lemma evaluateNode_agree (libm : Libm) (p : NodePtr) (m1 m2 : gmap string float) :
  wellFormed p ->
  (forall x, hasVariable x p -> m1 !! x = m2 !! x) ->
  evaluateNode libm p m1 = evaluateNode libm p m2.
Proof.
  induction 1 as [v|name|op l r Hop Hl IHl Hr IHr|l Hl IHl|f a Ha IHa]; intros Hagree.
  - reflexivity.
  - cbn. apply Hagree. exists (mkNode NODE_VARIABLE 0 name OP_ADD FUNC_ABS nullptr nullptr nullptr).
    split; [apply sub_here | split; reflexivity].
  - rewrite !evaluateNode_binary by exact Hop.
    rewrite IHl, IHr; [reflexivity| |];
      intros x Hx; apply Hagree, hasVariable_binary; auto.
  - rewrite !evaluateNode_negate. rewrite IHl; [reflexivity|].
    intros x Hx. apply Hagree, hasVariable_binary. auto.
  - rewrite !evaluateNode_function. rewrite IHa; [reflexivity|].
    intros x Hx. apply Hagree, hasVariable_function. exact Hx.
Qed.

Lemma evaluate_evaluateNode (libm : Libm) (this : MathExpressionParser)
      (variables : gmap string float) :
  evaluate libm this variables = evaluateNode libm (rootNode this) variables.
Proof. unfold evaluate. destruct (rootNode this); reflexivity. Qed.

(** X6. The variables [getVariables] reports are exactly those
    [evaluate] needs: after a successful [parse], if one of them is absent
    from the mapping then [evaluate] fails, whatever the rest of the
    expression; so when [evaluate] succeeds every reported variable is
    bound. *)
Theorem unbound_variable_fails (libm : Libm) (expression : string)
        (this parser : MathExpressionParser) (variables : gmap string float)
        (x : string) :
  parse expression this = Some (true, parser) ->
  In x (getVariables parser) -> variables !! x = None ->
  evaluate libm parser variables = None.
Proof.
  intros Hparse Hx Hnone. apply parse_success in Hparse as [Hwf _].
  rewrite evaluate_evaluateNode. apply (evaluateNode_fails libm variables _ Hwf).
  apply getVariables_In in Hx as (n & Hn & Hty & Hname).
  exists n. split; [exact Hn|]. unfold faults. rewrite Hty, Hname, Hnone. reflexivity.
Qed.

Lemma unbound_variable_fails_witness :
  parse "a+b" freshParser
  = Some (true, mkParser (operatorNode OP_ADD (variableNode "a") (variableNode "b")) "")
  /\ evaluate exampleLibm
       (mkParser (operatorNode OP_ADD (variableNode "a") (variableNode "b")) "")
       (<["a" := 1%float]> ∅) = None.
Proof.
  assert (parse "a+b" freshParser
          = Some (true, mkParser (operatorNode OP_ADD (variableNode "a") (variableNode "b")) ""))
    as H by reflexivity.
  split; [exact H|].
  apply (unbound_variable_fails exampleLibm "a+b" freshParser _ (<["a" := 1%float]> ∅)
           "b" H); [cbn; tauto | reflexivity].
Defined.

(** X7. After a successful [parse], [evaluate] reads the mapping only at
    the variables [getVariables] reports: two mappings that agree on them
    give the same outcome, value or failure. Extra entries in the mapping
    are ignored. *)
Theorem evaluate_reads_only_its_variables (libm : Libm) (expression : string)
        (this parser : MathExpressionParser) (m1 m2 : gmap string float) :
  parse expression this = Some (true, parser) ->
  (forall x, In x (getVariables parser) -> m1 !! x = m2 !! x) ->
  evaluate libm parser m1 = evaluate libm parser m2.
Proof.
  intros Hparse Hagree. apply parse_success in Hparse as [Hwf _].
  rewrite !evaluate_evaluateNode. apply evaluateNode_agree; [exact Hwf|].
  intros x Hx. apply Hagree, getVariables_In. exact Hx.
Qed.

Lemma evaluate_reads_only_its_variables_witness :
  evaluate exampleLibm (mkParser (operatorNode OP_ADD (variableNode "a") (numberNode 1)) "")
    (<["a" := 2%float]> ∅)
  = evaluate exampleLibm (mkParser (operatorNode OP_ADD (variableNode "a") (numberNode 1)) "")
      (<["a" := 2%float]> (<["unused" := 7%float]> ∅)).
Proof.
  apply (evaluate_reads_only_its_variables exampleLibm "a+1" freshParser).
  - reflexivity.
  - intros x [<-|[]]. reflexivity.
Defined.

(** ** The gap limit *)

Lemma rank_top (d : float) :
  k1 d <= 2 /\ (k1 d = 2 -> k2 d = 0 /\ k3 d = 0).
Proof.
  unfold k1, k2, k3. destruct (Prim2SF d) as [[]|[]| |[] m e]; cbn; lia.
Qed.

Lemma infinity_not_below (d : float) : (infinity <? d)%float = false.
Proof.
  apply ltb_false. intros (_ & _ & H). unfold LT in H.
  destruct (rank_top d) as [Hle Htop].
  change (k1 infinity) with 2 in H. change (k2 infinity) with 0 in H.
  change (k3 infinity) with 0 in H. lia.
Qed.

(** A limit no distance exceeds: NaN, for which every comparison is
    false, or plus infinity. *)
Definition unlimited (maxGapSize : float) : Prop :=
  is_nan maxGapSize = true \/ maxGapSize = infinity.

Lemma unlimited_not_below (maxGapSize d : float) :
  unlimited maxGapSize -> (maxGapSize <? d)%float = false.
Proof.
  intros [H| ->]; [float_order | apply infinity_not_below].
Qed.

(** The distance one turn of [isTimestampValid] compares with the limit,
    when it compares one. *)
Lemma gapCheck_distance (timestamp : float) (s : DataSeries) :
  (forall maxGapSize, gapCheck timestamp s maxGapSize = true)
  \/ exists d, forall maxGapSize,
       gapCheck timestamp s maxGapSize = negb (maxGapSize <? d)%float.
Proof.
  unfold gapCheck.
  destruct ((getIndexForTimestamp s timestamp =? 0)%nat
            || (size s <=? getIndexForTimestamp s timestamp)%nat)%bool.
  - destruct ((getIndexForTimestamp s timestamp =? 0)%nat && (0 <? size s)%nat)%bool;
      [right; eexists; intros; reflexivity|].
    destruct ((size s <=? getIndexForTimestamp s timestamp)%nat && (0 <? size s)%nat)%bool;
      [right; eexists; intros; reflexivity | left; reflexivity].
  - right. eexists. intros. reflexivity.
Qed.

(** X9. Raising the gap limit never invalidates a timestamp: one that
    [isTimestampValid] accepts under [maxGapSize] is accepted under every
    larger limit. *)
Theorem isTimestampValid_monotone (timestamp : float) (series : SeriesMap)
        (maxGapSize larger : float) :
  (maxGapSize <=? larger)%float = true ->
  isTimestampValid timestamp series maxGapSize = true ->
  isTimestampValid timestamp series larger = true.
Proof.
  intros Hle. unfold isTimestampValid. rewrite !forallb_forall.
  intros Hvalid it Hit. specialize (Hvalid it Hit).
  destruct (gapCheck_distance timestamp it.2) as [Hall|(d & Hd)]; [apply Hall|].
  rewrite Hd in *. apply negb_true_iff in Hvalid. apply negb_true_iff.
  float_order.
Qed.

Lemma isTimestampValid_monotone_witness :
  isTimestampValid 5 [("a"%string, gapSeries)] 10 = true
  /\ isTimestampValid 5 [("a"%string, gapSeries)] 1000 = true.
Proof.
  assert (isTimestampValid 5 [("a"%string, gapSeries)] 10 = true) as H by reflexivity.
  split; [exact H|].
  apply (isTimestampValid_monotone 5 [("a"%string, gapSeries)] 10 1000); [reflexivity | exact H].
Defined.

(** X10. A [maxGapSize] of NaN or plus infinity switches the gap check
    off: [isTimestampValid] accepts every timestamp, whatever the series
    hold, because the code rejects only where a distance compares greater
    than the limit. *)
Theorem unlimited_gap_accepts_all (timestamp : float) (series : SeriesMap)
        (maxGapSize : float) :
  unlimited maxGapSize ->
  isTimestampValid timestamp series maxGapSize = true.
Proof.
  intros Hg. unfold isTimestampValid. apply forallb_forall. intros it _.
  destruct (gapCheck_distance timestamp it.2) as [Hall|(d & Hd)]; [apply Hall|].
  rewrite Hd, (unlimited_not_below _ _ Hg). reflexivity.
Qed.

Lemma unlimited_gap_accepts_all_witness :
  isTimestampValid 1000 [("a"%string, gapSeries)] 1000 = false
  /\ isTimestampValid 1000 [("a"%string, gapSeries)] nan = true.
Proof.
  split; [reflexivity|].
  apply (unlimited_gap_accepts_all 1000 [("a"%string, gapSeries)] nan).
  left. reflexivity.
Defined.

(** ** The points a run writes *)


Lemma computePoint_Some (libm : Libm) (getValueAtTime : DataSeries -> float -> float)
      (parser : MathExpressionParser) (requiredVars : list string)
      (this : MathTraceComputer) (t v : float) :
  computePoint libm getValueAtTime parser requiredVars this t = Some v ->
  isTimestampValid t (currentVariableMapping this) (currentMaxGapSize this) = true
  /\ is_nan v = false /\ is_infinity v = false.
Proof.
  unfold computePoint.
  destruct (isTimestampValid _ _ _); [|discriminate]. cbn [negb].
  destruct (interpolateAll _ _ _ _ _); [|discriminate].
  destruct (evaluate _ _ _) as [result|]; [|discriminate].
  destruct (is_nan result) eqn:Hnan; [discriminate|].
  destruct (is_infinity result) eqn:Hinf; [discriminate|].
  intros [= <-]. auto.
Qed.

Lemma collectTimestamps_ascending (series : SeriesMap) :
  ascending (collectTimestamps series).
Proof.
  unfold collectTimestamps. rewrite collectTimestamps_insertAll.
  apply insertAll_ascending. constructor.
Qed.

(** X11. The output of a run that reaches its loop is determined point by
    point: the loop visits the first [valid + skipped] timestamps of the
    union (all of them unless it is cancelled), and the output series holds
    exactly one point for each visited timestamp at which the expression
    has a usable value, in the order of the union, and nothing else. So
    the timestamps of the output are strictly ascending, every one passed
    [isTimestampValid], and no value is NaN or infinite. *)
Theorem output_points
        (libm : Libm) (getValueAtTime : DataSeries -> float -> float)
        (cancelRequested : nat -> bool) (this : MathTraceComputer)
        (parser : MathExpressionParser) (requiredVars : list string)
        (timestamps : list float) (r : Run) :
  prepare this = Some (inr (parser, requiredVars, timestamps)) ->
  startComputation libm getValueAtTime cancelRequested this = Some r ->
  points (output r)
  = computedPoints (computePoint libm getValueAtTime parser requiredVars this)
      (firstn (Z.to_nat (valid r + skipped r)) timestamps)
  /\ (cancelled r = false -> Z.to_nat (valid r + skipped r) = length timestamps)
  /\ ascending (map fst (points (output r)))
  /\ Forall (fun p =>
               isTimestampValid p.1 (currentVariableMapping this) (currentMaxGapSize this)
               = true
               /\ is_nan p.2 = false /\ is_infinity p.2 = false)
            (points (output r)).
Proof.
  intros Hprep Hrun.
  destruct (startComputation_loop libm getValueAtTime cancelRequested this _ _ _ Hprep)
    as (c & st & sigs & Hloop & Hrun').
  rewrite Hrun in Hrun'. injection Hrun' as ->. cbn [valid skipped output cancelled].
  apply mainLoop_points in Hloop as (k & Hk & Hsum & Hout & Hall).
  cbn [initialLocals validPoints skippedPoints outputSeries clearData points app] in *.
  replace (Z.to_nat (validPoints st + skippedPoints st)) with k by lia.
  assert (points (if c then outputSeries st else update (outputSeries st))
          = computedPoints (computePoint libm getValueAtTime parser requiredVars this)
              (firstn k timestamps)) as Hpts.
  { destruct c; exact Hout. }
  rewrite Hpts.
  split; [reflexivity|]. split; [exact Hall|]. split.
  - apply computedPoints_ascending, firstn_ascending.
    apply prepare_inr in Hprep as (_ & _ & -> & _). apply collectTimestamps_ascending.
  - apply List.Forall_forall. intros p Hp. apply computedPoints_In in Hp as [_ Hp].
    exact (computePoint_Some _ _ _ _ _ _ _ Hp).
Qed.

(** A computer whose expression has no value at the second of its three
    timestamps. *)
Definition dividesByZeroOnce : MathTraceComputer :=
  compute "1/a" [("a"%string, mkSeries [(0, 2); (10, 0); (20, 4)]%float)]
    (mkOutput [(5, 5)]%float 0) 1000.

Lemma output_points_witness :
  startComputation exampleLibm linearInterpolation neverCancelled dividesByZeroOnce
  = Some (mkRun [computationStarted; progressUpdated 0; progressUpdated 100;
                 computationComplete]
            (mkOutput [(0, 0.5); (20, 0.25)]%float 1) 2 1 false)
  /\ ascending [0; 20]%float.
Proof.
  assert (startComputation exampleLibm linearInterpolation neverCancelled dividesByZeroOnce
          = Some (mkRun [computationStarted; progressUpdated 0; progressUpdated 100;
                         computationComplete]
                    (mkOutput [(0, 0.5); (20, 0.25)]%float 1) 2 1 false)) as Hrun
    by (vm_compute; reflexivity).
  split; [exact Hrun|].
  assert (prepare dividesByZeroOnce
          = Some (inr (mkParser (operatorNode OP_DIVIDE (numberNode 1) (variableNode "a")) "",
                       ["a"%string], [0; 10; 20]%float))) as Hprep
    by (vm_compute; reflexivity).
  exact (proj1 (proj2 (proj2
    (output_points exampleLibm linearInterpolation neverCancelled dividesByZeroOnce
       _ _ _ _ Hprep Hrun)))).
Defined.

(** ** The signals of a run *)

(** X12. Every run, however it ends, emits [computationStarted] first,
    then only [progressUpdated] signals, then exactly one closing signal,
    which is [computationComplete] or [computationFailed]. It is
    [computationComplete] only for a run that was not cancelled and wrote
    at least one point, all of them counted as valid; a run that closes
    with [computationFailed] was cancelled or has no valid point. *)
Theorem signal_protocol
        (libm : Libm) (getValueAtTime : DataSeries -> float -> float)
        (cancelRequested : nat -> bool) (this : MathTraceComputer) :
  exists r mid closing,
    startComputation libm getValueAtTime cancelRequested this = Some r
    /\ signals r = computationStarted :: mid ++ [closing]
    /\ Forall isProgress mid
    /\ ((closing = computationComplete /\ cancelled r = false /\ 0 < valid r
         /\ Z.of_nat (length (points (output r))) = valid r)
        \/ (exists error, closing = computationFailed error)
           /\ (cancelled r = true \/ valid r = 0)).
Proof.
  destruct (prepare_total this) as ([error|[[parser requiredVars] timestamps]] & Hprep).
  { unfold startComputation. rewrite Hprep.
    eexists. exists [], (computationFailed error).
    split; [reflexivity|]. split; [reflexivity|]. split; [constructor|].
    right. split; [eauto | right; reflexivity]. }
  destruct (startComputation_loop libm getValueAtTime cancelRequested this _ _ _ Hprep)
    as (c & st & sigs & Hloop & Hrun).
  apply mainLoop_effect in Hloop
    as (Hv & _ & _ & _ & (added & Hpts & Hlen & _) & _ & Hsig & _).
  cbn [initialLocals validPoints skippedPoints outputSeries clearData points app] in *.
  rewrite Hrun.
  destruct c.
  - eexists. exists sigs, (computationFailed cancelledMessage).
    split; [reflexivity|]. split; [reflexivity|]. split; [exact Hsig|].
    right. split; [eauto | left; reflexivity].
  - destruct (validPoints st =? 0) eqn:Hzero.
    + eexists. exists sigs, (computationFailed (noResultsMessage (skippedPoints st))).
      split; [reflexivity|]. split; [reflexivity|]. split; [exact Hsig|].
      right. split; [eauto | right; cbn; lia].
    + eexists. exists (sigs ++ [progressUpdated 100]), computationComplete.
      split; [reflexivity|].
      split; [cbn [signals]; rewrite <- List.app_assoc; reflexivity|].
      split; [apply Forall_app; split; [exact Hsig | repeat constructor]|].
      left. cbn [cancelled valid output update points]. rewrite Hpts.
      split; [reflexivity|]. split; [reflexivity|]. split; lia.
Qed.

(** ** Computing into a series that holds data *)

Section PreviousOutput.
Context (libm : Libm) (getValueAtTime : DataSeries -> float -> float).
Context (cancelRequested : nat -> bool).
Context (parser : MathExpressionParser) (requiredVars : list string).
Context (this this' : MathTraceComputer) (total : Z).
Hypothesis same_mapping : currentVariableMapping this = currentVariableMapping this'.
Hypothesis same_gap : currentMaxGapSize this = currentMaxGapSize this'.

Lemma computePoint_same (t : float) :
  computePoint libm getValueAtTime parser requiredVars this t
  = computePoint libm getValueAtTime parser requiredVars this' t.
Proof. unfold computePoint. rewrite same_mapping, same_gap. reflexivity. Qed.

(** The loop reads the output series nowhere: what it signals and counts
    depends on the locals other than [outputSeries] only. *)
Lemma mainLoop_same (timestamps : list float) (i : nat) (st st' : Locals) :
  lastProgress st = lastProgress st' ->
  validPoints st = validPoints st' ->
  skippedPoints st = skippedPoints st' ->
  forall c c' end_ end' sigs sigs',
    mainLoop libm getValueAtTime cancelRequested parser requiredVars this total
      timestamps i st = (c, end_, sigs) ->
    mainLoop libm getValueAtTime cancelRequested parser requiredVars this' total
      timestamps i st' = (c', end', sigs') ->
    c = c' /\ sigs = sigs'
    /\ validPoints end_ = validPoints end' /\ skippedPoints end_ = skippedPoints end'.
Proof.
  revert i st st'.
  induction timestamps as [|t rest IH]; intros i st st' Hlast Hvalid Hskipped
    c c' end_ end' sigs sigs'.
  { cbn. intros [= <- <- <-] [= <- <- <-]. auto. }
  rewrite !mainLoop_cons. rewrite <- computePoint_same.
  destruct (cancelRequested i).
  { intros [= <- <- <-] [= <- <- <-]. auto. }
  destruct (computePoint _ _ _ _ this t) as [result|].
  - cbv zeta. rewrite <- Hlast, <- Hvalid, <- Hskipped.
    destruct (negb _ && _)%bool.
    + destruct (mainLoop _ _ _ _ _ this _ _ _ _) as [[c0 st0] sigs0] eqn:H1.
      destruct (mainLoop _ _ _ _ _ this' _ _ _ _) as [[c0' st0'] sigs0'] eqn:H2.
      intros [= <- <- <-] [= <- <- <-].
      assert (c0 = c0' /\ sigs0 = sigs0'
              /\ validPoints st0 = validPoints st0'
              /\ skippedPoints st0 = skippedPoints st0') as (-> & -> & ? & ?)
        by (eapply IH; [| | |exact H1|exact H2]; reflexivity).
      auto.
    + apply IH; reflexivity.
  - rewrite <- Hskipped. apply IH; cbn; congruence.
Qed.
End PreviousOutput.

(** X13. What the output series held before the run has no influence on
    a run that reaches its loop: computing the same expression over the
    same mapping into two different output series gives the same signals,
    the same counts and the same points. The earlier points are gone, also
    when the run is cancelled or yields no valid point. *)
Theorem previous_output_is_discarded
        (libm : Libm) (getValueAtTime : DataSeries -> float -> float)
        (cancelRequested : nat -> bool)
        (expression : string) (variableMapping : SeriesMap) (maxGapSize : float)
        (previous previous' : OutputSeries)
        (parser : MathExpressionParser) (requiredVars : list string)
        (timestamps : list float) :
  prepare (compute expression variableMapping previous maxGapSize)
  = Some (inr (parser, requiredVars, timestamps)) ->
  exists r r',
    startComputation libm getValueAtTime cancelRequested
      (compute expression variableMapping previous maxGapSize) = Some r
    /\ startComputation libm getValueAtTime cancelRequested
         (compute expression variableMapping previous' maxGapSize) = Some r'
    /\ signals r = signals r' /\ valid r = valid r' /\ skipped r = skipped r'
    /\ cancelled r = cancelled r'
    /\ points (output r) = points (output r').
Proof.
  intros Hprep.
  assert (prepare (compute expression variableMapping previous' maxGapSize)
          = Some (inr (parser, requiredVars, timestamps))) as Hprep' by exact Hprep.
  destruct (startComputation_loop libm getValueAtTime cancelRequested _ _ _ _ Hprep)
    as (c & st & sigs & Hloop & Hrun).
  destruct (startComputation_loop libm getValueAtTime cancelRequested _ _ _ _ Hprep')
    as (c' & st' & sigs' & Hloop' & Hrun').
  rewrite Hrun, Hrun'. eexists. eexists.
  split; [reflexivity|]. split; [reflexivity|].
  cbn [signals valid skipped cancelled output].
  assert (c = c' /\ sigs = sigs'
          /\ validPoints st = validPoints st' /\ skippedPoints st = skippedPoints st')
    as (<- & <- & Hvalid & Hskipped)
    by (eapply mainLoop_same; [| | | | |exact Hloop|exact Hloop']; reflexivity).
  apply mainLoop_points in Hloop as (k & _ & Hsum & Hout & _).
  apply mainLoop_points in Hloop' as (k' & _ & Hsum' & Hout' & _).
  cbn [initialLocals validPoints skippedPoints outputSeries clearData points app
       currentOutputSeries compute] in *.
  assert (k = k') as <- by lia.
  rewrite <- Hvalid, <- Hskipped.
  split; [reflexivity|]. split; [reflexivity|]. split; [reflexivity|].
  split; [reflexivity|].
  transitivity (points (outputSeries st)); [destruct c; reflexivity|].
  transitivity (points (outputSeries st')); [|destruct c; reflexivity].
  rewrite Hout, Hout'. reflexivity.
Qed.

Lemma previous_output_is_discarded_witness :
  exists r r',
    startComputation exampleLibm linearInterpolation neverCancelled
      (compute "1/a" [("a"%string, mkSeries [(0, 2); (10, 0); (20, 4)]%float)]
         (mkOutput [(5, 5)]%float 0) 1000) = Some r
    /\ startComputation exampleLibm linearInterpolation neverCancelled
         (compute "1/a" [("a"%string, mkSeries [(0, 2); (10, 0); (20, 4)]%float)]
            (mkOutput [] 7) 1000) = Some r'
    /\ signals r = signals r' /\ valid r = valid r' /\ skipped r = skipped r'
    /\ cancelled r = cancelled r'
    /\ points (output r) = points (output r').
Proof.
  apply (previous_output_is_discarded exampleLibm linearInterpolation neverCancelled
           "1/a" [("a"%string, mkSeries [(0, 2); (10, 0); (20, 4)]%float)] 1000
           (mkOutput [(5, 5)]%float 0) (mkOutput [] 7)
           (mkParser (operatorNode OP_DIVIDE (numberNode 1) (variableNode "a")) "")
           ["a"%string] [0; 10; 20]%float).
  vm_compute. reflexivity.
Defined.

(** ** Series on one time base *)

Lemma ascending_eqb_eq (l : list float) (a b : float) :
  ascending l -> In a l -> In b l -> (a =? b)%float = true -> a = b.
Proof.
  induction 1 as [|x l Hs IH Hx]; [intros []|].
  rewrite List.Forall_forall in Hx.
  intros [<-|Ha] [<-|Hb] Hab; try reflexivity.
  - apply Hx in Hb. float_order.
  - apply Hx in Ha. float_order.
  - apply IH; assumption.
Qed.

(** X14. When the timestamps of all series are those of one strictly
    ascending grid without NaN, each grid point occurring in some series,
    [collectTimestamps] returns exactly this grid: series sampled on a
    common time base give one evaluation point per sample time, and no
    others. *)
Theorem collectTimestamps_common_grid (series : SeriesMap) (grid : list float) :
  ascending grid -> Forall ordered grid ->
  (forall t, In t (allTimestamps series) <-> In t grid) ->
  collectTimestamps series = grid.
Proof.
  intros Hgrid Hord Hsame.
  assert (Forall ordered (allTimestamps series)) as Hword.
  { apply List.Forall_forall. intros t Ht. rewrite List.Forall_forall in Hord.
    apply Hord, Hsame, Ht. }
  pose proof (collectTimestamps_ascending series) as Hasc.
  assert (forall t, In t (collectTimestamps series) -> In t grid) as Hin.
  { intros t Ht. apply Hsame. unfold collectTimestamps in Ht.
    rewrite collectTimestamps_insertAll in Ht. apply insertAll_In in Ht as [Ht|[]].
    exact Ht. }
  assert (covers (collectTimestamps series) grid) as Hcov.
  { intros t Ht. apply Hsame in Ht. unfold collectTimestamps.
    rewrite collectTimestamps_insertAll.
    apply (insertAll_covers _ [] Hword); [constructor | exact Ht]. }
  assert (sameValues (collectTimestamps series) grid) as Hvalues.
  { apply ascending_unique; [exact Hasc | exact Hgrid | | exact Hcov].
    apply covers_incl; [|exact Hin].
    apply List.Forall_forall. intros t Ht. rewrite List.Forall_forall in Hord.
    apply Hord, Hin, Ht. }
  assert (forall l1 l2, sameValues l1 l2 ->
            (forall t, In t l1 -> In t grid) -> (forall t, In t l2 -> In t grid) ->
            l1 = l2) as Heq.
  { induction 1 as [|a b l1 l2 Hab H IH]; intros H1 H2; [reflexivity|].
    f_equal.
    - apply (ascending_eqb_eq grid); [exact Hgrid | apply H1 | apply H2 | exact Hab];
        cbn; auto.
    - apply IH; intros t Ht; [apply H1 | apply H2]; cbn; auto. }
  apply Heq; [exact Hvalues | exact Hin | tauto].
Qed.

Lemma collectTimestamps_common_grid_witness :
  collectTimestamps [("a"%string, seriesAt [0; 10; 20]%float);
                     ("b"%string, seriesAt [20; 0; 10]%float)]
  = [0; 10; 20]%float.
Proof.
  apply (collectTimestamps_common_grid
           [("a"%string, seriesAt [0; 10; 20]%float);
            ("b"%string, seriesAt [20; 0; 10]%float)] [0; 10; 20]%float).
  - repeat constructor.
  - repeat constructor.
  - intros t. cbn. tauto.
Defined.

(* ===================================================================== *)
(** * Part IV. The dialog (widgets/math_trace_dialog)                     *)
(* ===================================================================== *)

(** The dialog is the caller of the parser and of the computer: it
    validates what the user entered, builds the variable mapping and hands
    both to [MathTraceComputer::compute]. The widgets are modelled by what
    the code reads from them. *)

(** [QString::trimmed] on a string. *)
Definition trimmedString (s : string) : string :=
  string_of_list_ascii (trimmed (list_ascii_of_string s)).

(** [QString::isEmpty]. *)
Definition isEmpty (s : string) : bool := String.eqb s EmptyString.

(** A [DataSeriesPointer]: null, or pointing at a series. *)
Definition DataSeriesPointer := option DataSeries.

(** A [VariableRow], as far as the dialog reads it: the text of
    [editVariableName], the current index of [comboSeries] (-1 when no item
    is selected) and [seriesMap], the series behind the items. *)
Record VariableRow := mkRow {
  editVariableName : string;
  comboCurrentIndex : Z;
  seriesMap : gmap Z DataSeriesPointer
}.

(** [VariableRow::getVariableName]. *)
Definition getVariableName (row : VariableRow) : string :=
  trimmedString (editVariableName row).

(** [VariableRow::getSelectedSeries]. *)
Definition getSelectedSeries (row : VariableRow) : DataSeriesPointer :=
  let index := comboCurrentIndex row in
  if ((index <? 0)
      || negb (match seriesMap row !! index with Some _ => true | None => false end))%bool
  then None
  else default None (seriesMap row !! index).

(** [QMap<QString, DataSeriesPointer>], as the dialog builds it: the
    entries in ascending key order, values possibly null. *)
Definition PointerMap := list (string * DataSeriesPointer).

(** [map[key] = v] on a [QMap] with [QString] keys: the entry of an equal
    key is replaced, a new key is entered at its place in the order. *)
Fixpoint mapInsert {V : Type} (m : list (string * V)) (key : string) (v : V)
  : list (string * V) :=
  match m with
  | [] => [(key, v)]
  | (k, w) :: m' =>
      if String.ltb key k then (key, v) :: m
      else if String.eqb k key then (key, v) :: m'
      else (k, w) :: mapInsert m' key v
  end.

(** [QMap::contains] on the dialog's map. *)
Definition pointerMapContains (m : PointerMap) (var : string) : bool :=
  existsb (fun it => String.eqb it.1 var) m.

(** The members and widgets of [MathTraceDialog] that [validateInputs] and
    [createMathTrace] read. [editingSeriesLabel] is
    [editingSeries->getLabel()], read in edit mode only. *)
Record MathTraceDialog := mkDialog {
  editTraceName : string;
  editExpression : string;
  variableRows : list VariableRow;
  isEditMode : bool;
  editingSeriesLabel : string
}.

(** What [validateInputs] answers: [true], or [false] with the text it
    passed to [setStatus]. *)
Inductive Validation :=
  | Accepted
  | Rejected (status : string).

(** The loop of [validateInputs] over the rows. *)
Fixpoint checkRows (rows : list VariableRow) (variableMapping : PointerMap)
         (usedNames : gset string) : string + PointerMap :=
  match rows with
  | [] => inr variableMapping
  | row :: rows' =>
      let varName := getVariableName row in
      if isEmpty varName then inl "Error: Variable name cannot be empty"%string
      else if bool_decide (varName ∈ usedNames)
      then inl ("Error: Duplicate variable name '" ++ varName ++ "'")%string
      else
        let usedNames := {[ varName ]} ∪ usedNames in
        match getSelectedSeries row with
        | None => inl ("Error: No series selected for variable '" ++ varName ++ "'")%string
        | Some series =>
            checkRows rows' (mapInsert variableMapping varName (Some series)) usedNames
        end
  end.

Section Dialog.
(** [MathDataSource::hasMathSeries], a lookup in the registry of the
    application. *)
Context (hasMathSeries : string -> bool).

(** [MathTraceDialog::validateInputs]; [None] only if the parser's fuel
    ran out. *)
Definition validateInputs (this : MathTraceDialog) : option Validation :=
  let traceName := trimmedString (editTraceName this) in
  if isEmpty traceName then Some (Rejected "Error: Trace name cannot be empty")
  else if (hasMathSeries traceName
           && (negb (isEditMode this)
               || negb (String.eqb (editingSeriesLabel this) traceName)))%bool
  then Some (Rejected "Error: A math trace with this name already exists")
  else
    let expression := trimmedString (editExpression this) in
    if isEmpty expression then Some (Rejected "Error: Expression cannot be empty")
    else
      match parse expression (mkParser nullptr EmptyString) with
      | None => None
      | Some (false, parser) => Some (Rejected ("Error: " ++ errorMessage parser))
      | Some (true, parser) =>
          match variableRows this with
          | [] => Some (Rejected "Error: At least one variable must be defined")
          | _ =>
              match checkRows (variableRows this) [] ∅ with
              | inl status => Some (Rejected status)
              | inr variableMapping =>
                  match firstFailing (pointerMapContains variableMapping)
                          (getVariables parser) with
                  | Some var =>
                      Some (Rejected ("Error: Variable '" ++ var
                                      ++ "' used in expression but not defined"))
                  | None => Some Accepted
                  end
              end
          end
      end.
End Dialog.

(** [MathTraceDialog::createMathTrace], up to its call of
    [computer->compute(expression, variableMapping, mathSeries)]: the
    expression and the mapping it passes. *)
Definition createMathTrace (this : MathTraceDialog) : string * PointerMap :=
  let expression := trimmedString (editExpression this) in
  let variableMapping :=
    fold_left
      (fun variableMapping row =>
         mapInsert variableMapping (getVariableName row) (getSelectedSeries row))
      (variableRows this) [] in
  (expression, variableMapping).

(** ** Properties of the dialog *)

(** A map without null pointers, as the computer needs it. *)
Definition pointers (m : SeriesMap) : PointerMap := map (fun it => (it.1, Some it.2)) m.

(** The checks of the loop of [validateInputs], as a property of the
    rows. *)
Definition rowsOk (rows : list VariableRow) : Prop :=
  Forall (fun row => getVariableName row <> EmptyString
                     /\ getSelectedSeries row <> None) rows
  /\ List.NoDup (map getVariableName rows).

Definition insertRow (variableMapping : PointerMap) (row : VariableRow) : PointerMap :=
  mapInsert variableMapping (getVariableName row) (getSelectedSeries row).

Lemma isEmpty_true (s : string) : isEmpty s = true <-> s = EmptyString.
Proof. apply String.eqb_eq. Qed.

Lemma isEmpty_false (s : string) : isEmpty s = false <-> s <> EmptyString.
Proof. apply String.eqb_neq. Qed.

Lemma checkRows_spec (rows : list VariableRow) (variableMapping : PointerMap)
      (usedNames : gset string) :
  match checkRows rows variableMapping usedNames with
  | inr result =>
      rowsOk rows
      /\ (forall row, In row rows -> getVariableName row ∉ usedNames)
      /\ result = fold_left insertRow rows variableMapping
  | inl _ =>
      ~ (rowsOk rows /\ forall row, In row rows -> getVariableName row ∉ usedNames)
  end.
Proof.
  revert variableMapping usedNames.
  induction rows as [|row rows IH]; intros variableMapping usedNames.
  { cbn. split; [split; constructor|]. split; [intros _ []|reflexivity]. }
  cbn [checkRows]. unfold rowsOk. cbn [map fold_left].
  destruct (isEmpty (getVariableName row)) eqn:Hempty.
  { apply isEmpty_true in Hempty. intros [[Hall _] _].
    apply Forall_inv in Hall as [H _]. contradiction. }
  apply isEmpty_false in Hempty.
  destruct (bool_decide (getVariableName row ∈ usedNames)) eqn:Hused.
  { apply bool_decide_eq_true in Hused. intros [_ Hnot].
    apply (Hnot row); [cbn; auto | exact Hused]. }
  apply bool_decide_eq_false in Hused.
  destruct (getSelectedSeries row) as [series|] eqn:Hsel.
  2:{ intros [[Hall _] _]. apply Forall_inv in Hall as [_ H]. rewrite Hsel in H.
      contradiction. }
  specialize (IH (mapInsert variableMapping (getVariableName row) (Some series))
                 ({[ getVariableName row ]} ∪ usedNames)).
  destruct (checkRows rows _ _) as [status|result].
  - intros [[Hall Hnodup] Hnot]. apply IH.
    apply Forall_inv_tail in Hall. apply NoDup_cons_iff in Hnodup as [Hfresh Hnodup].
    split; [split; assumption|].
    intros row' Hrow' Hin. apply elem_of_union in Hin as [Hin|Hin].
    + apply elem_of_singleton in Hin. apply Hfresh. rewrite <- Hin.
      apply in_map. exact Hrow'.
    + apply (Hnot row'); [cbn; auto | exact Hin].
  - destruct IH as ([Hall Hnodup] & Hnot & ->).
    split; [split|split].
    + constructor; [|exact Hall]. split; [exact Hempty|]. rewrite Hsel. discriminate.
    + constructor; [|exact Hnodup]. intros Hin. apply in_map_iff in Hin as (row' & Heq & Hin).
      apply (Hnot row' Hin). rewrite Heq. apply elem_of_union_l, elem_of_singleton.
      reflexivity.
    + intros row' [<-|Hin]; [exact Hused|].
      intros H. apply (Hnot row' Hin). apply elem_of_union_r. exact H.
    + change (insertRow variableMapping row)
        with (mapInsert variableMapping (getVariableName row) (getSelectedSeries row)).
      rewrite Hsel. reflexivity.
Qed.

Lemma pointerMapContains_insert (m : PointerMap) (key var : string) (v : DataSeriesPointer) :
  pointerMapContains (mapInsert m key v) var
  = (String.eqb key var || pointerMapContains m var)%bool.
Proof.
  unfold pointerMapContains.
  induction m as [|[k w] m IH]; cbn [mapInsert existsb fst]; [reflexivity|].
  destruct (String.ltb key k); [reflexivity|].
  destruct (String.eqb k key) eqn:Hk.
  - apply String.eqb_eq in Hk as ->. cbn [existsb fst].
    destruct (String.eqb key var); reflexivity.
  - cbn [existsb fst]. rewrite IH.
    destruct (String.eqb k var), (String.eqb key var); reflexivity.
Qed.

Lemma pointerMapContains_rows (rows : list VariableRow) (m : PointerMap) (var : string) :
  pointerMapContains (fold_left insertRow rows m) var = true
  <-> In var (map getVariableName rows) \/ pointerMapContains m var = true.
Proof.
  revert m. induction rows as [|row rows IH]; intros m; cbn [fold_left map In]; [tauto|].
  rewrite IH. unfold insertRow. rewrite pointerMapContains_insert, orb_true_iff.
  rewrite String.eqb_eq. tauto.
Qed.

Lemma firstFailing_None (p : string -> bool) (vars : list string) :
  firstFailing p vars = None <-> forall x, In x vars -> p x = true.
Proof.
  unfold firstFailing. split.
  - intros H x Hx. apply (find_none _ _ H) in Hx. apply negb_false_iff in Hx. exact Hx.
  - intros H. destruct (find _ vars) as [x|] eqn:Hfind; [|reflexivity].
    apply find_some in Hfind as [Hx Hp]. rewrite (H x Hx) in Hp. discriminate.
Qed.

Lemma parse_empty (this : MathExpressionParser) :
  parse EmptyString this = Some (false, mkParser nullptr "Empty expression").
Proof. reflexivity. Qed.

(** What [validateInputs] accepts. *)
Lemma validateInputs_accepted (hasMathSeries : string -> bool)
      (this : MathTraceDialog) :
  validateInputs hasMathSeries this = Some Accepted
  <-> trimmedString (editTraceName this) <> EmptyString
      /\ (hasMathSeries (trimmedString (editTraceName this)) = true ->
          isEditMode this = true
          /\ editingSeriesLabel this = trimmedString (editTraceName this))
      /\ (exists parser,
             parse (trimmedString (editExpression this)) freshParser = Some (true, parser)
             /\ forall x, In x (getVariables parser) ->
                          In x (map getVariableName (variableRows this)))
      /\ variableRows this <> []
      /\ rowsOk (variableRows this).
Proof.
  unfold validateInputs. fold freshParser.
  set (traceName := trimmedString (editTraceName this)).
  set (expression := trimmedString (editExpression this)).
  destruct (isEmpty traceName) eqn:Hname.
  { apply isEmpty_true in Hname. split; [discriminate | tauto]. }
  apply isEmpty_false in Hname.
  set (taken := (hasMathSeries traceName
                 && (negb (isEditMode this)
                     || negb (String.eqb (editingSeriesLabel this) traceName)))%bool).
  assert (taken = false
          <-> (hasMathSeries traceName = true ->
               isEditMode this = true /\ editingSeriesLabel this = traceName)) as Htaken.
  { unfold taken.
    destruct (hasMathSeries traceName); [|split; [discriminate | reflexivity]].
    destruct (isEditMode this); cbn;
      [|split; [discriminate | intros H; destruct (H eq_refl); discriminate]].
    destruct (String.eqb (editingSeriesLabel this) traceName) eqn:Hlabel; cbn.
    - apply String.eqb_eq in Hlabel. tauto.
    - apply String.eqb_neq in Hlabel.
      split; [discriminate | intros H; destruct (H eq_refl); contradiction]. }
  destruct taken.
  { split; [discriminate|]. intros (_ & H & _). apply Htaken in H. discriminate. }
  assert (hasMathSeries traceName = true ->
          isEditMode this = true /\ editingSeriesLabel this = traceName) as Hfree
    by (apply Htaken; reflexivity).
  clear Htaken.
  destruct (isEmpty expression) eqn:Hexpr.
  { apply isEmpty_true in Hexpr. split; [discriminate|].
    intros (_ & _ & (parser & Hparse & _) & _). rewrite Hexpr, parse_empty in Hparse.
    discriminate. }
  destruct (parse expression freshParser) as [[[] parser]|] eqn:Hparse.
  2:{ split; [discriminate|]. intros (_ & _ & (p & Hp & _) & _). discriminate. }
  2:{ split; [discriminate|]. intros (_ & _ & (p & Hp & _) & _). discriminate. }
  destruct (variableRows this) as [|row rows] eqn:Hrows.
  { split; [discriminate|]. intros (_ & _ & _ & H & _). contradiction. }
  rewrite <- Hrows.
  pose proof (checkRows_spec (variableRows this) [] ∅) as Hcheck.
  destruct (checkRows (variableRows this) [] ∅) as [status|variableMapping].
  { split; [discriminate|]. intros (_ & _ & _ & _ & Hok). exfalso. apply Hcheck.
    split; [exact Hok|]. intros row' _. apply not_elem_of_empty. }
  destruct Hcheck as (Hok & _ & ->).
  destruct (firstFailing _ (getVariables parser)) as [var|] eqn:Hvars.
  - split; [discriminate|]. intros (_ & _ & (p & Hp & Hall) & _).
    injection Hp as <-.
    assert (firstFailing (pointerMapContains (fold_left insertRow (variableRows this) []))
              (getVariables parser) = None) as Hnone.
    { apply firstFailing_None. intros x Hx. apply pointerMapContains_rows. auto. }
    rewrite Hnone in Hvars. discriminate.
  - split; [|reflexivity]. intros _.
    split; [exact Hname|]. split; [exact Hfree|].
    split; [|split; [rewrite Hrows; discriminate | exact Hok]].
    exists parser. split; [reflexivity|].
    intros x Hx. rewrite firstFailing_None in Hvars.
    apply Hvars, pointerMapContains_rows in Hx as [Hx|Hx]; [exact Hx | discriminate].
Qed.

(** X15. [validateInputs] always answers, and it accepts exactly the
    inputs its comment lists: the trimmed trace name is not empty, and is
    not the name of an existing math trace unless the dialog edits the
    trace of this name; the trimmed expression parses; there is at least
    one row; every row has a non-empty trimmed name and a selected series;
    no two rows have the same trimmed name; and every variable of the
    expression is the name of a row. *)
Theorem validateInputs_accepts_iff (hasMathSeries : string -> bool)
        (this : MathTraceDialog) :
  (exists answer, validateInputs hasMathSeries this = Some answer)
  /\ (validateInputs hasMathSeries this = Some Accepted
      <-> trimmedString (editTraceName this) <> EmptyString
          /\ (hasMathSeries (trimmedString (editTraceName this)) = true ->
              isEditMode this = true
              /\ editingSeriesLabel this = trimmedString (editTraceName this))
          /\ (exists parser,
                 parse (trimmedString (editExpression this)) freshParser
                 = Some (true, parser)
                 /\ forall x, In x (getVariables parser) ->
                              In x (map getVariableName (variableRows this)))
          /\ variableRows this <> []
          /\ rowsOk (variableRows this)).
Proof.
  split; [|apply validateInputs_accepted].
  unfold validateInputs.
  destruct (isEmpty _); [eauto|]. destruct (_ && _)%bool; [eauto|].
  destruct (isEmpty _); [eauto|].
  destruct (parse_total (trimmedString (editExpression this)) (mkParser nullptr EmptyString))
    as (ok & parser & ->).
  destruct ok; [|eauto].
  destruct (variableRows this); [eauto|].
  destruct (checkRows _ _ _); [eauto|].
  destruct (firstFailing _ _); eauto.
Qed.

(** ** From the dialog to the run *)

Lemma lookupSeries_insert (m : SeriesMap) (key var : string) (s : DataSeries) :
  lookupSeries (mapInsert m key s) var
  = if String.eqb key var then Some s else lookupSeries m var.
Proof.
  induction m as [|[k w] m IH]; cbn [mapInsert lookupSeries]; [reflexivity|].
  destruct (String.ltb key k); [reflexivity|].
  destruct (String.eqb k key) eqn:Hk.
  - apply String.eqb_eq in Hk as ->. cbn [lookupSeries].
    destruct (String.eqb key var); reflexivity.
  - cbn [lookupSeries]. rewrite IH.
    destruct (String.eqb k var) eqn:Hv; [|reflexivity].
    destruct (String.eqb key var) eqn:Hkey; [|reflexivity].
    apply String.eqb_eq in Hv, Hkey. apply String.eqb_neq in Hk. congruence.
Qed.

Lemma mapInsert_In (m : SeriesMap) (key : string) (s : DataSeries) (it : string * DataSeries) :
  In it (mapInsert m key s) -> it = (key, s) \/ In it m.
Proof.
  induction m as [|[k w] m IH]; cbn [mapInsert].
  - intros [<-|[]]. auto.
  - destruct (String.ltb key k); [cbn; intuition auto|].
    destruct (String.eqb k key); cbn; [intuition auto|].
    intros [<-|H]; [auto|]. destruct (IH H); auto.
Qed.

Lemma mapInsert_pointers (m : SeriesMap) (key : string) (s : DataSeries) :
  mapInsert (pointers m) key (Some s) = pointers (mapInsert m key s).
Proof.
  unfold pointers. induction m as [|[k w] m IH]; cbn [mapInsert map fst snd]; [reflexivity|].
  destruct (String.ltb key k); [reflexivity|].
  destruct (String.eqb k key); [reflexivity|].
  cbn [map fst snd]. rewrite IH. reflexivity.
Qed.

Lemma lookupSeries_In (m : SeriesMap) (var : string) (s : DataSeries) :
  lookupSeries m var = Some s -> In (var, s) m.
Proof.
  induction m as [|[k w] m IH]; cbn [lookupSeries]; [discriminate|].
  destruct (String.eqb k var) eqn:Hk.
  - apply String.eqb_eq in Hk as ->. intros [= ->]. cbn. auto.
  - intros H. cbn. auto.
Qed.

(** The mapping without null pointers that the rows describe. *)
Definition selectRow (m : SeriesMap) (row : VariableRow) : SeriesMap :=
  match getSelectedSeries row with
  | Some s => mapInsert m (getVariableName row) s
  | None => m
  end.

Lemma insertRow_pointers (rows : list VariableRow) (m : SeriesMap) :
  Forall (fun row => getVariableName row <> EmptyString
                     /\ getSelectedSeries row <> None) rows ->
  fold_left insertRow rows (pointers m) = pointers (fold_left selectRow rows m).
Proof.
  intros Hall. revert m. induction Hall as [|row rows [_ Hsel] Hall IH]; intros m;
    [reflexivity|].
  cbn [fold_left]. unfold insertRow at 2, selectRow at 2.
  destruct (getSelectedSeries row) as [s|]; [|contradiction].
  rewrite mapInsert_pointers. apply IH.
Qed.

Lemma selectRow_other (rows : list VariableRow) (m : SeriesMap) (var : string) :
  ~ In var (map getVariableName rows) ->
  lookupSeries (fold_left selectRow rows m) var = lookupSeries m var.
Proof.
  revert m. induction rows as [|row rows IH]; intros m Hnot; [reflexivity|].
  cbn [fold_left map In] in *. rewrite IH by tauto.
  unfold selectRow. destruct (getSelectedSeries row); [|reflexivity].
  rewrite lookupSeries_insert.
  destruct (String.eqb (getVariableName row) var) eqn:E; [|reflexivity].
  apply String.eqb_eq in E. tauto.
Qed.

Lemma selectRow_lookup (rows : list VariableRow) (m : SeriesMap) (row : VariableRow) :
  rowsOk rows -> In row rows ->
  lookupSeries (fold_left selectRow rows m) (getVariableName row) = getSelectedSeries row.
Proof.
  intros [Hall Hnodup]. revert m.
  induction rows as [|row' rows IH]; intros m; [intros []|].
  cbn [map] in Hnodup. apply NoDup_cons_iff in Hnodup as [Hfresh Hnodup].
  pose proof (Forall_inv Hall) as [_ Hsel]. apply Forall_inv_tail in Hall.
  cbn [fold_left]. intros [->|Hin]; [|apply IH; assumption].
  rewrite selectRow_other by exact Hfresh.
  unfold selectRow. destruct (getSelectedSeries row) as [s|]; [|contradiction].
  rewrite lookupSeries_insert, String.eqb_refl. reflexivity.
Qed.

Lemma selectRow_In (rows : list VariableRow) (m : SeriesMap) (it : string * DataSeries) :
  In it (fold_left selectRow rows m) ->
  In it m \/ exists row, In row rows /\ getSelectedSeries row = Some it.2.
Proof.
  revert m. induction rows as [|row rows IH]; intros m; cbn [fold_left]; [auto|].
  intros H. apply IH in H as [H|(row' & Hrow' & Hsel)]; [|right; exists row'; cbn; auto].
  unfold selectRow in H. destruct (getSelectedSeries row) as [s|] eqn:Hsel; [|auto].
  apply mapInsert_In in H as [->|H]; [|auto].
  right. exists row. cbn. auto.
Qed.

Lemma set_insert_nonempty (x : float) (s : list float) : set_insert x s <> [].
Proof.
  destruct s as [|y s]; cbn; [discriminate|].
  destruct (x <? y)%float; [discriminate|]. destruct (y <? x)%float; discriminate.
Qed.

Lemma insertAll_nonempty (l s : list float) : l <> [] -> insertAll l s <> [].
Proof.
  destruct l as [|x l]; [contradiction|]. intros _.
  change (insertAll (x :: l) s) with (insertAll l (set_insert x s)).
  pose proof (set_insert_nonempty x s) as Hne.
  destruct (set_insert x s) as [|z s'] eqn:E; [contradiction|].
  intros Hnil. pose proof (insertAll_keeps l (z :: s') z (or_introl eq_refl)) as Hin.
  rewrite Hnil in Hin. destruct Hin.
Qed.

Lemma collectTimestamps_nonempty (series : SeriesMap) (it : string * DataSeries) :
  In it series -> size it.2 <> 0%nat -> collectTimestamps series <> [].
Proof.
  intros Hin Hsize. unfold collectTimestamps. rewrite collectTimestamps_insertAll.
  apply insertAll_nonempty. unfold size in Hsize.
  destruct (samples it.2) as [|p l] eqn:Hsamples; [contradiction|].
  intros Hnil.
  assert (In p.1 (allTimestamps series)) as H.
  { unfold allTimestamps. apply in_flat_map. exists it. split; [exact Hin|].
    rewrite Hsamples. cbn. auto. }
  rewrite Hnil in H. destruct H.
Qed.

(** X16. What [validateInputs] accepts, [startComputation] does not
    reject on structure. After an accepted validation the mapping that
    [createMathTrace] passes to [compute] holds no null pointer and binds
    the trimmed name of every row to the series selected in that row, and
    the run over it passes the parse and the binding check; when the
    selected series hold data, as the combo boxes offer only such series,
    it passes the remaining checks as well and reaches its loop, whatever
    the output series and the gap limit. *)
Theorem accepted_dialog_reaches_loop (hasMathSeries : string -> bool)
        (this : MathTraceDialog) :
  validateInputs hasMathSeries this = Some Accepted ->
  exists (m : SeriesMap) (parser : MathExpressionParser),
    (createMathTrace this).2 = pointers m
    /\ (forall row, In row (variableRows this) ->
                    lookupSeries m (getVariableName row) = getSelectedSeries row)
    /\ parse (createMathTrace this).1 freshParser = Some (true, parser)
    /\ (forall x, In x (getVariables parser) -> mapContains m x = true)
    /\ ((forall row s, In row (variableRows this) -> getSelectedSeries row = Some s ->
                       size s <> 0%nat) ->
        forall outputSeries maxGapSize,
        exists timestamps,
          prepare (compute (createMathTrace this).1 m outputSeries maxGapSize)
          = Some (inr (parser, getVariables parser, timestamps))).
Proof.
  intros Hvalid.
  apply validateInputs_accepted in Hvalid
    as (_ & _ & (parser & Hparse & Hvars) & Hrows & Hok).
  set (rows := variableRows this) in *.
  exists (fold_left selectRow rows []), parser.
  assert (forall row, In row rows ->
            lookupSeries (fold_left selectRow rows []) (getVariableName row)
            = getSelectedSeries row) as Hlookup
    by (intros row Hrow; apply selectRow_lookup; assumption).
  assert (forall x, In x (getVariables parser) ->
            exists row, In row rows /\ getVariableName row = x
                        /\ exists s, getSelectedSeries row = Some s
                                     /\ lookupSeries (fold_left selectRow rows []) x = Some s)
    as Hbound.
  { intros x Hx. apply Hvars, in_map_iff in Hx as (row & <- & Hrow).
    exists row. split; [exact Hrow|]. split; [reflexivity|].
    destruct Hok as [Hall _]. rewrite List.Forall_forall in Hall.
    destruct (Hall row Hrow) as [_ Hsel].
    destruct (getSelectedSeries row) as [s|] eqn:E; [|contradiction].
    exists s. split; [reflexivity|]. rewrite Hlookup by exact Hrow. exact E. }
  assert (forall x, In x (getVariables parser) ->
            mapContains (fold_left selectRow rows []) x = true) as Hcontains.
  { intros x Hx. destruct (Hbound x Hx) as (_ & _ & _ & s & _ & Hs).
    unfold mapContains. rewrite Hs. reflexivity. }
  split.
  { cbn [createMathTrace snd]. fold insertRow. fold rows.
    apply (insertRow_pointers rows []), Hok. }
  split; [exact Hlookup|]. split; [exact Hparse|]. split; [exact Hcontains|].
  intros Hdata outputSeries maxGapSize.
  unfold prepare. cbn [compute currentExpression currentVariableMapping createMathTrace fst].
  fold freshParser. rewrite Hparse.
  assert (firstFailing (mapContains (fold_left selectRow rows [])) (getVariables parser)
          = None) as -> by (apply firstFailing_None; exact Hcontains).
  assert (firstFailing
            (fun var => negb (size (seriesOf (fold_left selectRow rows []) var) =? 0)%nat)
            (getVariables parser) = None) as ->.
  { apply firstFailing_None. intros x Hx.
    destruct (Hbound x Hx) as (row & Hrow & _ & s & Hsel & Hs).
    unfold seriesOf. rewrite Hs. apply negb_true_iff, Nat.eqb_neq.
    exact (Hdata row s Hrow Hsel). }
  destruct (collectTimestamps (fold_left selectRow rows [])) as [|t ts] eqn:Hunion;
    [|eexists; reflexivity].
  exfalso. destruct rows as [|row rows'] eqn:Erows; [contradiction|].
  assert (In row rows) as Hrow by (rewrite Erows; cbn; auto).
  rewrite <- Erows in *.
  destruct Hok as [Hall _]. rewrite List.Forall_forall in Hall.
  destruct (Hall row Hrow) as [_ Hsel].
  destruct (getSelectedSeries row) as [s|] eqn:E; [|contradiction].
  pose proof (Hlookup row Hrow) as Hs. rewrite E in Hs.
  apply lookupSeries_In in Hs.
  apply (collectTimestamps_nonempty _ _ Hs); [|exact Hunion].
  exact (Hdata row s Hrow E).
Qed.

(** A dialog with one row, named "a" between spaces, whose combo box
    offers one series, selected; no math trace exists yet. *)
Definition exampleDialog : MathTraceDialog :=
  mkDialog "double" " a*2 "
    [mkRow " a " 0 (<[0 := Some (seriesAt [0; 10]%float)]> ∅)] false EmptyString.

Lemma accepted_dialog_reaches_loop_witness :
  exists (m : SeriesMap) (parser : MathExpressionParser) (timestamps : list float),
    (createMathTrace exampleDialog).2 = pointers m
    /\ prepare (compute (createMathTrace exampleDialog).1 m (mkOutput [] 0) 1000)
       = Some (inr (parser, getVariables parser, timestamps)).
Proof.
  assert (validateInputs (fun _ => false) exampleDialog = Some Accepted) as Hvalid
    by (vm_compute; reflexivity).
  assert (forall row s, In row (variableRows exampleDialog) ->
                        getSelectedSeries row = Some s -> size s <> 0%nat) as Hdata.
  { intros row s [<-|[]] Hsel. vm_compute in Hsel. injection Hsel as <-. discriminate. }
  destruct (accepted_dialog_reaches_loop (fun _ => false) exampleDialog Hvalid)
    as (m & parser & Hpointers & _ & _ & _ & Hrun).
  destruct (Hrun Hdata (mkOutput [] 0) 1000%float) as [timestamps Hprep].
  exists m, parser, timestamps. split; [exact Hpointers | exact Hprep].
Defined.

(** ** The value of an output point *)

Section Interpolation.
Context (getValueAtTime : DataSeries -> float -> float).
Context (mapping : SeriesMap) (timestamp : float).

(** The loop over [requiredVars] binds each of them to the interpolated
    value of its series, which is neither NaN nor infinite, and touches no
    other name. *)
Lemma interpolateAll_bindings (requiredVars : list string)
      (start values : gmap string float) :
  interpolateAll getValueAtTime requiredVars mapping timestamp start = Some values ->
  (forall x, In x requiredVars ->
             values !! x = Some (getValueAtTime (seriesOf mapping x) timestamp)
             /\ is_nan (getValueAtTime (seriesOf mapping x) timestamp) = false
             /\ is_infinity (getValueAtTime (seriesOf mapping x) timestamp) = false)
  /\ (forall x, ~ In x requiredVars -> values !! x = start !! x).
Proof.
  revert start. induction requiredVars as [|var vars IH]; intros start.
  { cbn. intros [= <-]. split; [intros x []|reflexivity]. }
  cbn [interpolateAll].
  destruct (is_nan (getValueAtTime (seriesOf mapping var) timestamp)) eqn:Hnan;
    [discriminate|].
  destruct (is_infinity (getValueAtTime (seriesOf mapping var) timestamp)) eqn:Hinf;
    [discriminate|].
  cbn [orb]. intros H. apply IH in H as [Hin Hout]. split.
  - intros x Hx. destruct (in_dec string_dec x vars) as [Hvars|Hvars]; [apply Hin, Hvars|].
    destruct Hx as [<-|Hx]; [|contradiction].
    rewrite (Hout var Hvars), lookup_insert_eq. auto.
  - intros x Hx. cbn [In] in Hx. rewrite Hout by tauto.
    apply lookup_insert_ne. tauto.
Qed.
End Interpolation.

(** The points of a run that reached its loop are computed points of
    timestamps of the union. *)
Lemma run_points (libm : Libm) (getValueAtTime : DataSeries -> float -> float)
      (cancelRequested : nat -> bool) (this : MathTraceComputer)
      (parser : MathExpressionParser) (requiredVars : list string)
      (timestamps : list float) (r : Run) (p : float * float) :
  prepare this = Some (inr (parser, requiredVars, timestamps)) ->
  startComputation libm getValueAtTime cancelRequested this = Some r ->
  In p (points (output r)) ->
  In p.1 timestamps
  /\ computePoint libm getValueAtTime parser requiredVars this p.1 = Some p.2.
Proof.
  intros Hprep Hrun Hp.
  destruct (startComputation_loop libm getValueAtTime cancelRequested this _ _ _ Hprep)
    as (c & st & sigs & Hloop & Hrun').
  rewrite Hrun in Hrun'. injection Hrun' as ->. cbn [output] in Hp.
  apply mainLoop_effect in Hloop as (_ & _ & _ & _ & (added & Hpts & _ & Hall) & _).
  cbn [initialLocals outputSeries clearData points app] in Hpts.
  assert (In p added) as Hadded by (rewrite <- Hpts; destruct c; exact Hp).
  rewrite List.Forall_forall in Hall. exact (Hall p Hadded).
Qed.

(** X17. The value of every point of the output is the value of the
    expression under a binding of its variables to the interpolated values
    of their series at the point's timestamp: for a point [(t, v)] written
    by a run there is a mapping that binds every variable [x] of the
    expression to [getValueAtTime] of the series of [x] at [t], a value that
    is neither NaN nor infinite, binds nothing else, and under which
    [evaluate] returns [v]. *)
Theorem output_values
        (libm : Libm) (getValueAtTime : DataSeries -> float -> float)
        (cancelRequested : nat -> bool) (this : MathTraceComputer)
        (parser : MathExpressionParser) (requiredVars : list string)
        (timestamps : list float) (r : Run) (t v : float) :
  prepare this = Some (inr (parser, requiredVars, timestamps)) ->
  startComputation libm getValueAtTime cancelRequested this = Some r ->
  In (t, v) (points (output r)) ->
  exists variableValues : gmap string float,
    (forall x, In x (getVariables parser) ->
       variableValues !! x
       = Some (getValueAtTime (seriesOf (currentVariableMapping this) x) t)
       /\ is_nan (getValueAtTime (seriesOf (currentVariableMapping this) x) t) = false
       /\ is_infinity (getValueAtTime (seriesOf (currentVariableMapping this) x) t) = false)
    /\ (forall x, ~ In x (getVariables parser) -> variableValues !! x = None)
    /\ evaluate libm parser variableValues = Some v.
Proof.
  intros Hprep Hrun Hp.
  destruct (run_points _ _ _ _ _ _ _ _ _ Hprep Hrun Hp) as [_ Hpoint].
  cbn [fst snd] in Hpoint.
  apply prepare_inr in Hprep as (_ & -> & _ & _).
  unfold computePoint in Hpoint.
  destruct (isTimestampValid _ _ _); [|discriminate]. cbn [negb] in Hpoint.
  destruct (interpolateAll _ _ _ _ _) as [variableValues|] eqn:Hvalues; [|discriminate].
  destruct (evaluate _ _ _) as [result|] eqn:Heval; [|discriminate].
  destruct (is_nan result || is_infinity result)%bool; [discriminate|].
  injection Hpoint as <-.
  apply interpolateAll_bindings in Hvalues as [Hin Hout].
  exists variableValues. split; [exact Hin|]. split; [|exact Heval].
  intros x Hx. rewrite (Hout x Hx). apply lookup_empty.
Qed.

Lemma output_values_witness :
  exists variableValues : gmap string float,
    (forall x, In x ["a"%string] ->
       variableValues !! x
       = Some (linearInterpolation
                 (seriesOf (currentVariableMapping dividesByZeroOnce) x) 20)
       /\ is_nan (linearInterpolation
                    (seriesOf (currentVariableMapping dividesByZeroOnce) x) 20) = false
       /\ is_infinity (linearInterpolation
                         (seriesOf (currentVariableMapping dividesByZeroOnce) x) 20) = false)
    /\ (forall x, ~ In x ["a"%string] -> variableValues !! x = None)
    /\ evaluate exampleLibm
         (mkParser (operatorNode OP_DIVIDE (numberNode 1) (variableNode "a")) "")
         variableValues = Some 0.25%float.
Proof.
  assert (startComputation exampleLibm linearInterpolation neverCancelled dividesByZeroOnce
          = Some (mkRun [computationStarted; progressUpdated 0; progressUpdated 100;
                         computationComplete]
                    (mkOutput [(0, 0.5); (20, 0.25)]%float 1) 2 1 false)) as Hrun
    by (vm_compute; reflexivity).
  assert (prepare dividesByZeroOnce
          = Some (inr (mkParser (operatorNode OP_DIVIDE (numberNode 1) (variableNode "a")) "",
                       ["a"%string], [0; 10; 20]%float))) as Hprep
    by (vm_compute; reflexivity).
  apply (output_values exampleLibm linearInterpolation neverCancelled dividesByZeroOnce
           _ _ _ _ 20%float 0.25%float Hprep Hrun).
  cbn. auto.
Defined.

(** ** Whitespace around an expression *)

Lemma dropWhile_prefix {A} (p : A -> bool) (pre l : list A) :
  forallb p pre = true -> dropWhile p (pre ++ l) = dropWhile p l.
Proof.
  induction pre as [|x pre IH]; [reflexivity|]. cbn.
  intros H. apply andb_true_iff in H as [-> H]. auto.
Qed.

Lemma dropWhile_app {A} (p : A -> bool) (l post : list A) :
  dropWhile p l <> [] -> dropWhile p (l ++ post) = dropWhile p l ++ post.
Proof.
  induction l as [|x l IH]; cbn; [contradiction|].
  destruct (p x); [exact IH | reflexivity].
Qed.

Lemma trimmed_surrounded (pre l post : list QChar) :
  forallb isSpace pre = true -> forallb isSpace post = true ->
  trimmed (pre ++ l ++ post) = trimmed l.
Proof.
  intros Hpre Hpost. unfold trimmed. rewrite (dropWhile_prefix _ _ _ Hpre).
  destruct (dropWhile isSpace l) as [|x rest] eqn:Hl.
  - assert (dropWhile isSpace (l ++ post) = []) as ->; [|reflexivity].
    clear Hpre. induction l as [|y l IH]; cbn in *; [apply dropWhile_all, Hpost|].
    destruct (isSpace y); [auto | discriminate].
  - rewrite dropWhile_app by (rewrite Hl; discriminate).
    rewrite Hl, rev_app_distr, dropWhile_prefix; [reflexivity|].
    rewrite forallb_forall in *. intros c Hc. apply Hpost, in_rev, Hc.
Qed.

Lemma list_ascii_of_string_app (s1 s2 : string) :
  list_ascii_of_string (s1 ++ s2) = list_ascii_of_string s1 ++ list_ascii_of_string s2.
Proof.
  induction s1 as [|c s1 IH]; [reflexivity|].
  change (c :: list_ascii_of_string (s1 ++ s2)
          = c :: (list_ascii_of_string s1 ++ list_ascii_of_string s2)).
  f_equal. exact IH.
Qed.

Lemma dropWhile_split {A} (p : A -> bool) (l : list A) :
  exists pre, forallb p pre = true /\ l = pre ++ dropWhile p l.
Proof.
  induction l as [|c l (pre & Hpre & IH)]; [exists []; split; reflexivity|].
  cbn. destruct (p c) eqn:Hc.
  - exists (c :: pre). cbn. rewrite Hc, Hpre. split; [reflexivity|].
    f_equal. exact IH.
  - exists []. split; reflexivity.
Qed.

(** X18. Whitespace before and after an expression changes nothing:
    [parse] gives the same answer, the same tree and the same message,
    character positions included, for an expression and for the
    expression with whitespace around it. So the dialog, which trims the
    text it validates, and the computer, which parses what it is handed,
    agree on every expression. *)
Theorem surrounding_whitespace_is_ignored (before expression after : string)
        (this : MathExpressionParser) :
  forallb isSpace (list_ascii_of_string before) = true ->
  forallb isSpace (list_ascii_of_string after) = true ->
  parse (before ++ expression ++ after) this = parse expression this
  /\ parse (trimmedString expression) this = parse expression this.
Proof.
  intros Hbefore Hafter.
  assert (forall e1 e2,
            trimmed (list_ascii_of_string e1) = trimmed (list_ascii_of_string e2) ->
            parse e1 this = parse e2 this) as Hsame.
  { intros e1 e2 H. unfold parse, tokenize. rewrite H. reflexivity. }
  split; apply Hsame.
  - rewrite !list_ascii_of_string_app. apply trimmed_surrounded; assumption.
  - unfold trimmedString. rewrite list_ascii_of_string_of_list_ascii.
    generalize (list_ascii_of_string expression). intros l.
    destruct (dropWhile_split isSpace l) as (pre & Hpre & Hl).
    destruct (dropWhile_split isSpace (rev (dropWhile isSpace l))) as (post & Hpost & Hd).
    apply (f_equal (@rev QChar)) in Hd. rewrite rev_involutive, rev_app_distr in Hd.
    fold (trimmed l) in Hd.
    assert (forallb isSpace (rev post) = true) as Hpost'.
    { rewrite forallb_forall in *. intros c Hc. apply Hpost, in_rev. exact Hc. }
    symmetry. rewrite Hl at 1. rewrite Hd at 1.
    apply trimmed_surrounded; assumption.
Qed.

Lemma surrounding_whitespace_is_ignored_witness :
  parse "  a+1 " freshParser = parse "a+1" freshParser
  /\ parse (trimmedString "a+1") freshParser = parse "a+1" freshParser.
Proof.
  apply (surrounding_whitespace_is_ignored "  " "a+1" " " freshParser); reflexivity.
Defined.
